(** * Secret santa: shallow embedding of [secret_santa.py]

    The script builds a bipartite "who may give to whom" graph
    ([CreateBigraph]), computes a maximum-cardinality matching with
    Eppstein's Hopcroft-Karp implementation ([BipartiteMatch]) and walks the
    resulting assignment cycle by cycle ([MakeSureEverybodyHasGift]); [main]
    chains the three and hands one mail per entry to [SendEmail].

    Python features that matter for the properties below are kept explicit:
    - participants are [str] objects: an object has an address, compared by
      [is], and a content, compared by [==] and by dictionary lookups;
    - dictionaries are association lists with unique keys; an assignment to
      an existing key keeps the key object; the order in which Python 2
      iterates over a dictionary is a parameter of the development;
    - [random.shuffle] is a parameter as well;
    - exceptions are results of the [res] type;
    - [SendEmail] is the command line of the process it starts together with
      the text written to the standard input of that process;
    - the [while] loops and the recursion of [Recurse] run on fuel, computed
      from their arguments; running out of fuel is the result [OutOfFuel],
      and the theorems show that it never happens;
    - [Recurse] and what is built on it run on a stack as deep as the
      recursion asks for; [Recurse_frames] and [BipartiteMatch_frames] are
      the same code with the frames of the interpreter counted and its
      [RuntimeError] at the recursion limit, and the two agree whenever the
      frames suffice. *)

From Stdlib Require Import String.
From Stdlib Require Import List Arith Lia Bool Permutation.
From Stdlib Require Import FunctionalExtensionality.
From Stdlib Require DecimalString DecimalNat.
Import ListNotations.

Set Implicit Arguments.

(** ** Objects, exceptions *)

(** A [str] object is represented by its address. *)
Definition obj := nat.

Inductive exn := KeyError | IndexError | AssertionError | RuntimeError.

Inductive res (X : Type) : Type :=
| Ret (x : X)
| Raise (e : exn)
| OutOfFuel.
Arguments Ret {X} x.
Arguments Raise {X} e.
Arguments OutOfFuel {X}.

Definition bind {X Y : Type} (c : res X) (k : X -> res Y) : res Y :=
  match c with
  | Ret x => k x
  | Raise e => Raise e
  | OutOfFuel => OutOfFuel
  end.

Notation "x <- c ;; k" := (bind c (fun x => k))
  (at level 61, c at next level, right associativity).

(** The part of the Python runtime the script depends on: the content of
    every string object, the iteration order of dictionaries (Python 2 gives
    no guarantee beyond visiting every key once) and [random.shuffle]. *)
Class PyRuntime := {
  value : obj -> string;
  order : list obj -> list obj;
  order_perm : forall l, Permutation (order l) l;
  shuffle : list obj -> list obj;
  shuffle_perm : forall l, Permutation (shuffle l) l
}.

(** ** Dictionaries keyed by strings *)

Definition dict (X : Type) := list (obj * X).

Section Runtime.
Context {RT : PyRuntime}.

(** [a is b] *)
Definition py_is (a b : obj) : bool := Nat.eqb a b.

(** [a == b], also the key comparison of dictionaries *)
Definition py_eq (a b : obj) : bool := String.eqb (value a) (value b).

Section DictOps.
Variable X : Type.

(** [d.get(k)] *)
Fixpoint dict_get (k : obj) (d : dict X) : option X :=
  match d with
  | [] => None
  | (k', x) :: d' => if py_eq k' k then Some x else dict_get k d'
  end.

(** [k in d] *)
Definition dict_mem (k : obj) (d : dict X) : bool :=
  match dict_get k d with Some _ => true | None => false end.

(** [d[k]] *)
Definition dict_lookup (k : obj) (d : dict X) : res X :=
  match dict_get k d with Some x => Ret x | None => Raise KeyError end.

(** [d[k] = x]: an existing entry keeps its key object and its place *)
Fixpoint dict_set (k : obj) (x : X) (d : dict X) : dict X :=
  match d with
  | [] => [(k, x)]
  | (k', x') :: d' =>
      if py_eq k' k then (k', x) :: d' else (k', x') :: dict_set k x d'
  end.

Fixpoint dict_remove (k : obj) (d : dict X) : dict X :=
  match d with
  | [] => []
  | (k', x') :: d' =>
      if py_eq k' k then d' else (k', x') :: dict_remove k d'
  end.

(** [del d[k]] *)
Definition dict_del (k : obj) (d : dict X) : res (dict X) :=
  if dict_mem k d then Ret (dict_remove k d) else Raise KeyError.

(** [d.pop(k)] *)
Definition dict_pop (k : obj) (d : dict X) : res (X * dict X) :=
  match dict_get k d with
  | Some x => Ret (x, dict_remove k d)
  | None => Raise KeyError
  end.

Definition dict_keys (d : dict X) : list obj := map fst d.

(** [for k in d], [list(d)], [d.keys()], [d.iterkeys()] *)
Definition dict_iter (d : dict X) : list obj := order (dict_keys d).

End DictOps.

(** [d.setdefault(k, []).append(x)] *)
Definition dict_append (k x : obj) (d : dict (list obj)) : dict (list obj) :=
  match dict_get k d with
  | Some l => dict_set k (l ++ [x]) d
  | None => dict_set k [x] d
  end.

(** ** BipartiteMatch *)

(** [pred[u]] is either the list object [unmatched], used as a flag, or a
    vertex of V. *)
Inductive predv := Unmatched | Via (v : obj).

(** Greedy initialisation: the inner [for v in graph[u]] with its [break]. *)
Fixpoint greedy_inner (u : obj) (vs : list obj) (m : dict obj) : dict obj :=
  match vs with
  | [] => m
  | v :: vs' => if dict_mem v m then greedy_inner u vs' m else dict_set v u m
  end.

Fixpoint greedy (graph : dict (list obj)) (us : list obj) (m : dict obj)
  : res (dict obj) :=
  match us with
  | [] => Ret m
  | u :: us' =>
      vs <- dict_lookup u graph ;;
      greedy graph us' (greedy_inner u vs m)
  end.

(** [pred = dict([(u,unmatched) for u in graph])] *)
Definition pred_init (graph : dict (list obj)) : dict predv :=
  fold_left (fun d u => dict_set u Unmatched d) (dict_iter graph) [].

(** [for v in matching: del pred[matching[v]]] *)
Fixpoint pred_prune (m : dict obj) (vs : list obj) (pred : dict predv)
  : res (dict predv) :=
  match vs with
  | [] => Ret pred
  | v :: vs' =>
      u <- dict_lookup v m ;;
      pred' <- dict_del u pred ;;
      pred_prune m vs' pred'
  end.

(** [for v in graph[u]: if v not in preds: new_layer.setdefault(v,[]).append(u)] *)
Fixpoint scan_edges (u : obj) (vs : list obj) (preds new_layer : dict (list obj))
  : dict (list obj) :=
  match vs with
  | [] => new_layer
  | v :: vs' =>
      scan_edges u vs' preds
        (if dict_mem v preds then new_layer else dict_append v u new_layer)
  end.

Fixpoint scan_layer (graph : dict (list obj)) (layer : list obj)
    (preds new_layer : dict (list obj)) : res (dict (list obj)) :=
  match layer with
  | [] => Ret new_layer
  | u :: layer' =>
      vs <- dict_lookup u graph ;;
      scan_layer graph layer' preds (scan_edges u vs preds new_layer)
  end.

(** The variables of the layering loop. *)
Record layering := mkLayering {
  l_pred : dict predv;
  l_preds : dict (list obj);
  l_layer : list obj;
  l_unmatched : list obj
}.

(** [for v in new_layer: preds[v] = new_layer[v]; if v in matching: ...] *)
Fixpoint absorb (m : dict obj) (new_layer : dict (list obj)) (vs : list obj)
    (L : layering) : res layering :=
  match vs with
  | [] => Ret L
  | v :: vs' =>
      us <- dict_lookup v new_layer ;;
      let preds' := dict_set v us (l_preds L) in
      match dict_get v m with
      | Some u =>
          absorb m new_layer vs'
            (mkLayering (dict_set u (Via v) (l_pred L)) preds'
                        (l_layer L ++ [u]) (l_unmatched L))
      | None =>
          absorb m new_layer vs'
            (mkLayering (l_pred L) preds' (l_layer L) (l_unmatched L ++ [v]))
      end
  end.

(** [while layer and not unmatched: ...] *)
Fixpoint layering_loop (fuel : nat) (graph : dict (list obj)) (m : dict obj)
    (L : layering) : res layering :=
  match l_layer L, l_unmatched L with
  | _ :: _, [] =>
      match fuel with
      | 0 => OutOfFuel
      | S fuel' =>
          new_layer <- scan_layer graph (l_layer L) (l_preds L) [] ;;
          L' <- absorb m new_layer (dict_iter new_layer)
                  (mkLayering (l_pred L) (l_preds L) [] (l_unmatched L)) ;;
          layering_loop fuel' graph m L'
      end
  | _, _ => Ret L
  end.

(** The three dictionaries [Recurse] reads and updates. *)
Record state := mkState {
  matching : dict obj;
  pred : dict predv;
  preds : dict (list obj)
}.

(** The loop [for u in L] of [Recurse(v)]; [rec] is [Recurse] itself. *)
Fixpoint recurse_loop (rec : obj -> state -> res (bool * state)) (v : obj)
    (us : list obj) (s : state) : res (bool * state) :=
  match us with
  | [] => Ret (false, s)
  | u :: us' =>
      match dict_get u (pred s) with
      | Some pu =>
          let s1 := mkState (matching s) (dict_remove u (pred s)) (preds s) in
          match pu with
          | Unmatched =>
              Ret (true, mkState (dict_set v u (matching s1))
                                 (pred s1) (preds s1))
          | Via w =>
              r <- rec w s1 ;;
              if fst r
              then Ret (true, mkState (dict_set v u (matching (snd r)))
                                      (pred (snd r)) (preds (snd r)))
              else recurse_loop rec v us' (snd r)
          end
      | None => recurse_loop rec v us' s
      end
  end.

(** [Recurse(v)], on a stack as deep as the recursion asks for; the
    recursion limit of the interpreter is the subject of [Recurse_frames]
    below. *)
Fixpoint Recurse (fuel : nat) (v : obj) (s : state) : res (bool * state) :=
  match fuel with
  | 0 => OutOfFuel
  | S fuel' =>
      match dict_get v (preds s) with
      | Some L =>
          recurse_loop (Recurse fuel') v L
            (mkState (matching s) (pred s) (dict_remove v (preds s)))
      | None => Ret (false, s)
      end
  end.

(** [for v in unmatched: Recurse(v)] *)
Fixpoint augment (vs : list obj) (s : state) : res state :=
  match vs with
  | [] => Ret s
  | v :: vs' =>
      r <- Recurse (S (length (preds s))) v s ;;
      augment vs' (snd r)
  end.

(** [for v in graph[u]: if v not in preds: unlayered[v] = None] *)
Fixpoint unlayered_edges (vs : list obj) (preds : dict (list obj))
    (unl : dict unit) : dict unit :=
  match vs with
  | [] => unl
  | v :: vs' =>
      unlayered_edges vs' preds
        (if dict_mem v preds then unl else dict_set v tt unl)
  end.

Fixpoint unlayered (graph : dict (list obj)) (us : list obj)
    (preds : dict (list obj)) (unl : dict unit) : res (dict unit) :=
  match us with
  | [] => Ret unl
  | u :: us' =>
      vs <- dict_lookup u graph ;;
      unlayered graph us' preds (unlayered_edges vs preds unl)
  end.

(** Number of entries of the adjacency lists. *)
Definition edge_count (graph : dict (list obj)) : nat :=
  fold_right (fun e n => length (snd e) + n) 0 graph.

(** One pass of the [while 1] loop up to the end of the layering. *)
Definition layer_phase (graph : dict (list obj)) (m : dict obj) : res layering :=
  pred0 <- pred_prune m (dict_iter m) (pred_init graph) ;;
  layering_loop (S (edge_count graph)) graph m
    (mkLayering pred0 [] (dict_iter pred0) []).

(** [while 1: ...] *)
Fixpoint phases (fuel : nat) (graph : dict (list obj)) (m : dict obj)
  : res (dict obj * list obj * list obj) :=
  match fuel with
  | 0 => OutOfFuel
  | S fuel' =>
      L <- layer_phase graph m ;;
      match l_unmatched L with
      | [] =>
          unl <- unlayered graph (dict_iter graph) (l_preds L) [] ;;
          Ret (m, dict_iter (l_pred L), dict_iter unl)
      | _ :: _ =>
          s <- augment (l_unmatched L) (mkState m (l_pred L) (l_preds L)) ;;
          phases fuel' graph (matching s)
      end
  end.

Definition BipartiteMatch (graph : dict (list obj))
  : res (dict obj * list obj * list obj) :=
  m <- greedy graph (dict_iter graph) [] ;;
  phases (S (length graph)) graph m.

(** ** The recursion limit

    [Recurse] above is the recursion as the script writes it, on a stack as
    deep as the recursion asks for.  The interpreter bounds the stack: a
    call made while [frames] frames are active needs one more, and it fails
    with [RuntimeError] when that exceeds [sys.getrecursionlimit()].  The
    definitions below are the same code with the frames counted; nothing in
    the script catches the exception. *)

(** [sys.getrecursionlimit()]; the script does not change it. *)
Definition recursion_limit : nat := 1000.

(** [Recurse(v)], called while [frames] frames are active. *)
Fixpoint Recurse_frames (limit fuel frames : nat) (v : obj) (s : state)
  : res (bool * state) :=
  match fuel with
  | 0 => OutOfFuel
  | S fuel' =>
      if limit <=? frames then Raise RuntimeError
      else
        match dict_get v (preds s) with
        | Some L =>
            recurse_loop (Recurse_frames limit fuel' (S frames)) v L
              (mkState (matching s) (pred s) (dict_remove v (preds s)))
        | None => Ret (false, s)
        end
  end.

(** [for v in unmatched: Recurse(v)] *)
Fixpoint augment_frames (limit frames : nat) (vs : list obj) (s : state)
  : res state :=
  match vs with
  | [] => Ret s
  | v :: vs' =>
      r <- Recurse_frames limit (S (length (preds s))) frames v s ;;
      augment_frames limit frames vs' (snd r)
  end.

(** [while 1: ...] *)
Fixpoint phases_frames (limit frames fuel : nat) (graph : dict (list obj))
    (m : dict obj) : res (dict obj * list obj * list obj) :=
  match fuel with
  | 0 => OutOfFuel
  | S fuel' =>
      L <- layer_phase graph m ;;
      match l_unmatched L with
      | [] =>
          unl <- unlayered graph (dict_iter graph) (l_preds L) [] ;;
          Ret (m, dict_iter (l_pred L), dict_iter unl)
      | _ :: _ =>
          s <- augment_frames limit frames (l_unmatched L)
                 (mkState m (l_pred L) (l_preds L)) ;;
          phases_frames limit frames fuel' graph (matching s)
      end
  end.

(** [BipartiteMatch(graph)], running while [frames] frames are active, its
    own included. *)
Definition BipartiteMatch_frames (limit frames : nat)
    (graph : dict (list obj)) : res (dict obj * list obj * list obj) :=
  m <- greedy graph (dict_iter graph) [] ;;
  phases_frames limit frames (S (length graph)) graph m.

(** ** CreateBigraph *)

(** [(p, q) in couples]: tuples are compared component by component. *)
Definition in_couples (p q : obj) (couples : list (obj * obj)) : bool :=
  existsb (fun c => py_eq (fst c) p && py_eq (snd c) q) couples.

Definition excluded (p1 p2 : obj) (couples : list (obj * obj)) : bool :=
  py_is p1 p2 || in_couples p1 p2 couples || in_couples p2 p1 couples.

Fixpoint candidates (p1 : obj) (ps : list obj) (couples : list (obj * obj))
    (g : dict (list obj)) : dict (list obj) :=
  match ps with
  | [] => g
  | p2 :: ps' =>
      candidates p1 ps' couples
        (if excluded p1 p2 couples then g else dict_append p1 p2 g)
  end.

Definition CreateBigraph (attendees : dict string) (couples : list (obj * obj))
  : dict (list obj) :=
  let randomized_attendees := shuffle (dict_iter attendees) in
  fold_left (fun g p1 => candidates p1 randomized_attendees couples g)
            (dict_iter attendees) [].

(** ** MakeSureEverybodyHasGift *)

(** [while a is not root: a = attendees.pop(a); count += 1] *)
Fixpoint walk (fuel : nat) (root a : obj) (count : nat) (att : dict obj)
  : res (obj * nat * dict obj) :=
  if py_is a root then Ret (a, count, att)
  else match fuel with
       | 0 => OutOfFuel
       | S fuel' =>
           r <- dict_pop a att ;;
           walk fuel' root (fst r) (S count) (snd r)
       end.

(** The outer loop; [out] collects the printed cycle lengths. *)
Fixpoint cycles (fuel : nat) (att : dict obj) (out : list nat) : res (list nat) :=
  match att with
  | [] => Ret out
  | _ :: _ =>
      match fuel with
      | 0 => OutOfFuel
      | S fuel' =>
          match dict_iter att with
          | [] => Raise IndexError
          | root :: _ =>
              a <- dict_lookup root att ;;
              w <- walk (S (length att)) root a 1 att ;;
              r <- dict_pop (fst (fst w)) (snd w) ;;
              cycles fuel' (snd r) (out ++ [snd (fst w)])
          end
      end
  end.

Definition MakeSureEverybodyHasGift (attendees_mapping : dict obj)
  : res (list nat) :=
  cycles (S (length attendees_mapping)) attendees_mapping [].

(** ** main *)

(** The mails handed to [SendEmail]: recipient, match, address. *)
Fixpoint mails (attendees : dict string) (m : dict obj) (rs : list obj)
  : res (list (obj * obj * string)) :=
  match rs with
  | [] => Ret []
  | r :: rs' =>
      u <- dict_lookup r m ;;
      dest <- dict_lookup r attendees ;;
      rest <- mails attendees m rs' ;;
      Ret ((r, u, dest) :: rest)
  end.

Definition main (attendees : dict string) (couples : list (obj * obj))
  : res (list nat * list (obj * obj * string)) :=
  if 1 <? length attendees then
    let graph := CreateBigraph attendees couples in
    r <- BipartiteMatch graph ;;
    let attendees_mapping := fst (fst r) in
    printed <- MakeSureEverybodyHasGift attendees_mapping ;;
    sent <- mails attendees attendees_mapping (dict_iter attendees_mapping) ;;
    Ret (printed, sent)
  else Raise AssertionError.

(** *** Auxiliary definitions for [CreateBigraph] *)

(** What [setdefault(k, []).append(x)] adds to the candidates found so far. *)
Definition extend_opt (o : option (list obj)) (l : list obj) : option (list obj) :=
  match l with
  | [] => o
  | _ :: _ => Some (match o with Some l0 => l0 ++ l | None => l end)
  end.

Definition allowed (couples : list (obj * obj)) (p1 : obj) (ps : list obj) :=
  filter (fun p2 => negb (excluded p1 p2 couples)) ps.

Definition bigraph_from (couples : list (obj * obj)) (rand us : list obj)
    (g : dict (list obj)) :=
  fold_left (fun g p1 => candidates p1 rand couples g) us g.

(** ** Vocabulary of the properties *)

(** Some element of [l] has the content of [x]. *)
Definition vin (x : obj) (l : list obj) : Prop :=
  In (value x) (map value l).

(** A dictionary never holds two keys with the same content. *)
Definition wf (X : Type) (d : dict X) : Prop :=
  NoDup (map value (dict_keys d)).

(** Equal contents are held by one object only (interned strings). *)
Definition interned (l : list obj) : Prop :=
  forall a b, In a l -> In b l -> value a = value b -> a = b.

(** The givers of a matching. *)
Definition dict_values (X : Type) (d : dict X) : list X := map snd d.

(** Every giver of [d] is also a recipient of [d]. *)
Definition closed (d : dict obj) : Prop :=
  forall k x, In (k, x) d -> vin x (dict_keys d).

(** Recipients with the same giver are the same recipient. *)
Definition injective (d : dict obj) : Prop :=
  forall k1 k2 x1 x2,
    dict_get k1 d = Some x1 -> dict_get k2 d = Some x2 ->
    value x1 = value x2 -> value k1 = value k2.

(** The matching is complete over the participants [P]: every participant
    is exactly once a recipient and exactly once a giver. *)
Definition complete (P : list obj) (m : dict obj) : Prop :=
  NoDup (map value P) /\ wf m /\ NoDup (map value (dict_values m)) /\
  (forall p, vin p P <-> vin p (dict_keys m)) /\
  (forall p, vin p P <-> vin p (dict_values m)).

(** Nobody is matched with themself. *)
Definition no_self (m : dict obj) : Prop :=
  forall k x, In (k, x) m -> value x <> value k.

(** The dictionary is a bijection on its own keys. *)
Definition bijective (d : dict obj) : Prop :=
  (forall k x, dict_get k d = Some x -> dict_mem x d = true) /\ injective d.

(** A giver that equals a recipient is the same object as that recipient;
    it is what the test [a is not root] relies on. *)
Definition aligned (d : dict obj) : Prop :=
  forall k x k', In (k, x) d -> In k' (dict_keys d) ->
    value x = value k' -> x = k'.

(** Following the givers from [a], the recipients [l] are visited in turn
    and the chain arrives at [b]. *)
Fixpoint chain (m : dict obj) (a : obj) (l : list obj) (b : obj) : Prop :=
  match l with
  | [] => value a = value b
  | x :: l' =>
      value x = value a /\
      exists y, dict_get x m = Some y /\ chain m y l' b
  end.

(** [c] is a cycle of [m]: the chain that starts at the giver of its first
    participant visits the others and comes back to the first. *)
Definition is_cycle (m : dict obj) (c : list obj) : Prop :=
  match c with
  | [] => False
  | r :: l => exists a, dict_get r m = Some a /\ chain m a l r
  end.

(** ** Vocabulary for [BipartiteMatch] *)

(** [v] occurs in [graph[u]]: [u] may give to [v]. *)
Definition edge (g : dict (list obj)) (u v : obj) : Prop :=
  exists l, dict_get u g = Some l /\ vin v l.

(** [u] is the match of no recipient. *)
Definition free (m : dict obj) (u : obj) : Prop :=
  forall v u', dict_get v m = Some u' -> value u' <> value u.

(** The dictionary [m], from recipients to givers, is a matching of [g]. *)
Definition matching_ok (g : dict (list obj)) (m : dict obj) : Prop :=
  wf m /\ (forall v u, dict_get v m = Some u -> edge g u v) /\ injective m.

(** [pred] agrees with the matching: a vertex flagged [unmatched] is free,
    and [pred[u] = w] only if [u] is the match of [w]. *)
Definition pred_ok (m : dict obj) (pred : dict predv) : Prop :=
  forall u,
    (dict_get u pred = Some Unmatched -> free m u) /\
    (forall w, dict_get u pred = Some (Via w) ->
       exists u', dict_get w m = Some u' /\ value u' = value u).

(** Every recorded predecessor is a neighbour. *)
Definition preds_ok (g : dict (list obj)) (preds : dict (list obj)) : Prop :=
  forall v us u, dict_get v preds = Some us -> In u us -> edge g u v.

(** The first recorded predecessors lead from [u], in [n] double steps, to a
    vertex flagged [unmatched]. *)
Fixpoint good_u (pred : dict predv) (preds : dict (list obj)) (n : nat)
    (u : obj) : Prop :=
  match n with
  | 0 => dict_get u pred = Some Unmatched
  | S k =>
      exists w u' rest,
        dict_get u pred = Some (Via w) /\
        dict_get w preds = Some (u' :: rest) /\
        good_u pred preds k u'
  end.

Definition good_v (pred : dict predv) (preds : dict (list obj)) (n : nat)
    (v : obj) : Prop :=
  exists u rest, dict_get v preds = Some (u :: rest) /\ good_u pred preds n u.

(** Entries of the adjacency lists not reached by the layering yet. *)
Definition unseen (g : dict (list obj)) (preds : dict (list obj)) : nat :=
  fold_right
    (fun e n => length (filter (fun v => negb (dict_mem v preds)) (snd e)) + n)
    0 g.

(** [u] is the match of some recipient among [vs]. *)
Definition matched_in (m : dict obj) (vs : list obj) (u : obj) : bool :=
  existsb (fun v => match dict_get v m with
                    | Some u' => py_eq u' u
                    | None => false
                    end) vs.

(** Invariant of the layering loop, for a matching [m] of [g]. *)
Record layer_inv (g : dict (list obj)) (m : dict obj) (L : layering) : Prop := {
  li_wf_pred : wf (l_pred L);
  li_wf_preds : wf (l_preds L);
  li_pred_keys : forall u, dict_mem u (l_pred L) = true -> dict_mem u g = true;
  li_layer : forall u, In u (l_layer L) -> dict_mem u (l_pred L) = true;
  li_free : forall u, dict_mem u g = true -> free m u ->
      dict_get u (l_pred L) = Some Unmatched;
  li_pred_ok : pred_ok m (l_pred L);
  li_via : forall u w, dict_get u (l_pred L) = Some (Via w) ->
      dict_mem w (l_preds L) = true;
  li_back : forall v u, dict_get v m = Some u ->
      dict_mem v (l_preds L) = true -> dict_mem u (l_pred L) = true;
  li_closed : forall u l v, dict_mem u (l_pred L) = true ->
      ~ vin u (l_layer L) -> dict_get u g = Some l -> In v l ->
      dict_mem v (l_preds L) = true;
  li_reached : forall v, dict_mem v (l_preds L) = true ->
      dict_mem v m = true \/ vin v (l_unmatched L);
  li_unmatched : forall v, In v (l_unmatched L) ->
      dict_mem v m = false /\ dict_mem v (l_preds L) = true;
  li_preds_ok : preds_ok g (l_preds L);
  li_good_u : forall u, dict_mem u (l_pred L) = true ->
      exists n, good_u (l_pred L) (l_preds L) n u;
  li_good_v : forall v, dict_mem v (l_preds L) = true ->
      exists n, good_v (l_pred L) (l_preds L) n v
}.

(** What one scan of a layer has collected: fresh vertices of V with their
    neighbours in the layer [S]. *)
Definition new_layer_ok (g : dict (list obj)) (preds : dict (list obj))
    (S : list obj) (nl : dict (list obj)) : Prop :=
  wf nl /\
  forall v us, dict_get v nl = Some us ->
    us <> [] /\ dict_mem v preds = false /\
    forall x, In x us -> In x S /\ edge g x v.

(** Invariant of the augmentation: the three dictionaries agree. *)
Record rec_inv (g : dict (list obj)) (s : state) : Prop := {
  ri_match : matching_ok g (matching s);
  ri_wf_pred : wf (pred s);
  ri_wf_preds : wf (preds s);
  ri_pred_ok : pred_ok (matching s) (pred s);
  ri_preds_ok : preds_ok g (preds s)
}.

(** Every binding of [d'] is a binding of [d]. *)
Definition sub_dict (X : Type) (d' d : dict X) : Prop :=
  forall k x, dict_get k d' = Some x -> dict_get k d = Some x.

(** No vertex of U has [v] as its recorded predecessor. *)
Definition no_pred_to (v : obj) (pred : dict predv) : Prop :=
  forall x w, dict_get x pred = Some (Via w) -> value w <> value v.

(** What a call [Recurse(v)] with result [b] has done to the state. *)
Definition rec_post (g : dict (list obj)) (v : obj) (s : state) (b : bool)
    (s' : state) : Prop :=
  rec_inv g s' /\
  sub_dict (pred s') (pred s) /\ sub_dict (preds s') (preds s) /\
  length (preds s') <= length (preds s) /\
  (b = false -> matching s' = matching s) /\
  (b = true ->
     (exists u, dict_get v (matching s') = Some u /\
                dict_mem u (pred s) = true /\ dict_mem u (pred s') = false) /\
     (forall v' u', dict_get v' (matching s') = Some u' ->
        dict_get v' (matching s) = Some u' \/
        (dict_mem u' (pred s) = true /\ dict_mem u' (pred s') = false)) /\
     (forall x, dict_mem x (matching s') = py_eq v x || dict_mem x (matching s)) /\
     length (matching s') =
       if dict_mem v (matching s) then length (matching s)
       else S (length (matching s))).

(** The layering on which [BipartiteMatch] returns: it has explored
    everything and has reached no unmatched recipient. *)
Definition final_layering (g : dict (list obj)) (m : dict obj) (L : layering)
  : Prop :=
  layer_inv g m L /\ l_layer L = [] /\ l_unmatched L = [].

(** ** Matchings by content *)

(** The graph and the matching as the participants see them: names only. *)
Definition contents (g : dict (list obj)) : list (string * list string) :=
  map (fun e => (value (fst e), map value (snd e))) g.

(** The (giver, recipient) pairs of a matching dictionary. *)
Definition pairs (m : dict obj) : list (string * string) :=
  map (fun e => (value (snd e), value (fst e))) m.

(** [M] is a matching of the bipartite graph [sg]: no giver and no recipient
    occurs twice, and every pair is an edge. *)
Definition is_matching (sg : list (string * list string))
    (M : list (string * string)) : Prop :=
  NoDup (map fst M) /\ NoDup (map snd M) /\
  forall a b, In (a, b) M -> exists l, In (a, l) sg /\ In b l.

(** Brute force: every giver in turn takes any recipient not taken yet, or
    none; the best count is kept. *)
Fixpoint brute (sg : list (string * list string)) (used : list string) : nat :=
  match sg with
  | [] => 0
  | (_, l) :: sg' =>
      fold_right
        (fun b best =>
           if in_dec string_dec b used then best
           else Nat.max best (S (brute sg' (b :: used))))
        (brute sg' used) l
  end.

Definition max_matching_size (g : dict (list obj)) : nat :=
  brute (contents g) [].

(** No pair of [M] gives to a recipient of [used]. *)
Definition avoids (used : list string) (M : list (string * string)) : Prop :=
  forall a b, In (a, b) M -> ~ In b used.

(** Some key of [d] has the content [a]. *)
Definition holds (X : Type) (a : string) (d : dict X) : bool :=
  existsb (fun k => String.eqb (value k) a) (dict_keys d).

(** The recipient matched with the giver named [a], if there is one. *)
Definition partner (m : dict obj) (a : string) : string :=
  match find (fun e => String.eqb (value (snd e)) a) m with
  | Some e => value (fst e)
  | None => a
  end.

(** The vertex of the cover that a pair of another matching is charged to. *)
Definition charge (m : dict obj) (pred : dict predv) (p : string * string)
  : string :=
  if holds (fst p) pred then snd p else partner m (fst p).

(** ** Where the objects of the result come from *)

(** All objects of a matching, of [pred], of [preds] or of the graph are
    among the objects [O]. *)
Definition objs_m (O : list obj) (m : dict obj) : Prop :=
  forall k x, In (k, x) m -> In k O /\ In x O.

Definition objs_pred (O : list obj) (pred : dict predv) : Prop :=
  forall k x, In (k, x) pred -> In k O /\ forall w, x = Via w -> In w O.

Definition objs_preds (O : list obj) (preds : dict (list obj)) : Prop :=
  forall k l, In (k, l) preds -> In k O /\ incl l O.

Definition objs_layering (O : list obj) (L : layering) : Prop :=
  objs_pred O (l_pred L) /\ objs_preds O (l_preds L) /\
  incl (l_layer L) O /\ incl (l_unmatched L) O.

Definition objs_state (O : list obj) (s : state) : Prop :=
  objs_m O (matching s) /\ objs_pred O (pred s) /\ objs_preds O (preds s).

(** ** SendEmail *)

Definition SENDMAIL_PATH : string := "/usr/sbin/sendmail"%string.

(** The character of code 10. *)
Definition newline : Ascii.ascii :=
  Ascii.Ascii false true false true false false false false.

(** A process started by [os.popen(command, 'w')] and the text written to
    its standard input so far. *)
Record process := mkProcess {
  command : string;
  stdin : string
}.

Definition popen (cmd : string) : process := mkProcess cmd EmptyString.

Definition write (p : process) (s : string) : process :=
  mkProcess (command p) (stdin p ++ s)%string.

(** [SendEmail(subject, body, dest)]; the result is the process at the time
    of [p.close()]. *)
Definition SendEmail (subject body dest : string) : process :=
  let p := popen (SENDMAIL_PATH ++ " -t")%string in
  let p := write p ("To: " ++ dest ++ String newline EmptyString)%string in
  let p := write p ("Subject: " ++ subject ++ String newline EmptyString)%string in
  let p := write p (String newline EmptyString) in
  let p := write p body in
  let p := write p (String newline (String newline
             "Yours friendly, the secret santa generator"))%string in
  p.

(** The three components of a mail of [main]. *)
Definition mail_recipient (t : obj * obj * string) : obj := fst (fst t).
Definition mail_match (t : obj * obj * string) : obj := snd (fst t).
Definition mail_address (t : obj * obj * string) : string := snd t.

(** The call of [SendEmail] in the loop of [main]. *)
Definition letter (t : obj * obj * string) : process :=
  SendEmail "Your secret santa match!"%string
    ("Hi " ++ value (mail_recipient t) ++ ", your match is " ++
     value (mail_match t))%string
    (mail_address t).

(** *** Reading a message the way a mail system does *)

Definition no_newline (s : string) : Prop :=
  ~ In newline (list_ascii_of_string s).

(** The header lines of a message and its body: the header ends at the
    first empty line; [cur] is the line being read. *)
Fixpoint headers_body (cur : string) (s : string) : list string * string :=
  match s with
  | EmptyString => ([cur], EmptyString)
  | String c s' =>
      if Ascii.eqb c newline then
        match cur with
        | EmptyString => ([], s')
        | String _ _ =>
            let r := headers_body EmptyString s' in (cur :: fst r, snd r)
        end
      else headers_body (cur ++ String c EmptyString)%string s'
  end.

(** ** Vocabulary of the assignments of [main] *)

(** [p] may be matched with some participant. *)
Definition has_candidate (attendees : dict string) (couples : list (obj * obj))
    (p : obj) : bool :=
  existsb (fun q => negb (excluded p q couples)) (dict_keys attendees).

Definition eligible (attendees : dict string) (couples : list (obj * obj))
  : list obj :=
  filter (has_candidate attendees couples) (dict_keys attendees).

(** Everybody takes the next one, the last takes the first. *)
Definition rotate (X : Type) (l : list X) : list X :=
  match l with
  | [] => []
  | x :: l' => l' ++ [x]
  end.

(** ** Vocabulary of the independent set *)

(** The givers and the recipients of a graph by name, each once. *)
Definition givers (g : dict (list obj)) : list string :=
  map value (dict_keys g).

Definition recipients (g : dict (list obj)) : list string :=
  nodup string_dec (concat (map (fun e => map value (snd e)) g)).

(** No giver of [SU] may give to a recipient of [SV]. *)
Definition independent (sg : list (string * list string))
    (SU SV : list string) : Prop :=
  forall a l b, In (a, l) sg -> In b l -> In a SU -> ~ In b SV.

(** [u] is reached from an unmatched giver along an alternating path: from
    a giver to one of its candidates, from that recipient to the giver it is
    matched with, and so on. *)
Inductive alternating (g : dict (list obj)) (m : dict obj) : obj -> Prop :=
| alt_free u :
    dict_mem u g = true -> free m u -> alternating g m u
| alt_step u' v x u :
    alternating g m u' -> edge g u' v ->
    dict_get v m = Some x -> value x = value u ->
    alternating g m u.

(** All the objects a graph holds: its keys and the members of its lists. *)
Definition objects (g : dict (list obj)) : list obj :=
  dict_keys g ++ concat (map snd g).

End Runtime.

(** ** A concrete runtime *)

Definition heap0 : list string := ["A"; "B"; "C"; "D"; "Z"; "A"]%string.

#[refine] Instance rt0 : PyRuntime := {|
  value := fun o => nth o heap0 EmptyString;
  order := fun l => l;
  shuffle := fun l => rev l
|}.
Proof.
  - intros l. apply Permutation_refl.
  - intros l. apply Permutation_sym, Permutation_rev.
Defined.

Definition att4 : dict string :=
  [(0, "a@x"); (1, "b@x"); (2, "c@x"); (3, "d@x")]%string.
Definition att2 : dict string := [(0, "a@x"); (1, "b@x")]%string.
Definition att1 : dict string := [(0, "a@x")]%string.

(** The same heap with dictionaries iterated backwards. *)
#[refine] Instance rt1 : PyRuntime := {|
  value := fun o => nth o heap0 EmptyString;
  order := fun l => rev l;
  shuffle := fun l => l
|}.
Proof.
  - intros l. apply Permutation_sym, Permutation_rev.
  - intros l. apply Permutation_refl.
Defined.

(** A graph on which the greedy matching is not maximum, a complete
    matching (one cycle of length 3) and a matching with a missing entry. *)
Definition g3 : dict (list obj) := [(0, [1; 2]); (1, [1]); (2, [0; 1])].
Definition P3 : list obj := [0; 1; 2].
Definition m3 : dict obj := [(0, 1); (1, 2); (2, 0)].
Definition m1 : dict obj := [(0, 1)].

(** ** The configuration of the script *)

(** The keys of [g_attendees] are the objects 0 to 6, in the order of the
    source; the two strings of the tuple of [g_couples] are held by the
    objects [johan] and [louise], whichever they are. *)
Definition g_attendees : dict string :=
  [(0, "replaceme@google.com"); (1, "replaceme@google.com");
   (2, "replaceme@google.com"); (3, "replaceme@google.com");
   (4, "replaceme@google.com"); (5, "replaceme@google.com");
   (6, "replaceme@google.com")]%string.

Definition g_couples (johan louise : obj) : list (obj * obj) :=
  [(johan, louise)].

Definition g_names : list string :=
  ["babeth"; "claude"; "johan"; "julia"; "louise"; "morgane"; "tom"]%string.

(** A runtime for the configuration of the script, with dictionaries
    iterated backwards. *)
Definition heap_shipped : list string :=
  g_names ++ ["johan"%string; "louise"%string].

#[refine] Instance rt_shipped : PyRuntime := {|
  value := fun o => nth o heap_shipped EmptyString;
  order := fun l => rev l;
  shuffle := fun l => l
|}.
Proof.
  - intros l. apply Permutation_sym, Permutation_rev.
  - intros l. apply Permutation_refl.
Defined.

Definition couples_A : list (obj * obj) := [(0, 1); (0, 2); (0, 3)].
Definition couples_AB : list (obj * obj) := [(0, 1)].
Definition couples_BA : list (obj * obj) := [(1, 0); (1, 0)].

(** johan and louise matched with each other, the givers being copies of
    the keys (objects 7 and 8 of [heap_shipped]). *)
Definition m_copies : dict obj := [(2, 8); (4, 7)].

(** ** A long chain

    Giver [i] may give to [i] and to [i + 1], the last giver to [0] only.
    The names are the numbers in decimal, and the graph is iterated in the
    order in which it is written. *)
Definition chain_graph (n : nat) : dict (list obj) :=
  map (fun i => (i, [i; S i])) (seq 0 n) ++ [(n, [0])].

Definition chain_name (o : obj) : string :=
  DecimalString.NilEmpty.string_of_uint (Nat.to_uint o).

#[refine] Instance rt_chain : PyRuntime := {|
  value := chain_name;
  order := fun l => l;
  shuffle := fun l => l
|}.
Proof.
  - intros l. apply Permutation_refl.
  - intros l. apply Permutation_refl.
Defined.

(** A graph with no complete matching: A and C may only give to B. *)
Definition g_stuck : dict (list obj) := [(0, [1]); (2, [1])].

(** The matching in which everybody gives to themself. *)
Definition ident (n : nat) : dict obj := map (fun i => (i, i)) (seq 0 n).

(** * Proofs *)

Unset Implicit Arguments.

Section DictFacts.
Context {RT : PyRuntime}.

Lemma py_eq_true a b : py_eq a b = true <-> value a = value b.
Proof. unfold py_eq. apply String.eqb_eq. Qed.

Lemma py_eq_false a b : py_eq a b = false <-> value a <> value b.
Proof. unfold py_eq. apply String.eqb_neq. Qed.

Lemma py_eq_refl a : py_eq a a = true.
Proof. apply py_eq_true. reflexivity. Qed.

Lemma py_eq_sym a b : py_eq a b = py_eq b a.
Proof. unfold py_eq. apply String.eqb_sym. Qed.

Lemma py_eq_congr_l a b c : value a = value b -> py_eq a c = py_eq b c.
Proof. unfold py_eq. intros ->. reflexivity. Qed.

Lemma py_eq_congr_r a b c : value a = value b -> py_eq c a = py_eq c b.
Proof. unfold py_eq. intros ->. reflexivity. Qed.

Lemma py_is_true a b : py_is a b = true <-> a = b.
Proof. unfold py_is. apply Nat.eqb_eq. Qed.

Lemma py_is_false a b : py_is a b = false <-> a <> b.
Proof. unfold py_is. apply Nat.eqb_neq. Qed.

End DictFacts.

Ltac case_eq_py a b :=
  let E := fresh "E" in
  destruct (py_eq a b) eqn:E;
  [ apply py_eq_true in E | apply py_eq_false in E ].

Section DictLemmas.
Context {RT : PyRuntime}.
Context {X : Type}.
Implicit Types (d : dict X) (k : obj) (x : X).

Lemma get_congr k1 k2 d :
  value k1 = value k2 -> dict_get k1 d = dict_get k2 d.
Proof.
  intros H. induction d as [|[k' x'] d IH]; simpl; auto.
  rewrite (py_eq_congr_r k1 k2 k' H), IH. reflexivity.
Qed.

Lemma mem_congr k1 k2 d :
  value k1 = value k2 -> dict_mem k1 d = dict_mem k2 d.
Proof. intros H. unfold dict_mem. rewrite (get_congr _ _ d H). reflexivity. Qed.

Lemma get_set k k' x d :
  dict_get k (dict_set k' x d) = if py_eq k' k then Some x else dict_get k d.
Proof.
  induction d as [|[k0 x0] d IH]; simpl.
  - reflexivity.
  - case_eq_py k0 k'; simpl.
    + rewrite (py_eq_congr_l k0 k' k E). destruct (py_eq k' k); reflexivity.
    + case_eq_py k0 k.
      * case_eq_py k' k; auto. congruence.
      * apply IH.
Qed.

Lemma get_none_vin k d : dict_get k d = None <-> ~ vin k (dict_keys d).
Proof.
  unfold vin. induction d as [|[k0 x0] d IH]; simpl.
  - tauto.
  - case_eq_py k0 k.
    + split; [discriminate | intros H; exfalso; apply H; auto].
    + rewrite IH. intuition.
Qed.

Lemma mem_vin k d : dict_mem k d = true <-> vin k (dict_keys d).
Proof.
  unfold dict_mem. destruct (dict_get k d) eqn:E.
  - split; auto. intros _.
    destruct (in_dec string_dec (value k) (map value (dict_keys d))) as [H|H]; auto.
    apply get_none_vin in H. congruence.
  - apply get_none_vin in E. split; [discriminate | tauto].
Qed.

Lemma mem_false_vin k d : dict_mem k d = false <-> ~ vin k (dict_keys d).
Proof.
  rewrite <- mem_vin. destruct (dict_mem k d); split; congruence.
Qed.

Lemma mem_get k d : dict_mem k d = true <-> exists x, dict_get k d = Some x.
Proof.
  unfold dict_mem. destruct (dict_get k d); split; eauto; try discriminate.
  intros [x H]; discriminate.
Qed.

Lemma mem_false_get k d : dict_mem k d = false <-> dict_get k d = None.
Proof. unfold dict_mem. destruct (dict_get k d); split; congruence. Qed.

Lemma get_in k x d :
  dict_get k d = Some x -> exists k', In (k', x) d /\ value k' = value k.
Proof.
  induction d as [|[k0 x0] d IH]; simpl; [discriminate|].
  case_eq_py k0 k.
  - intros [= <-]. eauto.
  - intros H. destruct (IH H) as (k' & ? & ?). eauto.
Qed.

Lemma in_keys k x d : In (k, x) d -> In k (dict_keys d).
Proof. intros H. apply (in_map fst) in H. exact H. Qed.

Lemma in_vin (k : obj) (l : list obj) : In k l -> vin k l.
Proof. apply in_map. Qed.

Lemma vin_in (k : obj) (l : list obj) :
  vin k l -> exists k', In k' l /\ value k' = value k.
Proof. unfold vin. rewrite in_map_iff. intros (k' & ? & ?). eauto. Qed.

Lemma vin_congr (a b : obj) (l : list obj) :
  value a = value b -> vin a l -> vin b l.
Proof. unfold vin. intros ->. auto. Qed.

Lemma in_get k x d : wf d -> In (k, x) d -> dict_get k d = Some x.
Proof.
  unfold wf. induction d as [|[k0 x0] d IH]; simpl; [tauto|].
  intros Hnd [H|H].
  - inversion H; subst. rewrite py_eq_refl. reflexivity.
  - inversion Hnd; subst. case_eq_py k0 k.
    + exfalso. apply H2. rewrite E. apply in_keys in H.
      apply (in_map value) in H. exact H.
    + auto.
Qed.

Lemma wf_nil : wf (@nil (obj * X)).
Proof. constructor. Qed.

Lemma keys_set k x d :
  map value (dict_keys (dict_set k x d)) =
  if dict_mem k d then map value (dict_keys d)
  else map value (dict_keys d) ++ [value k].
Proof.
  unfold dict_mem. induction d as [|[k0 x0] d IH]; simpl; auto.
  case_eq_py k0 k; simpl; auto.
  rewrite IH. destruct (dict_get k d); reflexivity.
Qed.

Lemma wf_set k x d : wf d -> wf (dict_set k x d).
Proof.
  unfold wf. rewrite keys_set. destruct (dict_mem k d) eqn:E; auto.
  intros H. apply mem_false_vin in E.
  apply NoDup_app; auto.
  - constructor; [simpl; tauto | constructor].
  - intros a Ha [<-|[]]. apply E. exact Ha.
Qed.

Lemma vin_remove k k0 d :
  vin k (dict_keys (dict_remove k0 d)) -> vin k (dict_keys d).
Proof.
  unfold vin. induction d as [|[k1 x1] d IH]; simpl; auto.
  case_eq_py k1 k0; simpl; intuition.
Qed.

Lemma wf_remove k d : wf d -> wf (dict_remove k d).
Proof.
  unfold wf. induction d as [|[k1 x1] d IH]; simpl; auto.
  intros H. inversion H; subst. case_eq_py k1 k; simpl; auto.
  constructor; auto. intros Hin. apply H2.
  change (vin k1 (dict_keys d)). eapply vin_remove. exact Hin.
Qed.

Lemma get_remove k k' d :
  wf d ->
  dict_get k (dict_remove k' d) = if py_eq k' k then None else dict_get k d.
Proof.
  unfold wf. induction d as [|[k1 x1] d IH]; simpl; intros Hnd.
  - destruct (py_eq k' k); reflexivity.
  - inversion Hnd; subst. case_eq_py k1 k'; simpl.
    + case_eq_py k' k.
      * apply get_none_vin. unfold vin. rewrite <- E0, <- E. exact H1.
      * case_eq_py k1 k; auto. congruence.
    + case_eq_py k1 k.
      * case_eq_py k' k; auto. congruence.
      * auto.
Qed.

Lemma length_set k x d :
  length (dict_set k x d) = if dict_mem k d then length d else S (length d).
Proof.
  unfold dict_mem. induction d as [|[k0 x0] d IH]; simpl; auto.
  case_eq_py k0 k; simpl; auto.
  rewrite IH. destruct (dict_get k d); reflexivity.
Qed.

Lemma length_remove k d :
  dict_mem k d = true -> S (length (dict_remove k d)) = length d.
Proof.
  unfold dict_mem. induction d as [|[k0 x0] d IH]; simpl; [discriminate|].
  case_eq_py k0 k; simpl; auto.
Qed.

Lemma length_remove_le k d : length (dict_remove k d) <= length d.
Proof.
  induction d as [|[k0 x0] d IH]; simpl; auto.
  case_eq_py k0 k; simpl; lia.
Qed.

Lemma mem_set k k' x d :
  dict_mem k (dict_set k' x d) = py_eq k' k || dict_mem k d.
Proof.
  unfold dict_mem. rewrite get_set. destruct (py_eq k' k); reflexivity.
Qed.

Lemma mem_remove k k' d :
  wf d -> dict_mem k (dict_remove k' d) = negb (py_eq k' k) && dict_mem k d.
Proof.
  intros H. unfold dict_mem. rewrite get_remove by assumption.
  destruct (py_eq k' k); reflexivity.
Qed.

Lemma keys_set_incl k x d :
  incl (dict_keys (dict_set k x d)) (k :: dict_keys d).
Proof.
  induction d as [|[k1 x1] d IH]; simpl.
  - intros a [<-|[]]. left. reflexivity.
  - case_eq_py k1 k; simpl.
    + intros a Ha. right. exact Ha.
    + intros a [<-|Ha].
      * right. left. reflexivity.
      * destruct (IH a Ha) as [<-|H]; [left | right; right]; auto.
Qed.

Lemma keys_remove_incl k d : incl (dict_keys (dict_remove k d)) (dict_keys d).
Proof.
  induction d as [|[k1 x1] d IH]; simpl.
  - intros a [].
  - case_eq_py k1 k; simpl.
    + intros a Ha. right. exact Ha.
    + intros a [<-|Ha]; [left | right]; auto.
Qed.

Lemma iter_in k d : In k (dict_iter d) <-> In k (dict_keys d).
Proof.
  unfold dict_iter. split; apply Permutation_in.
  - apply order_perm.
  - apply Permutation_sym, order_perm.
Qed.

Lemma iter_length d : length (dict_iter d) = length d.
Proof.
  unfold dict_iter. rewrite (Permutation_length (order_perm _)).
  unfold dict_keys. apply length_map.
Qed.

Lemma iter_wf d : wf d -> NoDup (map value (dict_iter d)).
Proof.
  unfold wf, dict_iter. intros H.
  eapply Permutation_NoDup; [|exact H].
  apply Permutation_map, Permutation_sym, order_perm.
Qed.

Lemma iter_vin k d : vin k (dict_iter d) <-> vin k (dict_keys d).
Proof.
  unfold vin, dict_iter. split; apply Permutation_in.
  - apply Permutation_map, order_perm.
  - apply Permutation_map, Permutation_sym, order_perm.
Qed.

End DictLemmas.

Section ListFacts.
Context {RT : PyRuntime}.

Lemma existsb_py_eq u l :
  existsb (fun u0 => py_eq u0 u) l = true <-> vin u l.
Proof.
  rewrite existsb_exists. unfold vin. rewrite in_map_iff. split.
  - intros (x & Hx & E). apply py_eq_true in E. eauto.
  - intros (x & E & Hx). exists x. split; auto. apply py_eq_true. exact E.
Qed.

End ListFacts.

Ltac dict_norm :=
  repeat (rewrite ?get_set, ?mem_set, ?get_remove, ?mem_remove
            by auto using wf_set, wf_remove).

(** ** [CreateBigraph] *)

Section Bigraph.
Context {RT : PyRuntime}.

Lemma NoDup_value_interned (l : list obj) : NoDup (map value l) -> interned l.
Proof.
  induction l as [|x l IH]; simpl; intros H a b.
  - intros [].
  - inversion H; subst. intros [<-|Ha] [<-|Hb] E; auto.
    + exfalso. apply H2. rewrite E. apply in_map. exact Hb.
    + exfalso. apply H2. rewrite <- E. apply in_map. exact Ha.
    + apply IH; auto.
Qed.

Lemma wf_interned {X} (d : dict X) : wf d -> interned (dict_keys d).
Proof. apply NoDup_value_interned. Qed.

Lemma extend_opt_cons o q l :
  extend_opt (Some (match o with Some l0 => l0 ++ [q] | None => [q] end)) l =
  extend_opt o (q :: l).
Proof.
  destruct l; simpl; destruct o; simpl; try rewrite <- app_assoc; reflexivity.
Qed.

Lemma get_append k p q (g : dict (list obj)) :
  dict_get k (dict_append p q g) =
  if py_eq p k
  then Some (match dict_get k g with Some l0 => l0 ++ [q] | None => [q] end)
  else dict_get k g.
Proof.
  unfold dict_append. case_eq_py p k.
  - rewrite (get_congr _ _ g E).
    destruct (dict_get k g); rewrite get_set, (proj2 (py_eq_true p k) E); reflexivity.
  - destruct (dict_get p g); rewrite get_set, (proj2 (py_eq_false p k) E); reflexivity.
Qed.

Lemma wf_append p q (g : dict (list obj)) : wf g -> wf (dict_append p q g).
Proof. unfold dict_append. destruct (dict_get p g); apply wf_set. Qed.

Lemma keys_append_incl p q (g : dict (list obj)) :
  incl (dict_keys (dict_append p q g)) (p :: dict_keys g).
Proof. unfold dict_append. destruct (dict_get p g); apply keys_set_incl. Qed.

Lemma get_candidates couples p1 ps : forall g k,
  dict_get k (candidates p1 ps couples g) =
  if py_eq p1 k then extend_opt (dict_get k g) (allowed couples p1 ps)
  else dict_get k g.
Proof.
  unfold allowed.
  induction ps as [|p2 ps IH]; intros g k; simpl.
  - destruct (py_eq p1 k); reflexivity.
  - rewrite IH. destruct (excluded p1 p2 couples); simpl.
    + reflexivity.
    + rewrite get_append. destruct (py_eq p1 k) eqn:E; auto.
      apply extend_opt_cons.
Qed.

Lemma wf_candidates couples p1 ps : forall g,
  wf g -> wf (candidates p1 ps couples g).
Proof.
  induction ps as [|p2 ps IH]; intros g H; simpl; auto.
  apply IH. destruct (excluded p1 p2 couples); auto using wf_append.
Qed.

Lemma keys_candidates couples p1 ps : forall g,
  incl (dict_keys (candidates p1 ps couples g)) (p1 :: dict_keys g).
Proof.
  induction ps as [|p2 ps IH]; intros g; simpl.
  - apply incl_tl, incl_refl.
  - intros a Ha. apply IH in Ha. destruct (excluded p1 p2 couples); auto.
    destruct Ha as [<-|Ha]; [left; reflexivity|].
    apply keys_append_incl in Ha. exact Ha.
Qed.

Lemma get_bigraph_from couples rand us : forall g k,
  NoDup (map value us) ->
  (~ vin k us -> dict_get k (bigraph_from couples rand us g) = dict_get k g) /\
  (In k us -> dict_get k (bigraph_from couples rand us g) =
              extend_opt (dict_get k g) (allowed couples k rand)).
Proof.
  unfold bigraph_from.
  induction us as [|p1 us IH]; intros g k Hnd; simpl.
  - split; [reflexivity | tauto].
  - inversion Hnd as [|? ? Hp1 Hnd']; subst.
    destruct (IH (candidates p1 rand couples g) k Hnd') as [IH1 IH2].
    split.
    + intros Hk. rewrite IH1.
      * rewrite get_candidates. case_eq_py p1 k; auto.
        exfalso. apply Hk. left. exact E.
      * intros H. apply Hk. right. exact H.
    + intros [<-|Hk].
      * rewrite IH1 by exact Hp1.
        rewrite get_candidates, py_eq_refl. reflexivity.
      * rewrite IH2 by exact Hk. rewrite get_candidates.
        case_eq_py p1 k; auto.
        exfalso. apply Hp1. rewrite E. apply in_map. exact Hk.
Qed.

Lemma wf_bigraph_from couples rand us : forall g,
  wf g -> wf (bigraph_from couples rand us g).
Proof.
  unfold bigraph_from.
  induction us as [|p1 us IH]; intros g H; simpl; auto using wf_candidates.
Qed.

Lemma keys_bigraph_from couples rand us : forall g,
  incl (dict_keys (bigraph_from couples rand us g)) (us ++ dict_keys g).
Proof.
  unfold bigraph_from.
  induction us as [|p1 us IH]; intros g; simpl.
  - apply incl_refl.
  - intros a Ha. apply IH in Ha. apply in_app_or in Ha.
    destruct Ha as [Ha|Ha].
    + right. apply in_or_app. left. exact Ha.
    + apply keys_candidates in Ha. destruct Ha as [<-|Ha]; [left; reflexivity|].
      right. apply in_or_app. right. exact Ha.
Qed.

Lemma CreateBigraph_wf att couples : wf (CreateBigraph att couples).
Proof.
  change (wf (bigraph_from couples (shuffle (dict_iter att)) (dict_iter att) [])).
  apply wf_bigraph_from. constructor.
Qed.

Lemma CreateBigraph_keys att couples :
  incl (dict_keys (CreateBigraph att couples)) (dict_keys att).
Proof.
  intros a Ha.
  change (In a (dict_keys (bigraph_from couples (shuffle (dict_iter att))
                                        (dict_iter att) []))) in Ha.
  apply keys_bigraph_from in Ha.
  rewrite app_nil_r in Ha. apply iter_in in Ha. exact Ha.
Qed.

(** The graph maps every attendee to the shuffled attendees it may give to,
    and has no entry for an attendee left without candidates. *)
Lemma CreateBigraph_get att couples p :
  wf att -> In p (dict_keys att) ->
  dict_get p (CreateBigraph att couples) =
  extend_opt None (allowed couples p (shuffle (dict_iter att))).
Proof.
  intros Hwf Hp.
  change (CreateBigraph att couples)
    with (bigraph_from couples (shuffle (dict_iter att)) (dict_iter att) []).
  apply get_bigraph_from.
  - apply iter_wf. exact Hwf.
  - apply iter_in. exact Hp.
Qed.

Lemma CreateBigraph_entry att couples p l :
  wf att -> In (p, l) (CreateBigraph att couples) ->
  In p (dict_keys att) /\ l <> [] /\
  l = allowed couples p (shuffle (dict_iter att)).
Proof.
  intros Hwf Hin.
  assert (Hp : In p (dict_keys att)).
  { apply (CreateBigraph_keys att couples). eapply in_keys. exact Hin. }
  apply in_get in Hin; [|apply CreateBigraph_wf].
  rewrite CreateBigraph_get in Hin by assumption.
  destruct (allowed couples p (shuffle (dict_iter att))); simpl in Hin.
  - discriminate.
  - inversion Hin. repeat split; auto. discriminate.
Qed.

Lemma in_shuffle_iter {X} (d : dict X) q :
  In q (shuffle (dict_iter d)) <-> In q (dict_keys d).
Proof.
  rewrite <- iter_in. split; apply Permutation_in.
  - apply shuffle_perm.
  - apply Permutation_sym, shuffle_perm.
Qed.

Lemma in_couples_true p q couples :
  in_couples p q couples = true <->
  exists a b, In (a, b) couples /\ value a = value p /\ value b = value q.
Proof.
  unfold in_couples. rewrite existsb_exists. split.
  - intros ([a b] & Hin & H). simpl in H. apply andb_true_iff in H.
    destruct H as [H1 H2]. apply py_eq_true in H1, H2. eauto.
  - intros (a & b & Hin & H1 & H2). exists (a, b). split; auto. simpl.
    apply andb_true_iff. split; apply py_eq_true; auto.
Qed.

Lemma excluded_false p q couples :
  excluded p q couples = false ->
  p <> q /\
  forall a b, In (a, b) couples ->
    ~ (value a = value p /\ value b = value q) /\
    ~ (value a = value q /\ value b = value p).
Proof.
  unfold excluded. intros H.
  apply orb_false_iff in H. destruct H as [H H3].
  apply orb_false_iff in H. destruct H as [H1 H2].
  split; [apply py_is_false; exact H1|].
  intros a b Hin. split; intros [Ha Hb].
  - assert (in_couples p q couples = true) by (apply in_couples_true; eauto).
    congruence.
  - assert (in_couples q p couples = true) by (apply in_couples_true; eauto).
    congruence.
Qed.

(** No candidate has the content of the participant or of somebody the
    participant is paired with in [couples]. *)
Lemma CreateBigraph_excludes att couples :
  wf att ->
  forall p l q, In (p, l) (CreateBigraph att couples) -> In q l ->
    value q <> value p /\
    forall a b, In (a, b) couples ->
      ~ (value a = value p /\ value b = value q) /\
      ~ (value a = value q /\ value b = value p).
Proof.
  intros Hwf p l q Hin Hq.
  destruct (CreateBigraph_entry att couples p l Hwf Hin) as (Hp & _ & ->).
  unfold allowed in Hq. apply filter_In in Hq. destruct Hq as [Hq Hex].
  apply negb_true_iff in Hex. apply in_shuffle_iter in Hq.
  destruct (excluded_false _ _ _ Hex) as [Hne Hc].
  split; auto. intros E. apply Hne. symmetry.
  apply (wf_interned _ Hwf); auto.
Qed.


Lemma excluded_true p q couples :
  p = q \/
  (exists a b, In (a, b) couples /\
     ((value a = value p /\ value b = value q) \/
      (value a = value q /\ value b = value p))) ->
  excluded p q couples = true.
Proof.
  unfold excluded. intros [->|(a & b & Hin & [[Ha Hb]|[Ha Hb]])].
  - rewrite (proj2 (py_is_true q q) eq_refl). reflexivity.
  - rewrite (proj2 (in_couples_true p q couples)) by eauto.
    apply orb_true_iff. left. apply orb_true_r.
  - rewrite (proj2 (in_couples_true q p couples)) by eauto.
    apply orb_true_r.
Qed.

Lemma filter_none {A} (f : A -> bool) (l : list A) :
  (forall x, In x l -> f x = false) -> filter f l = [].
Proof.
  induction l as [|a l IH]; simpl; intros H; auto.
  rewrite (H a) by auto. apply IH. intros x Hx. apply H. auto.
Qed.

(** C10: a participant all of whose fellow participants are excluded gets
    no key in the graph of [CreateBigraph], no key is ever mapped to an
    empty list, and for two participants that exclude each other the graph
    has no key at all. *)
Theorem CreateBigraph_omits_empty att couples :
  wf att ->
  (forall p, In p (dict_keys att) ->
     (forall q, In q (dict_keys att) -> value q <> value p ->
        exists a b, In (a, b) couples /\
          ((value a = value p /\ value b = value q) \/
           (value a = value q /\ value b = value p))) ->
     dict_mem p (CreateBigraph att couples) = false) /\
  (forall p l, In (p, l) (CreateBigraph att couples) -> l <> []) /\
  (forall a b ea eb a' b',
     att = [(a, ea); (b, eb)] ->
     In (a', b') couples -> value a' = value a -> value b' = value b ->
     CreateBigraph att couples = []).
Proof.
  intros Hwf.
  assert (H1 : forall p, In p (dict_keys att) ->
     (forall q, In q (dict_keys att) -> value q <> value p ->
        exists a b, In (a, b) couples /\
          ((value a = value p /\ value b = value q) \/
           (value a = value q /\ value b = value p))) ->
     dict_mem p (CreateBigraph att couples) = false).
  { intros p Hp Hall. apply mem_false_get.
    rewrite CreateBigraph_get by assumption.
    unfold allowed. rewrite filter_none; auto.
    intros q Hq. apply in_shuffle_iter in Hq.
    apply negb_false_iff, excluded_true.
    destruct (string_dec (value q) (value p)) as [E|N].
    - left. symmetry. apply (wf_interned _ Hwf); auto.
    - right. apply Hall; auto. }
  split; [exact H1|]. split.
  - intros p l Hin. apply (CreateBigraph_entry att couples p l Hwf Hin).
  - intros a b ea eb a' b' Hatt Hc Ea Eb.
    assert (Hno : forall p l, ~ In (p, l) (CreateBigraph att couples)).
    { intros p l Hin.
      assert (Hp : In p (dict_keys att))
        by (apply (CreateBigraph_entry att couples p l Hwf Hin)).
      assert (Hm : dict_mem p (CreateBigraph att couples) = true).
      { apply mem_get. exists l. apply in_get; auto. apply CreateBigraph_wf. }
      rewrite H1 in Hm; [discriminate | exact Hp |].
      intros q Hq Hne. exists a', b'. split; auto.
      subst att. simpl in Hp, Hq.
      destruct Hp as [<-|[<-|[]]]; destruct Hq as [<-|[<-|[]]];
        try congruence; auto. }
    destruct (CreateBigraph att couples) as [|[p l] g]; auto.
    exfalso. apply (Hno p l). left. reflexivity.
Qed.

Lemma CreateBigraph_complete att couples p q :
  wf att -> In p (dict_keys att) -> In q (dict_keys att) ->
  excluded p q couples = false ->
  exists l, dict_get p (CreateBigraph att couples) = Some l /\ In q l.
Proof.
  intros Hwf Hp Hq Hex.
  rewrite CreateBigraph_get by assumption.
  assert (Hin : In q (allowed couples p (shuffle (dict_iter att)))).
  { unfold allowed. apply filter_In. split.
    - apply in_shuffle_iter. exact Hq.
    - rewrite Hex. reflexivity. }
  destruct (allowed couples p (shuffle (dict_iter att))) as [|x l]; [destruct Hin|].
  simpl. eauto.
Qed.

End Bigraph.

(** ** [MakeSureEverybodyHasGift] *)

Section Validator.
Context {RT : PyRuntime}.

Lemma dict_remove_incl {X} k (d : dict X) : incl (dict_remove k d) d.
Proof.
  induction d as [|[k1 x1] d IH]; simpl.
  - apply incl_refl.
  - case_eq_py k1 k.
    + apply incl_tl, incl_refl.
    + intros e [<-|He]; [left; reflexivity | right; apply IH; exact He].
Qed.

Lemma dict_remove_in_or {X} k (d : dict X) e :
  In e d ->
  In e (dict_remove k d) \/
  (dict_get k d = Some (snd e) /\ value (fst e) = value k).
Proof.
  induction d as [|[k1 x1] d IH]; simpl; [tauto|].
  case_eq_py k1 k.
  - intros [<-|He]; [right; auto | left; exact He].
  - intros [<-|He].
    + left. left. reflexivity.
    + destruct (IH He) as [H|H]; [left; right; exact H | right; exact H].
Qed.

Lemma wf_incl_get {X} (c d : dict X) k x :
  wf d -> incl c d -> dict_get k c = Some x -> dict_get k d = Some x.
Proof.
  intros Hwf Hi Hg. apply get_in in Hg. destruct Hg as (k' & Hin & E).
  rewrite <- (get_congr _ _ d E). apply in_get; auto.
Qed.

Lemma get_vin {X} k x (d : dict X) : dict_get k d = Some x -> vin k (dict_keys d).
Proof. intros H. apply mem_vin, mem_get. eauto. Qed.

(** The walk along one chain: it ends at the root or with a [KeyError]. *)
Lemma walk_outcome fuel root : forall a count cur,
  length cur < fuel ->
  (exists c' cur',
     walk fuel root a count cur = Ret (root, c', cur') /\
     incl cur' cur /\ count <= c' /\
     (wf cur -> wf cur') /\ length cur' <= length cur /\
     (a = root \/ vin a (dict_keys cur)) /\
     (forall k x, In (k, x) cur ->
        In (k, x) cur' \/ vin x (dict_keys cur) \/ x = root)) \/
  walk fuel root a count cur = Raise KeyError.
Proof.
  induction fuel as [|f IH]; intros a count cur Hf; [lia|].
  simpl. destruct (py_is a root) eqn:Eis.
  - apply py_is_true in Eis. subst a. left. exists count, cur.
    repeat split; auto using incl_refl.
  - unfold dict_pop. destruct (dict_get a cur) as [a'|] eqn:Eg; simpl; [|right; reflexivity].
    assert (Hm : dict_mem a cur = true) by (apply mem_get; eauto).
    pose proof (length_remove a cur Hm) as Hl.
    destruct (IH a' (S count) (dict_remove a cur)) as [(c' & cur' & Hw & Hi & Hc & Hwf' & Hle & Ha & He)|Hw];
      [lia | | right; exact Hw].
    left. exists c', cur'. rewrite Hw. repeat split.
    + eapply incl_tran; [exact Hi | apply dict_remove_incl].
    + lia.
    + intros Hwf. apply Hwf', wf_remove, Hwf.
    + lia.
    + right. eapply get_vin. exact Eg.
    + intros k x Hin. destruct (dict_remove_in_or a cur (k, x) Hin) as [H|[H _]].
      * destruct (He k x H) as [H1|[H1|H1]]; auto.
        right. left. eapply vin_remove. exact H1.
      * simpl in H. rewrite Eg in H. inversion H; subst a'.
        destruct Ha as [->|Ha]; auto.
        right. left. eapply vin_remove. exact Ha.
Qed.


Lemma iter_nonempty {X} (d : dict X) : d <> [] -> dict_iter d <> [].
Proof.
  intros H E. apply H. apply length_zero_iff_nil.
  rewrite <- iter_length, E. reflexivity.
Qed.

Lemma cycles_outcome fuel : forall att out,
  wf att -> length att < fuel ->
  (exists r, cycles fuel att out = Ret r /\ closed att) \/
  cycles fuel att out = Raise KeyError.
Proof.
  induction fuel as [|f IH]; intros att out Hwf Hf; [lia|].
  destruct att as [|e0 att0] eqn:Eatt.
  - left. exists out. split; auto. intros k x [].
  - rewrite <- Eatt in *. assert (Hne : att <> []) by (subst; discriminate).
    replace (cycles (S f) att out) with
      (match dict_iter att with
       | [] => Raise IndexError
       | root :: _ =>
           a <- dict_lookup root att ;;
           w <- walk (S (length att)) root a 1 att ;;
           r <- dict_pop (fst (fst w)) (snd w) ;;
           cycles f (snd r) (out ++ [snd (fst w)])
       end) by (subst att; reflexivity).
    destruct (dict_iter att) as [|root rest] eqn:Eit.
    { exfalso. eapply iter_nonempty; eauto. }
    assert (Hroot : In root (dict_keys att)).
    { apply iter_in. rewrite Eit. left. reflexivity. }
    unfold dict_lookup. destruct (dict_get root att) as [a|] eqn:Ea; cbn [bind]; [|right; reflexivity].
    destruct (walk_outcome (S (length att)) root a 1 att)
      as [(c' & cur' & Hw & Hi & Hc & Hwf' & Hlen & Ha & He)|Hw];
      [lia | | rewrite Hw; right; reflexivity].
    rewrite Hw. cbn [bind fst snd]. unfold dict_pop.
    destruct (dict_get root cur') as [x|] eqn:Ex; cbn [bind fst snd]; [|right; reflexivity].
    specialize (Hwf' Hwf).
    assert (Hl : S (length (dict_remove root cur')) = length cur').
    { apply length_remove, mem_get. eauto. }
    destruct (IH (dict_remove root cur') (out ++ [c'])) as [(r & Hr & Hcl)|Hr];
      [apply wf_remove; exact Hwf' | lia | | right; exact Hr].
    left. exists r. split; auto.
    intros k y Hin.
    assert (Hsub : forall z, vin z (dict_keys (dict_remove root cur')) -> vin z (dict_keys att)).
    { intros z Hz. apply vin_remove in Hz. apply vin_in in Hz.
      destruct Hz as (z' & Hz' & Ez). apply (vin_congr z' z _ Ez).
      apply in_vin. unfold dict_keys in *. apply in_map_iff in Hz'.
      destruct Hz' as (e & <- & He'). apply in_map. apply Hi. exact He'. }
    destruct (He k y Hin) as [H|[H|H]]; auto.
    + destruct (dict_remove_in_or root cur' (k, y) H) as [H1|[H1 _]].
      * apply Hsub. apply (Hcl k y H1).
      * simpl in H1. rewrite Ex in H1. inversion H1; subst y.
        pose proof (wf_incl_get cur' att root x Hwf Hi Ex) as Hx.
        rewrite Ea in Hx. inversion Hx; subst x.
        destruct Ha as [->|Ha]; auto. apply in_vin. exact Hroot.
    + subst y. apply in_vin. exact Hroot.
Qed.

End Validator.
Section ValidatorCycles.
Context {RT : PyRuntime}.

Lemma py_eq_true_of a b : value a = value b -> py_eq a b = true.
Proof. apply py_eq_true. Qed.

Lemma py_eq_false_of a b : value a <> value b -> py_eq a b = false.
Proof. apply py_eq_false. Qed.

Lemma bij_init root a att :
  dict_get root att = Some a -> bijective att ->
  bijective (dict_set root a att).
Proof.
  intros Hg [Hc Hi].
  assert (E : forall k, dict_get k (dict_set root a att) = dict_get k att).
  { intros k. rewrite get_set. case_eq_py root k; auto.
    rewrite <- (get_congr _ _ att E). auto. }
  split.
  - intros k x. unfold dict_mem. rewrite !E. apply Hc.
  - intros k1 k2 x1 x2. rewrite !E. apply Hi.
Qed.

Lemma bij_step root a a' cur :
  wf cur -> value a <> value root -> dict_get a cur = Some a' ->
  bijective (dict_set root a cur) ->
  bijective (dict_set root a' (dict_remove a cur)).
Proof.
  intros Hwf Hne Hg [Hc Hi].
  assert (Hroot : dict_get root (dict_set root a cur) = Some a)
    by (rewrite get_set, py_eq_refl; reflexivity).
  assert (Ha : dict_get a (dict_set root a cur) = Some a').
  { rewrite get_set, py_eq_false_of by congruence. exact Hg. }
  assert (Hother : forall k x, value k <> value root -> value k <> value a ->
            dict_get k cur = Some x ->
            dict_get k (dict_set root a cur) = Some x).
  { intros k x H1 H2 H. rewrite get_set, py_eq_false_of by congruence. exact H. }
  split.
  - intros k x. dict_norm. case_eq_py root k.
    + intros [= <-]. specialize (Hc _ _ Ha). rewrite mem_set in Hc.
      case_eq_py root a'; auto. simpl in *.
      case_eq_py a a'; simpl; auto.
      exfalso. apply Hne. symmetry. apply (Hi _ _ _ _ Hroot Ha). congruence.
    + case_eq_py a k; [discriminate|]. intros H.
      assert (Hk := Hother k x ltac:(congruence) ltac:(congruence) H).
      specialize (Hc _ _ Hk). rewrite mem_set in Hc.
      case_eq_py root x; auto. simpl in *.
      case_eq_py a x; simpl; auto.
      exfalso. apply E. apply (Hi _ _ _ _ Hroot Hk). congruence.
  - intros k1 k2 x1 x2. dict_norm.
    case_eq_py root k1; case_eq_py root k2; try congruence.
    + intros [= <-]. case_eq_py a k2; [discriminate|]. intros H Ex.
      exfalso. apply E1. apply (Hi a k2 a' x2); auto; apply Hother; auto; congruence.
    + case_eq_py a k1; [discriminate|]. intros H [= <-] Ex.
      exfalso. apply E1. apply (Hi a k1 a' x1); auto; apply Hother; auto; congruence.
    + case_eq_py a k1; [discriminate|]. case_eq_py a k2; [discriminate|].
      intros H1 H2. apply Hi; apply Hother; auto; congruence.
Qed.

Lemma bij_final root cur :
  wf cur -> bijective (dict_set root root cur) ->
  bijective (dict_remove root cur).
Proof.
  intros Hwf [Hc Hi].
  assert (Hroot : dict_get root (dict_set root root cur) = Some root)
    by (rewrite get_set, py_eq_refl; reflexivity).
  assert (Hother : forall k x, value k <> value root ->
            dict_get k cur = Some x ->
            dict_get k (dict_set root root cur) = Some x).
  { intros k x H1 H. rewrite get_set, py_eq_false_of by congruence. exact H. }
  split.
  - intros k x. dict_norm. case_eq_py root k; [discriminate|]. intros H.
    assert (Hk := Hother k x ltac:(congruence) H).
    specialize (Hc _ _ Hk). rewrite mem_set in Hc.
    case_eq_py root x; simpl in *; auto.
    exfalso. apply E. apply (Hi _ _ _ _ Hroot Hk). exact E0.
  - intros k1 k2 x1 x2. dict_norm.
    case_eq_py root k1; [discriminate|]. case_eq_py root k2; [discriminate|].
    intros H1 H2. apply Hi; apply Hother; auto; congruence.
Qed.


Lemma aligned_incl c d : aligned d -> incl c d -> aligned c.
Proof.
  intros Ha Hi k x k' H1 H2. apply (Ha k x k').
  - apply Hi. exact H1.
  - unfold dict_keys in *. apply in_map_iff in H2.
    destruct H2 as (e & <- & He). apply in_map, Hi, He.
Qed.

Lemma no_self_incl c d : no_self d -> incl c d -> no_self c.
Proof. intros Hn Hi k x H. apply Hn, Hi, H. Qed.

End ValidatorCycles.

(** *** The cycles of a complete matching *)

Section ValidatorDecomposition.
Context {RT : PyRuntime}.

Lemma chain_incl c d : wf d -> incl c d ->
  forall l a b, chain c a l b -> chain d a l b.
Proof.
  intros Hwf Hi. induction l as [|x l IH]; intros a b; simpl; auto.
  intros (E & y & Hy & Hc). split; auto. exists y. split; auto.
  eapply wf_incl_get; eauto.
Qed.

Lemma chain_keys m : forall l a b x,
  chain m a l b -> In x l -> dict_mem x m = true.
Proof.
  induction l as [|x0 l IH]; intros a b x; simpl; [tauto|].
  intros (E & y & Hy & Hc) [<-|Hx].
  - apply mem_get. eauto.
  - eapply IH; eauto.
Qed.

Lemma is_cycle_incl c d cyc : wf d -> incl c d -> is_cycle c cyc -> is_cycle d cyc.
Proof.
  intros Hwf Hi. destruct cyc as [|r l]; simpl; auto.
  intros (a & Ha & Hc). exists a. split.
  - eapply wf_incl_get; eauto.
  - eapply chain_incl; eauto.
Qed.

(** On a bijection the walk comes back to the root, along a chain of
    distinct recipients that it removes from the dictionary. *)
Lemma walk_perm att root fuel : forall a count cur,
  aligned att -> In root (dict_keys att) ->
  incl cur att -> wf cur -> (exists k, In (k, a) att) ->
  dict_mem root cur = true ->
  bijective (dict_set root a cur) ->
  length cur < fuel ->
  exists l cur',
    walk fuel root a count cur = Ret (root, count + length l, cur') /\
    incl cur' att /\ wf cur' /\ dict_mem root cur' = true /\
    bijective (dict_set root root cur') /\
    chain cur a l root /\ NoDup (map value l) /\ ~ vin root l /\
    (forall k, dict_get k cur' =
               if existsb (fun x => py_eq x k) l then None
               else dict_get k cur) /\
    length cur' + length l = length cur /\
    (value a <> value root -> l <> []).
Proof.
  induction fuel as [|f IH]; intros a count cur Hal Hroot Hi Hwf [ka Hka] Hm Hb Hf; [lia|].
  simpl. destruct (py_is a root) eqn:Eis.
  - apply py_is_true in Eis. subst a. exists [], cur.
    rewrite Nat.add_0_r. simpl.
    repeat split; auto; try apply Hb; try lia; try constructor; try tauto.
  - apply py_is_false in Eis.
    assert (Hne : value a <> value root).
    { intros E. apply Eis. apply (Hal ka a root); auto. }
    assert (Ha : dict_mem a cur = true).
    { destruct Hb as [Hc _].
      assert (Hr : dict_get root (dict_set root a cur) = Some a)
        by (rewrite get_set, py_eq_refl; reflexivity).
      specialize (Hc _ _ Hr). rewrite mem_set in Hc.
      rewrite py_eq_false_of in Hc by congruence. exact Hc. }
    apply mem_get in Ha. destruct Ha as [a' Ha].
    unfold dict_pop. rewrite Ha. cbn [bind fst snd].
    assert (Hl : S (length (dict_remove a cur)) = length cur).
    { apply length_remove, mem_get. eauto. }
    destruct (IH a' (S count) (dict_remove a cur))
      as (l & cur' & Hw & H1 & H2 & H3 & H4 & H5 & H6 & H7 & H8 & H9 & _); auto.
    + eapply incl_tran; [apply dict_remove_incl | exact Hi].
    + apply wf_remove. exact Hwf.
    + apply get_in in Ha. destruct Ha as (k' & Hin & _). exists k'.
      apply Hi. exact Hin.
    + rewrite mem_remove by assumption. rewrite Hm.
      rewrite py_eq_false_of by congruence. reflexivity.
    + apply bij_step; auto.
    + lia.
    + exists (a :: l), cur'. rewrite Hw.
      replace (count + length (a :: l)) with (S count + length l)
        by (simpl; lia).
      split; [reflexivity|]. split; [exact H1|]. split; [exact H2|].
      split; [exact H3|]. split; [exact H4|]. split; [|split; [|split; [|split; [|split]]]].
      * simpl. split; auto. exists a'. split; auto.
        eapply chain_incl; [exact Hwf | apply dict_remove_incl | exact H5].
      * simpl. constructor; auto. intros Hin.
        apply in_map_iff in Hin. destruct Hin as (x & Ex & Hx).
        pose proof (chain_keys _ _ _ _ _ H5 Hx) as Hxm.
        rewrite (mem_congr x a _ Ex) in Hxm.
        rewrite mem_remove in Hxm by assumption.
        rewrite py_eq_refl in Hxm. discriminate.
      * unfold vin. simpl. intros [E|Hin]; [congruence | apply H7; exact Hin].
      * intros k. rewrite H8. simpl. rewrite get_remove by assumption.
        destruct (py_eq a k); simpl; auto.
        destruct (existsb _ l); reflexivity.
      * simpl. lia.
      * intros _. discriminate.
Qed.


Lemma list_sum_lengths {A} (cs : list (list A)) :
  list_sum (map (@length A) cs) = length (concat cs).
Proof.
  induction cs as [|c cs IH]; simpl; auto.
  rewrite length_app, IH. reflexivity.
Qed.

Lemma cycles_perm fuel : forall att out,
  wf att -> aligned att -> bijective att -> length att < fuel ->
  exists cs,
    cycles fuel att out = Ret (out ++ map (@length obj) cs) /\
    (forall c, In c cs -> is_cycle att c) /\
    NoDup (map value (concat cs)) /\
    (forall k, dict_mem k att = true <-> vin k (concat cs)) /\
    (no_self att -> forall c, In c cs -> 2 <= length c).
Proof.
  induction fuel as [|f IH]; intros att out Hwf Hal Hb Hf; [lia|].
  destruct att as [|e0 att0] eqn:Eatt.
  - exists []. simpl. rewrite app_nil_r. repeat split; auto; try constructor;
      try (intros; contradiction); try discriminate.
  - rewrite <- Eatt in *. assert (Hne : att <> []) by (subst; discriminate).
    replace (cycles (S f) att out) with
      (match dict_iter att with
       | [] => Raise IndexError
       | root :: _ =>
           a <- dict_lookup root att ;;
           w <- walk (S (length att)) root a 1 att ;;
           r <- dict_pop (fst (fst w)) (snd w) ;;
           cycles f (snd r) (out ++ [snd (fst w)])
       end) by (subst att; reflexivity).
    destruct (dict_iter att) as [|root rest] eqn:Eit.
    { exfalso. eapply iter_nonempty; eauto. }
    assert (Hroot : In root (dict_keys att)).
    { apply iter_in. rewrite Eit. left. reflexivity. }
    assert (Hm : dict_mem root att = true) by (apply mem_vin, in_vin, Hroot).
    destruct (proj1 (mem_get _ _) Hm) as [a Ha].
    unfold dict_lookup. rewrite Ha. cbn [bind].
    destruct (walk_perm att root (S (length att)) a 1 att)
      as (l & cur' & Hw & H1 & H2 & H3 & H4 & H5 & H6 & H7 & H8 & H9 & H10);
      auto using incl_refl.
    { apply get_in in Ha. destruct Ha as (k' & Hin & _). eauto. }
    { apply bij_init; auto. }
    rewrite Hw. cbn [bind fst snd]. unfold dict_pop.
    destruct (proj1 (mem_get _ _) H3) as [x Hx]. rewrite Hx. cbn [bind fst snd].
    assert (Hl : S (length (dict_remove root cur')) = length cur')
      by (apply length_remove; exact H3).
    assert (Hi' : incl (dict_remove root cur') att).
    { eapply incl_tran; [apply dict_remove_incl | exact H1]. }
    destruct (IH (dict_remove root cur') (out ++ [1 + length l]))
      as (cs & Hr & Hcyc & Hnd & Hcov & Htwo).
    + apply wf_remove. exact H2.
    + eapply aligned_incl; eauto.
    + apply bij_final; auto.
    + lia.
    + assert (Hget'' : forall k, dict_get k (dict_remove root cur') =
                if py_eq root k then None
                else if existsb (fun x => py_eq x k) l then None
                else dict_get k att).
      { intros k. rewrite get_remove by assumption. rewrite H8. reflexivity. }
      assert (Hmem'' : forall k, dict_mem k (dict_remove root cur') = true ->
                value root <> value k /\ ~ vin k l /\ dict_mem k att = true).
      { intros k. unfold dict_mem. rewrite Hget''.
        case_eq_py root k; [discriminate|].
        destruct (existsb (fun x => py_eq x k) l) eqn:El; [discriminate|].
        intros H. repeat split; auto.
        intros Hin. apply existsb_py_eq in Hin. congruence. }
      exists ((root :: l) :: cs). rewrite Hr, <- app_assoc. simpl.
      split; [reflexivity|]. split; [|split; [|split]].
      * intros c [<-|Hc].
        -- simpl. exists a. auto.
        -- eapply is_cycle_incl; [exact Hwf | exact Hi' | apply Hcyc; exact Hc].
      * constructor.
        -- rewrite map_app. intros Hin. apply in_app_or in Hin.
           destruct Hin as [Hin|Hin]; [apply H7; exact Hin|].
           apply (Hcov root) in Hin. apply Hmem'' in Hin.
           destruct Hin as [Hin _]. apply Hin. reflexivity.
        -- rewrite map_app. apply NoDup_app; auto.
           intros s Hs1 Hs2. apply in_map_iff in Hs1.
           destruct Hs1 as (k & <- & Hk).
           apply (Hcov k) in Hs2. apply Hmem'' in Hs2.
           destruct Hs2 as (_ & Hs2 & _). apply Hs2. apply in_vin. exact Hk.
      * intros k. unfold vin. simpl. rewrite map_app, in_app_iff. split.
        -- intros Hk. case_eq_py root k; auto. right.
           destruct (existsb (fun x => py_eq x k) l) eqn:El.
           ++ left. apply existsb_py_eq in El. exact El.
           ++ right. apply (Hcov k). unfold dict_mem. rewrite Hget''.
              rewrite (py_eq_false_of _ _ E), El. exact Hk.
        -- intros [E|[Hk|Hk]].
           ++ rewrite <- (mem_congr root k _ E). exact Hm.
           ++ apply vin_in in Hk. destruct Hk as (k' & Hk' & E).
              rewrite <- (mem_congr k' k _ E).
              eapply chain_keys; eauto.
           ++ apply (Hcov k) in Hk. apply Hmem'' in Hk. apply Hk.
      * intros Hns c [<-|Hc].
        -- simpl. assert (l <> []); [|destruct l; simpl; [congruence | lia]].
           apply H10. apply get_in in Ha. destruct Ha as (k' & Hin & E).
           rewrite <- E. apply (Hns k' a Hin).
        -- apply Htwo; auto. eapply no_self_incl; eauto.
Qed.

Lemma NoDup_map_inj {A B} (f : A -> B) (l : list A) a b :
  NoDup (map f l) -> In a l -> In b l -> f a = f b -> a = b.
Proof.
  induction l as [|x l IH]; simpl; intros H.
  - intros [].
  - inversion H; subst. intros [<-|Ha] [<-|Hb] E; auto.
    + exfalso. apply H2. rewrite E. apply in_map. exact Hb.
    + exfalso. apply H2. rewrite <- E. apply in_map. exact Ha.
Qed.

Lemma complete_bijective P m : complete P m -> bijective m.
Proof.
  intros (HP & Hwf & Hv & Hk & Hvs). split.
  - intros k x Hg. apply mem_vin, Hk, Hvs.
    apply get_in in Hg. destruct Hg as (k' & Hin & _).
    apply in_vin. apply (in_map snd) in Hin. exact Hin.
  - intros k1 k2 x1 x2 H1 H2 E.
    apply get_in in H1, H2.
    destruct H1 as (k1' & Hin1 & E1). destruct H2 as (k2' & Hin2 & E2).
    unfold dict_values in Hv. rewrite map_map in Hv.
    assert (Heq : (k1', x1) = (k2', x2)).
    { apply (NoDup_map_inj _ m _ _ Hv Hin1 Hin2). exact E. }
    inversion Heq; subst. congruence.
Qed.

Lemma complete_length P m : complete P m -> length P = length m.
Proof.
  intros (HP & Hwf & Hv & Hk & Hvs).
  transitivity (length (map value (dict_keys m))).
  - rewrite <- (length_map value P).
    apply Permutation_length. apply NoDup_Permutation; auto.
    intros s. split; intros Hs.
    + apply in_map_iff in Hs. destruct Hs as (p & <- & Hp).
      apply (Hk p). apply in_vin. exact Hp.
    + apply in_map_iff in Hs. destruct Hs as (p & <- & Hp).
      apply (Hk p). apply in_vin. exact Hp.
  - unfold dict_keys. rewrite !length_map. reflexivity.
Qed.

(** On a complete matching of interned participants the validator returns
    and prints the lengths of disjoint cycles of the matching that cover
    every participant. *)
Lemma MakeSureEverybodyHasGift_decomposes P m :
  complete P m -> interned (dict_keys m ++ dict_values m) ->
  exists cs,
    MakeSureEverybodyHasGift m = Ret (map (@length obj) cs) /\
    (forall c, In c cs -> is_cycle m c) /\
    NoDup (map value (concat cs)) /\
    (forall p, vin p P <-> vin p (concat cs)) /\
    list_sum (map (@length obj) cs) = length P /\
    (no_self m -> forall c, In c cs -> length c <> 1).
Proof.
  intros Hc Hint.
  destruct (cycles_perm (S (length m)) m []) as (cs & Hr & H1 & H2 & H3 & H4).
  - apply Hc.
  - intros k x k' Hin Hk' E. apply Hint; auto.
    + apply in_or_app. right. apply (in_map snd) in Hin. exact Hin.
    + apply in_or_app. left. exact Hk'.
  - eapply complete_bijective. exact Hc.
  - lia.
  - assert (Hcov : forall p, vin p P <-> vin p (concat cs)).
    { intros p. destruct Hc as (_ & _ & _ & Hk & _).
      rewrite (Hk p), <- mem_vin. apply H3. }
    exists cs. unfold MakeSureEverybodyHasGift. rewrite Hr. simpl.
    split; [reflexivity|]. split; [exact H1|]. split; [exact H2|].
    split; [exact Hcov|]. split.
    + rewrite list_sum_lengths.
      rewrite <- (length_map value (concat cs)), <- (length_map value P).
      apply Permutation_length. apply NoDup_Permutation; auto; [apply Hc|].
      intros s. split; intros Hs.
      * apply in_map_iff in Hs. destruct Hs as (p & <- & Hp).
        apply (Hcov p). apply in_vin. exact Hp.
      * apply in_map_iff in Hs. destruct Hs as (p & <- & Hp).
        apply (Hcov p). apply in_vin. exact Hp.
    + intros Hns c Hcin. specialize (H4 Hns c Hcin). lia.
Qed.

Lemma MakeSureEverybodyHasGift_complete P m :
  complete P m -> interned (dict_keys m ++ dict_values m) ->
  exists lengths,
    MakeSureEverybodyHasGift m = Ret lengths /\
    list_sum lengths = length P /\
    (forall c, In c lengths -> 1 <= c) /\
    (no_self m -> forall c, In c lengths -> c <> 1).
Proof.
  intros Hc Hint.
  destruct (MakeSureEverybodyHasGift_decomposes P m Hc Hint)
    as (cs & Hr & H1 & H2 & H3 & Hsum & H4).
  exists (map (@length obj) cs). split; [exact Hr|]. split; [exact Hsum|].
  split.
  - intros n Hn. apply in_map_iff in Hn. destruct Hn as (c & <- & Hcin).
    specialize (H1 c Hcin). destruct c; simpl in *; [contradiction | lia].
  - intros Hns n Hn. apply in_map_iff in Hn. destruct Hn as (c & <- & Hcin).
    apply (H4 Hns c Hcin).
Qed.

(** C2 (amended): when some assigned giver has no entry of its own in the
    matching, so that a chain lookup finds a missing entry, the validator
    fails with the [KeyError] of that lookup; the code has no
    IncompleteMatchingError. *)
Theorem MakeSureEverybodyHasGift_missing_entry m :
  wf m ->
  (exists k x, In (k, x) m /\ ~ vin x (dict_keys m)) ->
  MakeSureEverybodyHasGift m = Raise KeyError.
Proof.
  intros Hwf (k & x & Hin & Hx). unfold MakeSureEverybodyHasGift.
  destruct (cycles_outcome (S (length m)) m [] Hwf) as [(r & _ & Hc)|H]; auto.
  exfalso. apply Hx. apply (Hc k x Hin).
Qed.

End ValidatorDecomposition.

(** ** [BipartiteMatch]: the greedy initialisation *)

Section Greedy.
Context {RT : PyRuntime}.
Variable g : dict (list obj).

Lemma edge_congr u u' v v' :
  value u = value u' -> value v = value v' -> edge g u v -> edge g u' v'.
Proof.
  intros Eu Ev (l & Hl & Hv). exists l. split.
  - rewrite <- (get_congr _ _ g Eu). exact Hl.
  - eapply vin_congr; eauto.
Qed.

Lemma edge_mem u v : edge g u v -> dict_mem u g = true.
Proof. intros (l & Hl & _). apply mem_get. eauto. Qed.

Lemma free_congr m u u' : value u = value u' -> free m u -> free m u'.
Proof. intros E H v x Hg. rewrite <- E. apply (H v x Hg). Qed.

Lemma matching_ok_nil : matching_ok g [].
Proof.
  split; [constructor|]. split.
  - intros v u H. discriminate.
  - intros k1 k2 x1 x2 H. discriminate.
Qed.

(** Adding [v -> u] keeps a matching, provided [u] gives to nobody else. *)
Lemma matching_ok_set m v u :
  matching_ok g m -> edge g u v ->
  (forall v' u', dict_get v' m = Some u' -> value u' = value u ->
                 value v' = value v) ->
  matching_ok g (dict_set v u m).
Proof.
  intros (Hwf & He & Hi) Hedge Hu. split; [apply wf_set; exact Hwf|]. split.
  - intros v1 u1. rewrite get_set. case_eq_py v v1.
    + intros [= <-]. eapply edge_congr; eauto.
    + apply He.
  - intros k1 k2 x1 x2. rewrite !get_set.
    case_eq_py v k1; case_eq_py v k2; try congruence.
    + intros [= <-] H2 Ex. rewrite <- E. symmetry. apply (Hu k2 x2); auto.
    + intros H1 [= <-] Ex. rewrite <- E0. apply (Hu k1 x1); auto.
    + apply Hi.
Qed.

Lemma greedy_inner_ok u l : forall vs m,
  dict_get u g = Some l -> incl vs l ->
  matching_ok g m -> free m u ->
  matching_ok g (greedy_inner u vs m) /\
  (forall v u', dict_get v (greedy_inner u vs m) = Some u' ->
                dict_get v m = Some u' \/ u' = u).
Proof.
  induction vs as [|v vs IH]; intros m Hl Hi Hok Hfree; simpl.
  - split; auto.
  - destruct (dict_mem v m) eqn:Em.
    + apply IH; auto. intros x Hx. apply Hi. right. exact Hx.
    + split.
      * apply matching_ok_set; auto.
        -- exists l. split; auto. apply in_vin. apply Hi. left. reflexivity.
        -- intros v' u' Hg E. exfalso. apply (Hfree v' u' Hg E).
      * intros v' u'. rewrite get_set. case_eq_py v v'; auto.
        intros [= <-]. auto.
Qed.

Lemma greedy_ok : forall us m,
  NoDup (map value us) ->
  (forall u, In u us -> dict_mem u g = true) ->
  matching_ok g m ->
  (forall u, In u us -> free m u) ->
  exists m', greedy g us m = Ret m' /\ matching_ok g m'.
Proof.
  induction us as [|u us IH]; intros m Hnd Hk Hok Hfree; simpl.
  - eauto.
  - inversion Hnd as [|? ? Hu Hnd']; subst.
    assert (Hm : dict_mem u g = true) by (apply Hk; left; reflexivity).
    apply mem_get in Hm. destruct Hm as [l Hl].
    unfold dict_lookup. rewrite Hl. cbn [bind].
    destruct (greedy_inner_ok u l l m Hl (incl_refl _) Hok) as [Hok' Hnew].
    { apply Hfree. left. reflexivity. }
    apply IH; auto.
    + intros x Hx. apply Hk. right. exact Hx.
    + intros x Hx v u' Hg E. destruct (Hnew v u' Hg) as [H| ->].
      * apply (Hfree x (or_intror Hx) v u' H E).
      * apply Hu. rewrite E. apply in_map. exact Hx.
Qed.

Lemma greedy_start :
  wf g -> exists m, greedy g (dict_iter g) [] = Ret m /\ matching_ok g m.
Proof.
  intros Hwf. apply greedy_ok.
  - apply iter_wf. exact Hwf.
  - intros u Hu. apply mem_vin, in_vin, iter_in. exact Hu.
  - apply matching_ok_nil.
  - intros u _ v u' H. discriminate.
Qed.

End Greedy.

(** ** [BipartiteMatch]: the layering *)

Section Layering.
Context {RT : PyRuntime}.
Variable g : dict (list obj).

Lemma get_fold_set {X} (x : X) l : forall d u,
  dict_get u (fold_left (fun d u0 => dict_set u0 x d) l d) =
  if existsb (fun u0 => py_eq u0 u) l then Some x else dict_get u d.
Proof.
  induction l as [|a l IH]; intros d u; simpl; auto.
  rewrite IH, get_set. case_eq_py a u; simpl.
  - destruct (existsb _ l); reflexivity.
  - reflexivity.
Qed.

Lemma wf_fold_set {X} (x : X) l : forall d,
  wf d -> wf (fold_left (fun d u0 => dict_set u0 x d) l d).
Proof.
  induction l as [|a l IH]; intros d H; simpl; auto using wf_set.
Qed.

Lemma get_pred_init u :
  dict_get u (pred_init g) = if dict_mem u g then Some Unmatched else None.
Proof.
  unfold pred_init. rewrite get_fold_set. simpl.
  destruct (existsb _ (dict_iter g)) eqn:E1; destruct (dict_mem u g) eqn:E2; auto.
  - apply existsb_py_eq, iter_vin, mem_vin in E1. congruence.
  - apply mem_vin, iter_vin, existsb_py_eq in E2. congruence.
Qed.

Lemma wf_pred_init : wf (pred_init g).
Proof. apply wf_fold_set. constructor. Qed.

Lemma matched_in_true m vs u :
  matched_in m vs u = true <->
  exists v u', In v vs /\ dict_get v m = Some u' /\ value u' = value u.
Proof.
  unfold matched_in. rewrite existsb_exists. split.
  - intros (v & Hv & H). destruct (dict_get v m) as [u'|] eqn:E; [|discriminate].
    apply py_eq_true in H. eauto.
  - intros (v & u' & Hv & Hg & E). exists v. rewrite Hg. split; auto.
    apply py_eq_true. exact E.
Qed.

Lemma pred_prune_ok m : forall vs pred,
  wf pred -> NoDup (map value vs) -> injective m ->
  (forall v, In v vs ->
     exists u, dict_get v m = Some u /\ dict_mem u pred = true) ->
  exists pred',
    pred_prune m vs pred = Ret pred' /\ wf pred' /\
    forall u, dict_get u pred' =
              if matched_in m vs u then None else dict_get u pred.
Proof.
  induction vs as [|v vs IH]; intros pred Hwf Hnd Hinj Hall; simpl.
  - eauto.
  - inversion Hnd as [|? ? Hv Hnd']; subst.
    destruct (Hall v (or_introl eq_refl)) as (u0 & Hg & Hm).
    unfold dict_lookup, dict_del. rewrite Hg. cbn [bind]. rewrite Hm. cbn [bind].
    destruct (IH (dict_remove u0 pred)) as (pred' & Hr & Hwf' & Hget);
      auto using wf_remove.
    + intros v' Hv'. destruct (Hall v' (or_intror Hv')) as (u' & Hg' & Hm').
      exists u'. split; auto. rewrite mem_remove by assumption. rewrite Hm'.
      case_eq_py u0 u'; auto. exfalso. apply Hv.
      rewrite (Hinj v v' u0 u' Hg Hg' E). apply in_map. exact Hv'.
    + exists pred'. repeat split; auto. intros u. rewrite Hget.
      change (matched_in m (v :: vs) u)
        with ((match dict_get v m with
               | Some u' => py_eq u' u
               | None => false
               end) || matched_in m vs u).
      rewrite ?Hg. rewrite get_remove by assumption.
      destruct (matched_in m vs u); [rewrite orb_true_r; reflexivity|].
      rewrite orb_false_r. destruct (py_eq u0 u); reflexivity.
Qed.


(** *** Scanning one layer *)

Lemma mem_append v u x (nl : dict (list obj)) :
  dict_mem x (dict_append v u nl) = py_eq v x || dict_mem x nl.
Proof.
  unfold dict_mem at 1. rewrite get_append. unfold dict_mem.
  destruct (py_eq v x); reflexivity.
Qed.

Lemma new_layer_ok_append preds S nl v u :
  new_layer_ok g preds S nl -> dict_mem v preds = false -> In u S ->
  edge g u v ->
  new_layer_ok g preds S (dict_append v u nl).
Proof.
  intros [Hwf Hnl] Hv Hu He. split; [apply wf_append; exact Hwf|].
  intros v' us. rewrite get_append. case_eq_py v v'.
  - intros [= <-]. split; [|split].
    + destruct (dict_get v' nl) as [[|? ?]|]; discriminate.
    + rewrite <- (mem_congr _ _ preds E). exact Hv.
    + intros x Hx.
      destruct (dict_get v' nl) as [l0|] eqn:E0.
      * apply in_app_or in Hx. destruct Hx as [Hx|[<-|[]]].
        -- apply (Hnl v' l0 E0). exact Hx.
        -- split; auto. eapply edge_congr; eauto.
      * destruct Hx as [<-|[]]. split; auto. eapply edge_congr; eauto.
  - apply Hnl.
Qed.

Lemma scan_edges_ok preds S u l : forall vs nl,
  dict_get u g = Some l -> incl vs l -> In u S ->
  new_layer_ok g preds S nl ->
  new_layer_ok g preds S (scan_edges u vs preds nl) /\
  (forall v, dict_mem v nl = true ->
             dict_mem v (scan_edges u vs preds nl) = true) /\
  (forall v, In v vs -> dict_mem v preds = false ->
             dict_mem v (scan_edges u vs preds nl) = true).
Proof.
  induction vs as [|v vs IH]; intros nl Hl Hi Hu Hnl; simpl.
  - split; [exact Hnl|]. split; [auto|]. intros v [].
  - assert (Hi' : incl vs l) by (intros x Hx; apply Hi; right; exact Hx).
    destruct (dict_mem v preds) eqn:Ev.
    + destruct (IH nl Hl Hi' Hu Hnl) as (H1 & H2 & H3).
      split; [exact H1|]. split; [exact H2|].
      intros v' [<-|Hv'] Hp; [congruence | auto].
    + destruct (IH (dict_append v u nl) Hl Hi' Hu) as (H1 & H2 & H3).
      { apply new_layer_ok_append; auto. exists l. split; auto.
        apply in_vin, Hi. left. reflexivity. }
      split; [exact H1|]. split.
      * intros v' Hv'. apply H2. rewrite mem_append, Hv'. apply orb_true_r.
      * intros v' [<-|Hv'] Hp; auto.
        apply H2. rewrite mem_append, py_eq_refl. reflexivity.
Qed.

Lemma scan_layer_ok preds S : forall layer nl,
  (forall u, In u layer -> dict_mem u g = true) -> incl layer S ->
  new_layer_ok g preds S nl ->
  exists nl',
    scan_layer g layer preds nl = Ret nl' /\
    new_layer_ok g preds S nl' /\
    (forall v, dict_mem v nl = true -> dict_mem v nl' = true) /\
    (forall u l v, In u layer -> dict_get u g = Some l -> In v l ->
       dict_mem v preds = true \/ dict_mem v nl' = true).
Proof.
  induction layer as [|u layer IH]; intros nl Hk Hi Hnl; simpl.
  - exists nl. split; [reflexivity|]. split; [exact Hnl|]. split; [auto|].
    intros u l v [].
  - assert (Hm : dict_mem u g = true) by (apply Hk; left; reflexivity).
    apply mem_get in Hm. destruct Hm as [l Hl].
    unfold dict_lookup. rewrite Hl. cbn [bind].
    destruct (scan_edges_ok preds S u l l nl Hl (incl_refl _)) as (H1 & H2 & H3); auto.
    { apply Hi. left. reflexivity. }
    destruct (IH (scan_edges u l preds nl)) as (nl' & Hr & Hok & Hmono & Hcov); auto.
    { intros x Hx. apply Hk. right. exact Hx. }
    { intros x Hx. apply Hi. right. exact Hx. }
    exists nl'. split; [exact Hr|]. split; [exact Hok|]. split; [auto|].
    intros u0 l0 v [<-|Hu0] Hl0 Hv.
    + rewrite Hl in Hl0. inversion Hl0; subst l0.
      destruct (dict_mem v preds) eqn:Ev; auto.
    + eapply Hcov; eauto.
Qed.


(** *** Absorbing the new layer *)

Lemma absorb_spec m nl : forall vs L,
  (forall v, In v vs -> dict_mem v nl = true) ->
  exists L',
    absorb m nl vs L = Ret L' /\
    (forall x, dict_get x (l_preds L') =
               if existsb (fun v => py_eq v x) vs then dict_get x nl
               else dict_get x (l_preds L)) /\
    (forall u, dict_get u (l_pred L') = dict_get u (l_pred L) \/
       exists v u', In v vs /\ dict_get v m = Some u' /\
                    value u' = value u /\
                    dict_get u (l_pred L') = Some (Via v)) /\
    (forall v u, In v vs -> dict_get v m = Some u ->
       exists v' u', In v' vs /\ dict_get v' m = Some u' /\
                     value u' = value u /\
                     dict_get u (l_pred L') = Some (Via v')) /\
    (forall u, In u (l_layer L') <->
               In u (l_layer L) \/ exists v, In v vs /\ dict_get v m = Some u) /\
    (forall v, In v (l_unmatched L') <->
               In v (l_unmatched L) \/ (In v vs /\ dict_mem v m = false)) /\
    (wf (l_pred L) -> wf (l_pred L')) /\
    (wf (l_preds L) -> wf (l_preds L')).
Proof.
  induction vs as [|v vs IH]; intros L Hall.
  - exists L. split; [reflexivity|]. split; [intros x; reflexivity|].
    split; [intros u; left; reflexivity|]. split; [intros v u []|].
    split; [intros u; split; [auto | intros [H|(v & [] & _)]; exact H]|].
    split; [intros v; split; [auto | intros [H|([] & _)]; exact H]|].
    split; auto.
  - assert (Hv : dict_mem v nl = true) by (apply Hall; left; reflexivity).
    apply mem_get in Hv. destruct Hv as [us Hus].
    assert (Hall' : forall v', In v' vs -> dict_mem v' nl = true)
      by (intros v' Hv'; apply Hall; right; exact Hv').
    cbn [absorb]. unfold dict_lookup. rewrite Hus. cbn [bind].
    destruct (dict_get v m) as [u0|] eqn:Em.
    + destruct (IH (mkLayering (dict_set u0 (Via v) (l_pred L))
                               (dict_set v us (l_preds L))
                               (l_layer L ++ [u0]) (l_unmatched L)) Hall')
        as (L' & Hr & Hpreds & Hpred & Hnew & Hlayer & Hun & Hw1 & Hw2).
      cbn [l_pred l_preds l_layer l_unmatched] in *.
      exists L'. split; [exact Hr|]. repeat split.
      * intros x. rewrite Hpreds, get_set. cbn [existsb].
        case_eq_py v x; cbn [orb]; auto.
        destruct (existsb _ vs); auto.
        rewrite <- (get_congr _ _ nl E). auto.
      * intros u. destruct (Hpred u) as [H|(v1 & u1 & H1 & H2 & H3 & H4)].
        -- rewrite get_set in H. case_eq_py u0 u.
           ++ right. exists v, u0. repeat split; auto. left. reflexivity.
           ++ left. exact H.
        -- right. exists v1, u1. repeat split; auto. right. exact H1.
      * intros v1 u [<-|H1] Hg.
        -- rewrite Em in Hg. inversion Hg; subst u0.
           destruct (Hpred u) as [H|(v1 & u1 & H1 & H2 & H3 & H4)].
           ++ rewrite get_set, py_eq_refl in H.
              exists v, u. repeat split; auto. left. reflexivity.
           ++ exists v1, u1. repeat split; auto. right. exact H1.
        -- destruct (Hnew v1 u H1 Hg) as (v2 & u2 & H2 & H3 & H4 & H5).
           exists v2, u2. repeat split; auto. right. exact H2.
      * intros H. apply Hlayer in H. destruct H as [H|(v1 & H1 & H2)].
        -- apply in_app_or in H. destruct H as [H|[<-|[]]]; auto.
           right. exists v. split; auto. left. reflexivity.
        -- right. exists v1. split; auto. right. exact H1.
      * intros H. apply Hlayer. destruct H as [H|(v1 & [<-|H1] & H2)].
        -- left. apply in_or_app. left. exact H.
        -- left. apply in_or_app. right. rewrite Em in H2. inversion H2.
           left. reflexivity.
        -- right. exists v1. split; auto.
      * intros H. apply Hun in H. destruct H as [H|[H1 H2]]; auto.
        right. split; auto. right. exact H1.
      * intros H. apply Hun. destruct H as [H|[[<-|H1] H2]]; auto.
        unfold dict_mem in H2. rewrite Em in H2. discriminate.
      * intros H. apply Hw1, wf_set, H.
      * intros H. apply Hw2, wf_set, H.
    + destruct (IH (mkLayering (l_pred L) (dict_set v us (l_preds L))
                               (l_layer L) (l_unmatched L ++ [v])) Hall')
        as (L' & Hr & Hpreds & Hpred & Hnew & Hlayer & Hun & Hw1 & Hw2).
      cbn [l_pred l_preds l_layer l_unmatched] in *.
      exists L'. split; [exact Hr|]. repeat split.
      * intros x. rewrite Hpreds, get_set. cbn [existsb].
        case_eq_py v x; cbn [orb]; auto.
        destruct (existsb _ vs); auto.
        rewrite <- (get_congr _ _ nl E). auto.
      * intros u. destruct (Hpred u) as [H|(v1 & u1 & H1 & H2 & H3 & H4)]; auto.
        right. exists v1, u1. repeat split; auto. right. exact H1.
      * intros v1 u [<-|H1] Hg; [congruence|].
        destruct (Hnew v1 u H1 Hg) as (v2 & u2 & H2 & H3 & H4 & H5).
        exists v2, u2. repeat split; auto. right. exact H2.
      * intros H. apply Hlayer in H. destruct H as [H|(v1 & H1 & H2)]; auto.
        right. exists v1. split; auto. right. exact H1.
      * intros H. apply Hlayer. destruct H as [H|(v1 & [<-|H1] & H2)]; auto.
        -- congruence.
        -- right. exists v1. split; auto.
      * intros H. apply Hun in H. destruct H as [H|[H1 H2]].
        -- apply in_app_or in H. destruct H as [H|[<-|[]]]; auto.
           right. split; [left; reflexivity|]. apply mem_false_get. exact Em.
        -- right. split; auto. right. exact H1.
      * intros H. apply Hun. destruct H as [H|[[<-|H1] H2]]; auto.
        -- left. apply in_or_app. left. exact H.
        -- left. apply in_or_app. right. left. reflexivity.
      * exact Hw1.
      * intros H. apply Hw2, wf_set, H.
Qed.


(** *** The chains of first predecessors *)

Lemma good_u_mono pred preds pred' preds' :
  (forall u x, dict_get u pred = Some x -> dict_get u pred' = Some x) ->
  (forall v x, dict_get v preds = Some x -> dict_get v preds' = Some x) ->
  forall n u, good_u pred preds n u -> good_u pred' preds' n u.
Proof.
  intros H1 H2. induction n as [|n IH]; intros u; simpl.
  - apply H1.
  - intros (w & u' & rest & Hu & Hw & Hg).
    exists w, u', rest. repeat split; auto.
Qed.

Lemma good_v_mono pred preds pred' preds' :
  (forall u x, dict_get u pred = Some x -> dict_get u pred' = Some x) ->
  (forall v x, dict_get v preds = Some x -> dict_get v preds' = Some x) ->
  forall n v, good_v pred preds n v -> good_v pred' preds' n v.
Proof.
  intros H1 H2 n v (u & rest & Hv & Hu). exists u, rest. split; auto.
  eapply good_u_mono; eauto.
Qed.

(** *** The measure of the layering loop *)

Lemma filter_length_le {A} (f f' : A -> bool) (l : list A) :
  (forall x, f' x = true -> f x = true) ->
  length (filter f' l) <= length (filter f l).
Proof.
  intros H. induction l as [|a l IH]; simpl; auto.
  destruct (f' a) eqn:E'.
  - rewrite (H a E'). simpl. lia.
  - destruct (f a); simpl; lia.
Qed.

Lemma filter_length_lt {A} (f f' : A -> bool) (l : list A) v :
  (forall x, f' x = true -> f x = true) ->
  In v l -> f v = true -> f' v = false ->
  length (filter f' l) < length (filter f l).
Proof.
  intros H. induction l as [|a l IH]; simpl; [tauto|].
  intros [->|Hv] Hf Hf'.
  - rewrite Hf, Hf'. simpl. pose proof (filter_length_le f f' l H). lia.
  - specialize (IH Hv Hf Hf'). destruct (f' a) eqn:E'.
    + rewrite (H a E'). simpl. lia.
    + destruct (f a); simpl; lia.
Qed.

Lemma unseen_le preds preds' :
  (forall v, dict_mem v preds = true -> dict_mem v preds' = true) ->
  forall g0, unseen g0 preds' <= unseen g0 preds.
Proof.
  intros H g0. induction g0 as [|[k l] g0 IH]; simpl; auto.
  assert (length (filter (fun v => negb (dict_mem v preds')) l) <=
          length (filter (fun v => negb (dict_mem v preds)) l)); [|lia].
  apply filter_length_le. intros x Hx. apply negb_true_iff in Hx.
  apply negb_true_iff. destruct (dict_mem x preds) eqn:E; auto.
  rewrite (H x E) in Hx. discriminate.
Qed.

Lemma unseen_lt preds preds' k l v :
  (forall v, dict_mem v preds = true -> dict_mem v preds' = true) ->
  forall g0, In (k, l) g0 -> In v l ->
  dict_mem v preds = false -> dict_mem v preds' = true ->
  unseen g0 preds' < unseen g0 preds.
Proof.
  intros H g0. induction g0 as [|[k0 l0] g0 IH]; simpl; [tauto|].
  assert (Hmono : forall x, negb (dict_mem x preds') = true ->
                            negb (dict_mem x preds) = true).
  { intros x Hx. apply negb_true_iff in Hx.
    apply negb_true_iff. destruct (dict_mem x preds) eqn:E; auto.
    rewrite (H x E) in Hx. discriminate. }
  intros [[= -> ->]|Hin] Hv H1 H2.
  - pose proof (unseen_le preds preds' H g0).
    assert (length (filter (fun v => negb (dict_mem v preds')) l) <
            length (filter (fun v => negb (dict_mem v preds)) l)); [|lia].
    apply (filter_length_lt _ _ l v Hmono Hv).
    + rewrite H1. reflexivity.
    + rewrite H2. reflexivity.
  - specialize (IH Hin Hv H1 H2).
    pose proof (filter_length_le _ _ l0 Hmono). lia.
Qed.

Lemma unseen_nil g0 : unseen g0 [] = edge_count g0.
Proof.
  induction g0 as [|[k l] g0 IH]; simpl; auto.
  rewrite IH. f_equal. f_equal.
  induction l as [|a l IHl]; simpl; auto. rewrite IHl. reflexivity.
Qed.

End Layering.

(** *** One round of the layering loop *)

Section LayeringRound.
Context {RT : PyRuntime}.
Variable g : dict (list obj).

Lemma mem_true_get {X} k (d : dict X) x : dict_get k d = Some x -> dict_mem k d = true.
Proof. intros H. apply mem_get. eauto. Qed.

Lemma layer_round m L :
  matching_ok g m -> layer_inv g m L -> l_unmatched L = [] ->
  exists nl L',
    scan_layer g (l_layer L) (l_preds L) [] = Ret nl /\
    absorb m nl (dict_iter nl)
      (mkLayering (l_pred L) (l_preds L) [] (l_unmatched L)) = Ret L' /\
    layer_inv g m L' /\
    (nl = [] -> l_layer L' = []) /\
    (nl <> [] -> unseen g (l_preds L') < unseen g (l_preds L)).
Proof.
  intros Hm HL Hun0. destruct Hm as (Hmwf & Hmedge & Hminj).
  destruct HL as [Iwfp Iwfps Ikeys Ilay Ifree Ipok Ivia Iback Iclosed Ireach Iunm
                  Ipsok Igu Igv].
  destruct (scan_layer_ok g (l_preds L) (l_layer L) (l_layer L) [])
    as (nl & Hscan & [Hnlwf Hnl] & _ & Hcover).
  { intros u Hu. apply Ikeys, Ilay, Hu. }
  { apply incl_refl. }
  { split; [constructor|]. intros v us H. discriminate. }
  destruct (absorb_spec m nl (dict_iter nl)
              (mkLayering (l_pred L) (l_preds L) [] (l_unmatched L)))
    as (L' & Habs & Hpreds & Hpred & Hnew & Hlayer & Hunm & Hw1 & Hw2).
  { intros v Hv. apply mem_vin, in_vin, iter_in. exact Hv. }
  cbn [l_pred l_preds l_layer l_unmatched] in *.
  exists nl, L'. split; [exact Hscan|]. split; [exact Habs|].
  (* closed forms *)
  assert (Hpreds' : forall x, dict_get x (l_preds L') =
            match dict_get x nl with
            | Some us => Some us
            | None => dict_get x (l_preds L)
            end).
  { intros x. rewrite Hpreds.
    destruct (existsb (fun v => py_eq v x) (dict_iter nl)) eqn:E.
    - apply existsb_py_eq, iter_vin, mem_vin, mem_get in E.
      destruct E as [us E]. rewrite E. reflexivity.
    - destruct (dict_get x nl) eqn:E'; auto.
      apply mem_true_get, mem_vin, iter_vin, existsb_py_eq in E'. congruence. }
  assert (Hmem' : forall x, dict_mem x (l_preds L') =
                            dict_mem x nl || dict_mem x (l_preds L)).
  { intros x. unfold dict_mem. rewrite Hpreds'.
    destruct (dict_get x nl); reflexivity. }
  assert (Hextv : forall v x, dict_get v (l_preds L) = Some x ->
                              dict_get v (l_preds L') = Some x).
  { intros v x Hv. rewrite Hpreds'. destruct (dict_get v nl) eqn:E; auto.
    destruct (Hnl v l E) as (_ & Hf & _).
    apply mem_true_get in Hv. congruence. }
  assert (Hfresh : forall v u' u, In v (dict_iter nl) ->
            dict_get v m = Some u' -> value u' = value u ->
            dict_get u (l_pred L) = None).
  { intros v u' u Hv Hg E.
    assert (Hvf : dict_mem v (l_preds L) = false).
    { apply iter_in, in_vin, mem_vin, mem_get in Hv. destruct Hv as [us Hus].
      apply (Hnl v us Hus). }
    destruct (dict_get u (l_pred L)) as [[|w]|] eqn:Eu; auto; exfalso.
    - apply (proj1 (Ipok u) Eu v u' Hg E).
    - destruct (proj2 (Ipok u) w Eu) as (u1 & Hw & E1).
      assert (Ew : value w = value v).
      { apply (Hminj w v u1 u' Hw Hg). congruence. }
      pose proof (Ivia u w Eu) as Hwm.
      rewrite (mem_congr _ _ (l_preds L) Ew) in Hwm. congruence. }
  assert (Hextu : forall u x, dict_get u (l_pred L) = Some x ->
                              dict_get u (l_pred L') = Some x).
  { intros u x Hu. destruct (Hpred u) as [H|(v & u' & H1 & H2 & H3 & H4)].
    - rewrite H. exact Hu.
    - rewrite (Hfresh v u' u H1 H2 H3) in Hu. discriminate. }
  assert (Hmemu : forall u, dict_mem u (l_pred L) = true ->
                            dict_mem u (l_pred L') = true).
  { intros u Hu. apply mem_get in Hu. destruct Hu as [x Hx].
    eapply mem_true_get. apply Hextu. exact Hx. }
  assert (Hmemv : forall v, dict_mem v (l_preds L) = true ->
                            dict_mem v (l_preds L') = true).
  { intros v Hv. rewrite Hmem', Hv. apply orb_true_r. }
  assert (Hnlin : forall v, dict_mem v nl = true ->
            exists v0, In v0 (dict_iter nl) /\ value v0 = value v).
  { intros v Hv. apply mem_vin, iter_vin, vin_in in Hv. exact Hv. }
  split; [|split].
  - constructor.
    + (* wf pred *) apply Hw1, Iwfp.
    + apply Hw2, Iwfps.
    + (* pred keys *)
      intros u Hu. destruct (Hpred u) as [H|(v & u' & H1 & H2 & H3 & H4)].
      * apply Ikeys. unfold dict_mem in *. rewrite <- H. exact Hu.
      * rewrite <- (mem_congr _ _ g H3). eapply edge_mem. apply (Hmedge v u' H2).
    + (* layer *)
      intros u Hu. apply Hlayer in Hu. destruct Hu as [[]|(v & Hv & Hg)].
      destruct (Hnew v u Hv Hg) as (v' & u' & _ & _ & _ & H).
      eapply mem_true_get. exact H.
    + (* free *)
      intros u Hu Hf. apply Hextu. apply Ifree; auto.
    + (* pred_ok *)
      intros u. split.
      * intros Hu. destruct (Hpred u) as [H|(v & u' & H1 & H2 & H3 & H4)].
        -- rewrite H in Hu. apply (proj1 (Ipok u) Hu).
        -- congruence.
      * intros w Hu. destruct (Hpred u) as [H|(v & u' & H1 & H2 & H3 & H4)].
        -- rewrite H in Hu. apply (proj2 (Ipok u) w Hu).
        -- rewrite H4 in Hu. inversion Hu; subst w. eauto.
    + (* via *)
      intros u w Hu. destruct (Hpred u) as [H|(v & u' & H1 & H2 & H3 & H4)].
      * rewrite H in Hu. apply Hmemv. apply (Ivia u w Hu).
      * rewrite H4 in Hu. inversion Hu; subst w.
        rewrite Hmem'. apply orb_true_iff. left.
        apply mem_vin, in_vin, iter_in. exact H1.
    + (* back *)
      intros v u Hg Hv. rewrite Hmem' in Hv. apply orb_true_iff in Hv.
      destruct Hv as [Hv|Hv].
      * destruct (Hnlin v Hv) as (v0 & Hv0 & E).
        rewrite <- (get_congr _ _ m E) in Hg.
        destruct (Hnew v0 u Hv0 Hg) as (v' & u' & _ & _ & _ & H).
        eapply mem_true_get. exact H.
      * apply Hmemu. apply (Iback v u Hg Hv).
    + (* closed *)
      intros u l v Hu Hnot Hl Hv.
      destruct (dict_mem u (l_pred L)) eqn:Eold.
      * destruct (in_dec string_dec (value u) (map value (l_layer L))) as [Hin|Hout].
        -- apply vin_in in Hin. destruct Hin as (u0 & Hu0 & E).
           rewrite <- (get_congr _ _ g E) in Hl.
           rewrite Hmem'. destruct (Hcover u0 l v Hu0 Hl Hv) as [H|H];
             rewrite H; auto using orb_true_r.
        -- apply Hmemv. apply (Iclosed u l v Eold Hout Hl Hv).
      * exfalso. destruct (Hpred u) as [H|(v0 & u' & H1 & H2 & H3 & H4)].
        -- unfold dict_mem in Hu, Eold. rewrite H in Hu. congruence.
        -- apply Hnot. apply (vin_congr u' u _ H3). apply in_vin.
           apply Hlayer. right. eauto.
    + (* reached *)
      intros v Hv. rewrite Hmem' in Hv. apply orb_true_iff in Hv.
      destruct Hv as [Hv|Hv].
      * destruct (Hnlin v Hv) as (v0 & Hv0 & E).
        destruct (dict_mem v m) eqn:Em; auto. right.
        apply (vin_congr v0 v _ E). apply in_vin. apply Hunm. right.
        split; auto. rewrite (mem_congr _ _ m E). exact Em.
      * destruct (Ireach v Hv) as [H|H]; auto.
        rewrite Hun0 in H. destruct H.
    + (* unmatched *)
      intros v Hv. apply Hunm in Hv. destruct Hv as [Hv|[Hv Hm]].
      * rewrite Hun0 in Hv. destruct Hv.
      * split; auto. rewrite Hmem'. apply orb_true_iff. left.
        apply mem_vin, in_vin, iter_in. exact Hv.
    + (* preds_ok *)
      intros v us u Hv Hu. rewrite Hpreds' in Hv.
      destruct (dict_get v nl) as [us'|] eqn:E.
      * inversion Hv; subst us'. apply (Hnl v us E). exact Hu.
      * apply (Ipsok v us u Hv Hu).
    + (* good_u *)
      intros u Hu. destruct (dict_get u (l_pred L)) as [x|] eqn:Eold.
      * destruct (Igu u (mem_true_get _ _ _ Eold)) as [n Hn].
        exists n. eapply good_u_mono; eauto.
      * destruct (Hpred u) as [H|(v & u' & H1 & H2 & H3 & H4)].
        { unfold dict_mem in Hu. rewrite H, Eold in Hu. discriminate. }
        apply iter_in, in_vin, mem_vin, mem_get in H1. destruct H1 as [us Hus].
        destruct (Hnl v us Hus) as (Hne & _ & Hall).
        destruct us as [|u0 rest]; [congruence|].
        destruct (Hall u0 (or_introl eq_refl)) as [Hu0 _].
        destruct (Igu u0 (Ilay u0 Hu0)) as [n Hn].
        exists (S n). simpl. exists v, u0, rest. repeat split; auto.
        -- rewrite Hpreds', Hus. reflexivity.
        -- eapply good_u_mono; eauto.
    + (* good_v *)
      intros v Hv. destruct (dict_get v nl) as [us|] eqn:Enl.
      * destruct (Hnl v us Enl) as (Hne & _ & Hall).
        destruct us as [|u0 rest]; [congruence|].
        destruct (Hall u0 (or_introl eq_refl)) as [Hu0 _].
        destruct (Igu u0 (Ilay u0 Hu0)) as [n Hn].
        exists n, u0, rest. split.
        -- rewrite Hpreds', Enl. reflexivity.
        -- eapply good_u_mono; eauto.
      * rewrite Hmem' in Hv. unfold dict_mem at 1 in Hv. rewrite Enl in Hv.
        simpl in Hv. destruct (Igv v Hv) as [n Hn].
        exists n. eapply good_v_mono; eauto.
  - intros ->.
    assert (E : dict_iter (@nil (obj * list obj)) = []).
    { apply length_zero_iff_nil. rewrite iter_length. reflexivity. }
    rewrite E in Habs. simpl in Habs. inversion Habs. reflexivity.
  - intros Hne. destruct nl as [|[v0 us0] nl0] eqn:Enl; [congruence|].
    rewrite <- Enl in *.
    assert (Hg0 : dict_get v0 nl = Some us0).
    { apply in_get; auto. rewrite Enl. left. reflexivity. }
    destruct (Hnl v0 us0 Hg0) as (Hne0 & Hf0 & Hall).
    destruct us0 as [|x rest]; [congruence|].
    destruct (Hall x (or_introl eq_refl)) as [_ (l & Hl & Hv0)].
    apply vin_in in Hv0. destruct Hv0 as (v1 & Hv1 & E1).
    apply get_in in Hl. destruct Hl as (k' & Hk' & _).
    apply (unseen_lt (l_preds L) (l_preds L') k' l v1 Hmemv g Hk' Hv1).
    + rewrite (mem_congr _ _ _ E1). exact Hf0.
    + rewrite Hmem', (mem_congr _ _ nl E1), (mem_true_get _ _ _ Hg0). reflexivity.
Qed.


Lemma layering_loop_stop fuel m L :
  l_layer L = [] \/ l_unmatched L <> [] -> layering_loop fuel g m L = Ret L.
Proof.
  intros H. destruct fuel; simpl;
    destruct (l_layer L); destruct (l_unmatched L); auto;
    destruct H; congruence.
Qed.

Lemma layering_loop_ok m :
  matching_ok g m ->
  forall fuel L,
    layer_inv g m L -> unseen g (l_preds L) < fuel ->
    exists L',
      layering_loop fuel g m L = Ret L' /\ layer_inv g m L' /\
      (l_layer L' = [] \/ l_unmatched L' <> []).
Proof.
  intros Hm. induction fuel as [|f IH]; intros L HL Hf; [lia|].
  destruct (l_layer L) as [|u0 rest] eqn:El.
  { exists L. split; [apply layering_loop_stop; auto|]. split; auto. }
  destruct (l_unmatched L) as [|v0 rest'] eqn:Eu.
  2:{ assert (Hne : l_unmatched L <> []) by (rewrite Eu; discriminate).
      exists L. split; [apply layering_loop_stop; auto|]. split; auto. }
  destruct (layer_round m L Hm HL Eu) as (nl & L' & Hs & Ha & HL' & Hnil & Hlt).
  simpl. rewrite El, Eu. rewrite El in Hs. rewrite Eu in Ha.
  rewrite Hs. cbn [bind]. rewrite Ha. cbn [bind].
  destruct nl as [|e nl0] eqn:Enl.
  - exists L'. split; [apply layering_loop_stop; auto|]. split; auto.
  - apply IH; auto. assert (unseen g (l_preds L') < unseen g (l_preds L)); [|lia].
    apply Hlt. discriminate.
Qed.

Lemma layer_phase_ok m :
  wf g -> matching_ok g m ->
  exists L,
    layer_phase g m = Ret L /\ layer_inv g m L /\
    (l_layer L = [] \/ l_unmatched L <> []).
Proof.
  intros Hwf Hm. pose proof Hm as (Hmwf & Hmedge & Hminj).
  unfold layer_phase.
  destruct (pred_prune_ok m (dict_iter m) (pred_init g)) as (pred0 & Hp & Hwf0 & Hget);
    auto using wf_pred_init, iter_wf.
  { intros v Hv. apply iter_in, in_vin, mem_vin, mem_get in Hv.
    destruct Hv as [u Hu]. exists u. split; auto.
    unfold dict_mem. rewrite get_pred_init.
    rewrite (edge_mem g u v (Hmedge v u Hu)). reflexivity. }
  rewrite Hp. cbn [bind].
  assert (Hmatched : forall u, matched_in m (dict_iter m) u = false <-> free m u).
  { intros u. split.
    - intros H v u' Hg E.
      assert (matched_in m (dict_iter m) u = true); [|congruence].
      apply matched_in_true. apply get_in in Hg. destruct Hg as (k' & Hin & Ek).
      exists k', u'. repeat split; auto.
      + apply iter_in. eapply in_keys. exact Hin.
      + apply in_get; auto.
    - intros H. destruct (matched_in m (dict_iter m) u) eqn:E; auto.
      apply matched_in_true in E. destruct E as (v & u' & _ & Hg & E).
      exfalso. apply (H v u' Hg E). }
  assert (Hget0 : forall u x, dict_get u pred0 = Some x ->
            x = Unmatched /\ dict_mem u g = true /\ free m u).
  { intros u x. rewrite Hget, get_pred_init.
    destruct (matched_in m (dict_iter m) u) eqn:E; [discriminate|].
    destruct (dict_mem u g); [|discriminate].
    intros [= <-]. repeat split. apply Hmatched. exact E. }
  apply layering_loop_ok; auto.
  - constructor; cbn [l_pred l_preds l_layer l_unmatched].
    + exact Hwf0.
    + constructor.
    + intros u Hu. apply mem_get in Hu. destruct Hu as [x Hx].
      apply (Hget0 u x Hx).
    + intros u Hu. apply mem_vin, in_vin, iter_in. exact Hu.
    + intros u Hu Hf. rewrite Hget, get_pred_init, Hu.
      rewrite (proj2 (Hmatched u) Hf). reflexivity.
    + intros u. split.
      * intros Hu. apply (Hget0 u _ Hu).
      * intros w Hu. destruct (Hget0 u _ Hu) as [H _]. discriminate.
    + intros u w Hu. destruct (Hget0 u _ Hu) as [H _]. discriminate.
    + intros v u _ H. discriminate.
    + intros u l v Hu Hnot. exfalso. apply Hnot. apply iter_vin, mem_vin, Hu.
    + intros v H. discriminate.
    + intros v [].
    + intros v us u H. discriminate.
    + intros u Hu. exists 0. simpl. apply mem_get in Hu. destruct Hu as [x Hx].
      destruct (Hget0 u x Hx) as [-> _]. exact Hx.
    + intros v H. discriminate.
  - cbn [l_preds]. rewrite unseen_nil. lia.
Qed.

End LayeringRound.

(** ** [BipartiteMatch]: the augmentation *)

Section Augment.
Context {RT : PyRuntime}.
Variable g : dict (list obj).

Lemma sub_dict_refl {X} (d : dict X) : sub_dict d d.
Proof. intros k x H. exact H. Qed.

Lemma sub_dict_trans {X} (a b c : dict X) :
  sub_dict a b -> sub_dict b c -> sub_dict a c.
Proof. intros H1 H2 k x H. apply H2, H1, H. Qed.

Lemma sub_dict_remove {X} k (d : dict X) : wf d -> sub_dict (dict_remove k d) d.
Proof.
  intros Hwf k' x. rewrite get_remove by assumption.
  destruct (py_eq k k'); [discriminate | auto].
Qed.

Lemma sub_dict_mem {X} (d' d : dict X) k :
  sub_dict d' d -> dict_mem k d' = true -> dict_mem k d = true.
Proof.
  intros H Hm. apply mem_get in Hm. destruct Hm as [x Hx].
  eapply mem_true_get. apply H. exact Hx.
Qed.

Lemma pred_ok_sub m pred pred' :
  sub_dict pred' pred -> pred_ok m pred -> pred_ok m pred'.
Proof.
  intros Hs Hp u. split.
  - intros H. apply (proj1 (Hp u)). apply Hs. exact H.
  - intros w H. apply (proj2 (Hp u) w). apply Hs. exact H.
Qed.

Lemma preds_ok_sub preds preds' :
  sub_dict preds' preds -> preds_ok g preds -> preds_ok g preds'.
Proof. intros Hs Hp v us u H. apply (Hp v us u). apply Hs. exact H. Qed.

Lemma no_pred_to_sub v pred pred' :
  sub_dict pred' pred -> no_pred_to v pred -> no_pred_to v pred'.
Proof. intros Hs Hn x w H. apply (Hn x w). apply Hs. exact H. Qed.

(** Setting [matching[v] = u] for a [u] that has left [pred]. *)
Lemma pred_ok_set m pred v u :
  pred_ok m pred -> no_pred_to v pred -> dict_mem u pred = false ->
  pred_ok (dict_set v u m) pred.
Proof.
  intros Hp Hn Hu x. split.
  - intros Hx v' u'. rewrite get_set. case_eq_py v v'.
    + intros [= <-] E'. apply mem_true_get in Hx.
      rewrite (mem_congr _ _ pred E') in Hu. congruence.
    + apply (proj1 (Hp x) Hx).
  - intros w Hx. destruct (proj2 (Hp x) w Hx) as (u' & Hw & E).
    exists u'. split; auto. rewrite get_set.
    rewrite py_eq_false_of; auto. intros E'. apply (Hn x w Hx). congruence.
Qed.


Lemma rec_post_refl v s : rec_inv g s -> rec_post g v s false s.
Proof.
  intros H. split; [exact H|]. split; [apply sub_dict_refl|].
  split; [apply sub_dict_refl|]. split; [lia|]. split; auto. discriminate.
Qed.

Lemma rec_post_after v s s2 b s' :
  matching s2 = matching s ->
  sub_dict (pred s2) (pred s) -> sub_dict (preds s2) (preds s) ->
  length (preds s2) <= length (preds s) ->
  rec_post g v s2 b s' -> rec_post g v s b s'.
Proof.
  intros Em Hp Hps Hl (Hinv & Hsp & Hsps & Hlen & Hf & Ht).
  split; [exact Hinv|]. split; [eapply sub_dict_trans; eauto|].
  split; [eapply sub_dict_trans; eauto|]. split; [lia|]. split.
  - intros E. rewrite (Hf E). exact Em.
  - intros E. destruct (Ht E) as ((u & Hu & Hu1 & Hu2) & Hent & Hmem & Hlength).
    rewrite Em in Hent, Hmem, Hlength. repeat split; auto.
    + exists u. repeat split; auto. eapply sub_dict_mem; eauto.
    + intros v' u' H. destruct (Hent v' u' H) as [H1|[H1 H2]]; auto.
      right. split; auto. eapply sub_dict_mem; eauto.
Qed.

Lemma recurse_loop_ok fuel rec v :
  (forall w s, rec_inv g s -> no_pred_to w (pred s) ->
     length (preds s) < fuel ->
     exists b s', rec w s = Ret (b, s') /\ rec_post g w s b s') ->
  forall us s,
    rec_inv g s -> no_pred_to v (pred s) -> length (preds s) < fuel ->
    (forall u, In u us -> edge g u v) ->
    exists b s', recurse_loop rec v us s = Ret (b, s') /\ rec_post g v s b s'.
Proof.
  intros Hrec. induction us as [|u us IH]; intros s Hinv Hnp Hfuel Hedges.
  - exists false, s. split; [reflexivity | apply rec_post_refl; exact Hinv].
  - assert (Hedges' : forall u', In u' us -> edge g u' v)
      by (intros u' Hu'; apply Hedges; right; exact Hu').
    cbn [recurse_loop].
    destruct (dict_get u (pred s)) as [pu|] eqn:Eu; [|apply IH; auto].
    pose proof Hinv as [Hm Hwp Hwps Hpok Hpsok].
    assert (Hsub1 : sub_dict (dict_remove u (pred s)) (pred s))
      by (apply sub_dict_remove; exact Hwp).
    assert (Hu_out : dict_mem u (dict_remove u (pred s)) = false).
    { rewrite mem_remove by assumption. rewrite py_eq_refl. reflexivity. }
    destruct pu as [|w].
    + (* the path ends at a free vertex *)
      eexists true, _. split; [reflexivity|].
      unfold rec_post. cbn [matching pred preds].
      split; [|split; [exact Hsub1|]; split; [apply sub_dict_refl|];
               split; [lia|]; split; [discriminate|]].
      * constructor; cbn [matching pred preds]; auto.
        -- apply matching_ok_set; auto.
           ++ apply Hedges. left. reflexivity.
           ++ intros v' u' Hg E. exfalso. apply (proj1 (Hpok u) Eu v' u' Hg E).
        -- apply wf_remove. exact Hwp.
        -- apply pred_ok_set; auto.
           ++ eapply pred_ok_sub; eauto.
           ++ eapply no_pred_to_sub; eauto.
      * intros _. cbn [matching pred preds]. repeat split.
        -- exists u. rewrite get_set, py_eq_refl. repeat split; auto.
           eapply mem_true_get. exact Eu.
        -- intros v' u'. rewrite get_set. case_eq_py v v'; auto.
           intros [= <-]. right. split; auto. eapply mem_true_get. exact Eu.
        -- intros x. apply mem_set.
        -- apply length_set.
    + (* the path goes on through [w] *)
      set (s1 := mkState (matching s) (dict_remove u (pred s)) (preds s)).
      assert (Hinv1 : rec_inv g s1).
      { constructor; cbn [s1 matching pred preds]; auto.
        - apply wf_remove. exact Hwp.
        - eapply pred_ok_sub; eauto. }
      destruct (proj2 (Hpok u) w Eu) as (u0 & Hw & E0).
      assert (Hnpw : no_pred_to w (pred s1)).
      { intros x w' Hx E'. cbn [s1 pred] in Hx.
        pose proof (Hsub1 _ _ Hx) as Hx'.
        destruct (proj2 (Hpok x) w' Hx') as (u1 & Hw' & E1).
        rewrite (get_congr _ _ _ E') in Hw'. rewrite Hw in Hw'.
        inversion Hw'; subst u1.
        rewrite get_remove in Hx by assumption.
        rewrite py_eq_true_of in Hx by congruence. discriminate. }
      destruct (Hrec w s1 Hinv1 Hnpw Hfuel) as (b1 & s2 & Hr & Hpost).
      rewrite Hr. cbn [bind fst snd].
      pose proof Hpost as (Hinv2 & Hsp & Hsps & Hlen & Hf & Ht).
      cbn [s1 matching pred preds] in Hsp, Hsps, Hlen, Hf, Ht.
      destruct b1.
      * destruct (Ht eq_refl) as ((un & Hun & Hun1 & Hun2) & Hent & Hmem & Hlength).
        pose proof Hinv2 as [Hm2 Hwp2 Hwps2 Hpok2 Hpsok2].
        assert (Hwv : value w <> value v) by (apply (Hnp u w Eu)).
        assert (Hu2 : dict_mem u (pred s2) = false).
        { destruct (dict_mem u (pred s2)) eqn:E; auto.
          rewrite (sub_dict_mem _ _ _ Hsp E) in Hu_out. discriminate. }
        assert (Hwm : dict_mem w (matching s) = true)
          by (eapply mem_true_get; exact Hw).
        eexists true, _. split; [reflexivity|].
        unfold rec_post. cbn [matching pred preds].
        split; [|split; [eapply sub_dict_trans; eauto|]; split; [exact Hsps|];
                 split; [lia|]; split; [discriminate|]].
        -- constructor; cbn [matching pred preds]; auto.
           ++ apply matching_ok_set; auto.
              ** apply Hedges. left. reflexivity.
              ** intros v' u' Hg E. exfalso.
                 destruct (Hent v' u' Hg) as [H|[H _]].
                 --- destruct Hm as (_ & _ & Hinj).
                     assert (Ev : value v' = value w).
                     { apply (Hinj v' w u' u0 H Hw). congruence. }
                     rewrite (get_congr _ _ _ Ev) in Hg. rewrite Hun in Hg.
                     inversion Hg; subst u'.
                     rewrite (mem_congr _ _ _ E) in Hun1. congruence.
                 --- rewrite (mem_congr _ _ _ E) in H. congruence.
           ++ apply pred_ok_set; auto.
              eapply no_pred_to_sub; [|exact Hnp].
              eapply sub_dict_trans; eauto.
        -- intros _. cbn [matching pred preds]. repeat split.
           ++ exists u. rewrite get_set, py_eq_refl. repeat split; auto.
              eapply mem_true_get. exact Eu.
           ++ intros v' u'. rewrite get_set. case_eq_py v v'.
              ** intros [= <-]. right. split; auto. eapply mem_true_get. exact Eu.
              ** intros H. destruct (Hent v' u' H) as [H1|[H1 H2]]; auto.
                 right. split; auto. eapply sub_dict_mem; eauto.
           ++ intros x. rewrite mem_set, Hmem.
              case_eq_py w x; auto.
              rewrite <- (mem_congr _ _ _ E), Hwm. reflexivity.
           ++ rewrite length_set, Hmem, Hlength, Hwm.
              rewrite (py_eq_false_of w v Hwv). reflexivity.
      * specialize (Hf eq_refl).
        destruct (IH s2) as (b & s' & Hl & Hpost'); auto.
        { eapply no_pred_to_sub; [|exact Hnp]. eapply sub_dict_trans; eauto. }
        { lia. }
        exists b, s'. split; auto.
        eapply rec_post_after; eauto. eapply sub_dict_trans; eauto.
Qed.


Lemma Recurse_ok : forall fuel v s,
  rec_inv g s -> no_pred_to v (pred s) -> length (preds s) < fuel ->
  exists b s', Recurse fuel v s = Ret (b, s') /\ rec_post g v s b s'.
Proof.
  induction fuel as [|f IH]; intros v s Hinv Hnp Hfuel; [lia|].
  cbn [Recurse]. destruct (dict_get v (preds s)) as [L|] eqn:Ev.
  - pose proof Hinv as [Hm Hwp Hwps Hpok Hpsok].
    set (s0 := mkState (matching s) (pred s) (dict_remove v (preds s))).
    assert (Hl : S (length (dict_remove v (preds s))) = length (preds s)).
    { apply length_remove. eapply mem_true_get. exact Ev. }
    destruct (recurse_loop_ok f (Recurse f) v IH L s0) as (b & s' & Hr & Hpost).
    + constructor; cbn [s0 matching pred preds]; auto.
      * apply wf_remove. exact Hwps.
      * eapply preds_ok_sub; eauto. apply sub_dict_remove. exact Hwps.
    + exact Hnp.
    + cbn [s0 preds]. lia.
    + intros u Hu. apply (Hpsok v L u Ev Hu).
    + exists b, s'. split; auto.
      apply (rec_post_after v s s0 b s'); auto.
      * apply sub_dict_refl.
      * apply sub_dict_remove. exact Hwps.
      * cbn [s0 preds]. lia.
  - exists false, s. split; [reflexivity | apply rec_post_refl; exact Hinv].
Qed.

Lemma augment_ok : forall vs s,
  rec_inv g s -> (forall v, In v vs -> no_pred_to v (pred s)) ->
  exists s',
    augment vs s = Ret s' /\ matching_ok g (matching s') /\
    length (matching s) <= length (matching s').
Proof.
  induction vs as [|v vs IH]; intros s Hinv Hnp.
  - exists s. split; [reflexivity|]. split; [apply Hinv | lia].
  - cbn [augment].
    destruct (Recurse_ok (S (length (preds s))) v s Hinv) as (b & s1 & Hr & Hpost).
    { apply Hnp. left. reflexivity. }
    { lia. }
    rewrite Hr. cbn [bind snd].
    destruct Hpost as (Hinv1 & Hsp & _ & _ & Hf & Ht).
    destruct (IH s1 Hinv1) as (s' & Ha & Hm & Hlen).
    { intros v' Hv'. eapply no_pred_to_sub; eauto. apply Hnp. right. exact Hv'. }
    exists s'. split; [exact Ha|]. split; [exact Hm|].
    destruct b.
    + destruct (Ht eq_refl) as (_ & _ & _ & Hl).
      destruct (dict_mem v (matching s)); lia.
    + rewrite (Hf eq_refl) in Hlen. exact Hlen.
Qed.

(** *** Progress: the first free recipient is always augmented *)

Lemma good_u_congr pred preds n u u' :
  value u = value u' -> good_u pred preds n u -> good_u pred preds n u'.
Proof.
  intros E. destruct n; simpl.
  - rewrite (get_congr _ _ pred E). auto.
  - rewrite (get_congr _ _ pred E). auto.
Qed.

Lemma good_v_congr pred preds n v v' :
  value v = value v' -> good_v pred preds n v -> good_v pred preds n v'.
Proof.
  intros E (u & rest & Hv & Hu). exists u, rest.
  rewrite <- (get_congr _ _ preds E). auto.
Qed.

Lemma good_u_level pred preds : forall n j u,
  good_u pred preds n u -> good_u pred preds j u -> n = j.
Proof.
  induction n as [|n IH]; intros [|j] u; simpl; auto.
  - intros H (w & u' & rest & H' & _). congruence.
  - intros (w & u' & rest & H' & _) H. congruence.
  - intros (w & u' & rest & H1 & H2 & H3) (w2 & u2 & rest2 & H4 & H5 & H6).
    rewrite H1 in H4. inversion H4; subst w2.
    rewrite H2 in H5. inversion H5; subst u2 rest2.
    f_equal. eapply IH; eauto.
Qed.

Lemma good_v_level pred preds n j v :
  good_v pred preds n v -> good_v pred preds j v -> n = j.
Proof.
  intros (u & rest & H1 & H2) (u2 & rest2 & H3 & H4).
  rewrite H1 in H3. inversion H3; subst u2 rest2.
  eapply good_u_level; eauto.
Qed.

(** Removing vertices of a higher level leaves the lower chains intact. *)
Lemma good_u_remove pred preds u v :
  wf pred -> wf preds ->
  forall k x,
    good_u pred preds k x ->
    (forall j, j <= k -> ~ good_u pred preds j u) ->
    (forall j, j < k -> ~ good_v pred preds j v) ->
    good_u (dict_remove u pred) (dict_remove v preds) k x.
Proof.
  intros Hwp Hwps. induction k as [|k IH]; intros x Hx Hu Hv.
  - simpl in *. rewrite get_remove by assumption.
    case_eq_py u x; auto. exfalso. apply (Hu 0); [lia|].
    simpl. rewrite (get_congr _ _ pred E). exact Hx.
  - simpl in Hx. destruct Hx as (w & u' & rest & H1 & H2 & H3).
    simpl. exists w, u', rest. repeat split.
    + rewrite get_remove by assumption. case_eq_py u x; auto.
      exfalso. apply (Hu (S k)); [lia|].
      apply (good_u_congr pred preds (S k) x u); auto.
      simpl. exists w, u', rest. auto.
    + rewrite get_remove by assumption. case_eq_py v w; auto.
      exfalso. apply (Hv k); [lia|].
      apply (good_v_congr pred preds k w v); auto.
      exists u', rest. auto.
    + apply IH; auto; intros j Hj; (apply Hu || apply Hv); lia.
Qed.

Lemma recurse_loop_first rec v u rest s :
  recurse_loop rec v (u :: rest) s =
  match dict_get u (pred s) with
  | Some pu =>
      let s1 := mkState (matching s) (dict_remove u (pred s)) (preds s) in
      match pu with
      | Unmatched =>
          Ret (true, mkState (dict_set v u (matching s1)) (pred s1) (preds s1))
      | Via w =>
          r <- rec w s1 ;;
          if fst r
          then Ret (true, mkState (dict_set v u (matching (snd r)))
                                  (pred (snd r)) (preds (snd r)))
          else recurse_loop rec v rest (snd r)
      end
  | None => recurse_loop rec v rest s
  end.
Proof. reflexivity. Qed.

Lemma Recurse_good : forall fuel n v s b s',
  wf (pred s) -> wf (preds s) ->
  good_v (pred s) (preds s) n v ->
  Recurse fuel v s = Ret (b, s') -> b = true.
Proof.
  induction fuel as [|f IH]; intros n v s b s' Hwp Hwps Hgood Hr;
    [discriminate|].
  pose proof Hgood as (u & rest & Hv & Hu).
  cbn [Recurse] in Hr. rewrite Hv in Hr.
  rewrite recurse_loop_first in Hr. cbn [matching pred preds] in Hr.
  destruct n as [|k].
  - simpl in Hu. rewrite Hu in Hr. inversion Hr. reflexivity.
  - pose proof Hu as (w & u' & rest' & H1 & H2 & H3).
    rewrite H1 in Hr.
    destruct (Recurse f w _) as [[b1 s2]| |] eqn:Er; try discriminate.
    cbn [bind fst snd] in Hr.
    assert (Hb1 : b1 = true).
    { eapply (IH k w _ b1 s2); [| |  | exact Er]; cbn [pred preds].
      - apply wf_remove. exact Hwp.
      - apply wf_remove. exact Hwps.
      - assert (Hlu : forall j, j <= k -> ~ good_u (pred s) (preds s) j u).
        { intros j Hj Hc. pose proof (good_u_level _ _ _ _ _ Hu Hc). lia. }
        assert (Hlv : forall j, j <= k -> ~ good_v (pred s) (preds s) j v).
        { intros j Hj Hc. pose proof (good_v_level _ _ _ _ _ Hgood Hc). lia. }
        exists u', rest'. split.
        + rewrite get_remove by assumption. case_eq_py v w; auto.
          exfalso. apply (Hlv k); [lia|].
          apply (good_v_congr _ _ k w v); auto. exists u', rest'. auto.
        + apply good_u_remove; auto. intros j Hj. apply Hlv. lia. }
    subst b1. inversion Hr. reflexivity.
Qed.

End Augment.

(** ** [BipartiteMatch]: the phases *)

Section Phases.
Context {RT : PyRuntime}.
Variable g : dict (list obj).

Lemma matching_values_nodup m :
  wf m -> injective m -> NoDup (map value (dict_values m)).
Proof.
  intros Hwf Hinj. unfold dict_values. rewrite map_map.
  apply NoDup_map_NoDup_ForallPairs.
  - intros [k1 x1] [k2 x2] H1 H2 E. simpl in E.
    assert (Ek : value k1 = value k2).
    { apply (Hinj k1 k2 x1 x2); auto using in_get. }
    unfold wf, dict_keys in Hwf. rewrite map_map in Hwf.
    apply (NoDup_map_inj _ m _ _ Hwf H1 H2). exact Ek.
  - unfold wf, dict_keys in Hwf. rewrite map_map in Hwf.
    eapply NoDup_map_inv. exact Hwf.
Qed.

(** A matching has at most as many entries as the graph has givers. *)
Lemma matching_size_bound m :
  matching_ok g m -> length m <= length g.
Proof.
  intros (Hwf & Hedge & Hinj).
  replace (length m) with (length (map value (dict_values m)))
    by (unfold dict_values; rewrite !length_map; reflexivity).
  replace (length g) with (length (map value (dict_keys g))).
  - apply NoDup_incl_length.
    + apply matching_values_nodup; auto.
    + intros a Ha. apply in_map_iff in Ha. destruct Ha as (u & <- & Hu).
      unfold dict_values in Hu. apply in_map_iff in Hu.
      destruct Hu as ([v u'] & <- & Hin). simpl.
      apply (in_get _ _ _ Hwf) in Hin.
      apply mem_vin. eapply edge_mem. apply (Hedge v u' Hin).
  - unfold dict_keys. rewrite !length_map. reflexivity.
Qed.

Lemma rec_inv_of_layering m L :
  matching_ok g m -> layer_inv g m L ->
  rec_inv g (mkState m (l_pred L) (l_preds L)) /\
  forall v, In v (l_unmatched L) -> no_pred_to v (l_pred L).
Proof.
  intros Hm HL.
  destruct HL as [Iwfp Iwfps Ikeys Ilay Ifree Ipok Ivia Iback Iclosed Ireach Iunm
                  Ipsok Igu Igv].
  split.
  - constructor; auto.
  - intros v Hv x w Hx E. destruct (Iunm v Hv) as [Hf _].
    destruct (proj2 (Ipok x) w Hx) as (u' & Hw & _).
    apply mem_true_get in Hw. rewrite (mem_congr _ _ _ E) in Hw. congruence.
Qed.

(** A phase that reached an unmatched recipient enlarges the matching. *)
Lemma phase_progress m L v0 rest :
  matching_ok g m -> layer_inv g m L -> l_unmatched L = v0 :: rest ->
  exists s,
    augment (l_unmatched L) (mkState m (l_pred L) (l_preds L)) = Ret s /\
    matching_ok g (matching s) /\ length m < length (matching s).
Proof.
  intros Hm HL Hun.
  destruct (rec_inv_of_layering m L Hm HL) as [Hinv Hnp].
  rewrite Hun in *. cbn [augment].
  destruct (Recurse_ok g (S (length (l_preds L))) v0
              (mkState m (l_pred L) (l_preds L)) Hinv)
    as (b & s1 & Hr & Hpost).
  { apply Hnp. left. reflexivity. }
  { cbn [preds]. lia. }
  cbn [preds]. rewrite Hr. cbn [bind snd].
  assert (Hv0 : dict_mem v0 m = false /\ dict_mem v0 (l_preds L) = true).
  { apply (li_unmatched HL). rewrite Hun. left. reflexivity. }
  destruct Hv0 as [Hv0m Hv0p].
  destruct (li_good_v HL v0 Hv0p) as [n Hn].
  assert (Hb : b = true).
  { eapply (Recurse_good _ n v0 _ b s1); [| | | exact Hr]; cbn [pred preds].
    - apply (li_wf_pred HL).
    - apply (li_wf_preds HL).
    - exact Hn. }
  subst b. destruct Hpost as (Hinv1 & Hsp & _ & _ & _ & Ht).
  destruct (Ht eq_refl) as (_ & _ & _ & Hl).
  cbn [matching] in Hl. rewrite Hv0m in Hl.
  destruct (augment_ok g rest s1 Hinv1) as (s' & Ha & Hm' & Hlen).
  { intros v Hv. eapply no_pred_to_sub; eauto. apply Hnp. right. exact Hv. }
  exists s'. split; [exact Ha|]. split; [exact Hm'|]. lia.
Qed.

Lemma unlayered_ok preds : forall us unl,
  (forall u, In u us -> dict_mem u g = true) ->
  exists unl', unlayered g us preds unl = Ret unl'.
Proof.
  induction us as [|u us IH]; intros unl Hk; simpl.
  - eauto.
  - assert (Hm : dict_mem u g = true) by (apply Hk; left; reflexivity).
    apply mem_get in Hm. destruct Hm as [l Hl].
    unfold dict_lookup. rewrite Hl. cbn [bind]. apply IH.
    intros x Hx. apply Hk. right. exact Hx.
Qed.

Lemma phases_ok :
  wf g ->
  forall fuel m,
    matching_ok g m -> length g < fuel + length m ->
    exists m' A B,
      phases fuel g m = Ret (m', A, B) /\ matching_ok g m' /\
      exists L, final_layering g m' L /\ A = dict_iter (l_pred L).
Proof.
  intros Hwf. induction fuel as [|f IH]; intros m Hm Hfuel.
  - pose proof (matching_size_bound m Hm). lia.
  - cbn [phases].
    destruct (layer_phase_ok g m Hwf Hm) as (L & HLp & HL & Hstop).
    rewrite HLp. cbn [bind].
    destruct (l_unmatched L) as [|v0 rest] eqn:Hun.
    + destruct (unlayered_ok (l_preds L) (dict_iter g) []) as [unl Hunl].
      { intros u Hu. apply mem_vin, in_vin, iter_in. exact Hu. }
      rewrite Hunl. cbn [bind].
      exists m, (dict_iter (l_pred L)), (dict_iter unl).
      split; [reflexivity|]. split; [exact Hm|].
      exists L. split; auto. split; [exact HL|]. split; auto.
      destruct Hstop as [H|H]; [exact H | congruence].
    + destruct (phase_progress m L v0 rest Hm HL Hun) as (s & Ha & Hm' & Hlen).
      rewrite Hun in Ha. rewrite Ha. cbn [bind].
      apply IH; auto. lia.
Qed.

Lemma BipartiteMatch_ok :
  wf g ->
  exists m A B,
    BipartiteMatch g = Ret (m, A, B) /\ matching_ok g m /\
    exists L, final_layering g m L /\ A = dict_iter (l_pred L).
Proof.
  intros Hwf. unfold BipartiteMatch.
  destruct (greedy_start g Hwf) as (m0 & Hg & Hm0).
  rewrite Hg. cbn [bind]. apply phases_ok; auto. lia.
Qed.

End Phases.

(** ** Brute force computes the maximum *)

Section Brute.

Lemma fold_best_ge_base (f : string -> nat) used l base :
  base <= fold_right (fun b best => if in_dec string_dec b used then best
                                    else Nat.max best (f b)) base l.
Proof.
  induction l as [|b l IH]; simpl; auto.
  destruct (in_dec string_dec b used); lia.
Qed.

Lemma fold_best_ge (f : string -> nat) used l base b :
  In b l -> ~ In b used ->
  f b <= fold_right (fun b best => if in_dec string_dec b used then best
                                   else Nat.max best (f b)) base l.
Proof.
  induction l as [|c l IH]; simpl; [tauto|].
  intros [->|Hb] Hn.
  - destruct (in_dec string_dec b used); [contradiction | lia].
  - specialize (IH Hb Hn). destruct (in_dec string_dec c used); lia.
Qed.

Lemma fold_best_cases (f : string -> nat) used l base :
  let r := fold_right (fun b best => if in_dec string_dec b used then best
                                     else Nat.max best (f b)) base l in
  r = base \/ exists b, In b l /\ ~ In b used /\ r = f b.
Proof.
  induction l as [|c l IH]; simpl; auto.
  destruct (in_dec string_dec c used) as [Hin|Hout].
  - destruct IH as [H|(b & Hb & Hn & H)]; auto.
    right. exists b. auto.
  - destruct (Nat.max_spec
                (fold_right (fun b best => if in_dec string_dec b used then best
                                           else Nat.max best (f b)) base l) (f c))
      as [[_ E]|[_ E]]; rewrite E.
    + right. exists c. auto.
    + destruct IH as [H|(b & Hb & Hn & H)]; auto.
      right. exists b. auto.
Qed.

Lemma brute_upper : forall sg used M,
  NoDup (map fst sg) -> is_matching sg M -> avoids used M ->
  length M <= brute sg used.
Proof.
  induction sg as [|[a l] sg IH]; intros used M Hnd (H1 & H2 & H3) Hav.
  - destruct M as [|[a b] M]; auto.
    destruct (H3 a b (or_introl eq_refl)) as (l & [] & _).
  - inversion Hnd as [|? ? Ha Hnd']; subst. cbn [brute].
    destruct (in_dec string_dec a (map fst M)) as [Hin|Hout].
    + apply in_map_iff in Hin. destruct Hin as ([a' b] & E & Hin).
      simpl in E. subst a'.
      destruct (in_split _ _ Hin) as (M1 & M2 & ->).
      assert (Hb : In b l).
      { destruct (H3 a b Hin) as (l' & [Hl'|Hl'] & Hb).
        - inversion Hl'; subst. exact Hb.
        - exfalso. apply Ha. apply (in_map fst) in Hl'. exact Hl'. }
      assert (Hbu : ~ In b used) by (apply (Hav a b Hin)).
      rewrite map_app in H1, H2. simpl in H1, H2.
      assert (IHM : length (M1 ++ M2) <= brute sg (b :: used)).
      { apply IH; auto.
        - split; [|split].
          + rewrite map_app. eapply NoDup_remove_1. exact H1.
          + rewrite map_app. eapply NoDup_remove_1. exact H2.
          + intros a2 b2 Hin2.
            assert (Hin2' : In (a2, b2) (M1 ++ (a, b) :: M2)).
            { apply in_app_or in Hin2. apply in_or_app. simpl. tauto. }
            destruct (H3 a2 b2 Hin2') as (l' & [Hl'|Hl'] & Hb2); eauto.
            exfalso. inversion Hl'; subst a2 l'.
            apply NoDup_remove_2 in H1. apply H1. rewrite <- map_app.
            apply (in_map fst) in Hin2. exact Hin2.
        - intros a2 b2 Hin2 [<-|Hu].
          + apply NoDup_remove_2 in H2. apply H2. rewrite <- map_app.
            apply (in_map snd) in Hin2. exact Hin2.
          + apply (Hav a2 b2); auto.
            apply in_app_or in Hin2. apply in_or_app. simpl. tauto. }
      rewrite length_app in *. simpl.
      pose proof (fold_best_ge (fun b => S (brute sg (b :: used))) used l
                    (brute sg used) b Hb Hbu). simpl in H. lia.
    + assert (IHM : length M <= brute sg used).
      { apply IH; auto. split; [|split]; auto.
        intros a2 b2 Hin2. destruct (H3 a2 b2 Hin2) as (l' & [Hl'|Hl'] & Hb2); eauto.
        exfalso. inversion Hl'; subst a2 l'. apply Hout.
        apply (in_map fst) in Hin2. exact Hin2. }
      pose proof (fold_best_ge_base (fun b => S (brute sg (b :: used))) used l
                    (brute sg used)). simpl in H. lia.
Qed.

Lemma brute_reached : forall sg used,
  NoDup (map fst sg) ->
  exists M, is_matching sg M /\ avoids used M /\ length M = brute sg used.
Proof.
  induction sg as [|[a l] sg IH]; intros used Hnd.
  - exists []. repeat split; try constructor; intros a b [].
  - inversion Hnd as [|? ? Ha Hnd']; subst. cbn [brute].
    destruct (fold_best_cases (fun b => S (brute sg (b :: used))) used l
                (brute sg used)) as [E|(b & Hb & Hbu & E)]; simpl in E; rewrite E.
    + destruct (IH used Hnd') as (M & (H1 & H2 & H3) & Hav & Hlen).
      exists M. repeat split; auto.
      intros a2 b2 Hin. destruct (H3 a2 b2 Hin) as (l' & Hl' & Hb2).
      exists l'. split; auto. right. exact Hl'.
    + destruct (IH (b :: used) Hnd') as (M & (H1 & H2 & H3) & Hav & Hlen).
      exists ((a, b) :: M). repeat split.
      * simpl. constructor; auto. intros Hin. apply Ha.
        apply in_map_iff in Hin. destruct Hin as ([a' b'] & E' & Hin).
        simpl in E'. subst a'. destruct (H3 a b' Hin) as (l' & Hl' & _).
        apply (in_map fst) in Hl'. exact Hl'.
      * simpl. constructor; auto. intros Hin.
        apply in_map_iff in Hin. destruct Hin as ([a' b'] & E' & Hin).
        simpl in E'. subst b'. apply (Hav a' b Hin). left. reflexivity.
      * intros a2 b2 [[= <- <-]|Hin].
        -- exists l. split; auto. left. reflexivity.
        -- destruct (H3 a2 b2 Hin) as (l' & Hl' & Hb2).
           exists l'. split; auto. right. exact Hl'.
      * intros a2 b2 [[= <- <-]|Hin]; auto.
        intros Hu. apply (Hav a2 b2 Hin). right. exact Hu.
      * simpl. rewrite Hlen. reflexivity.
Qed.

End Brute.

(** ** The returned matching is maximum *)

Section Maximum.
Context {RT : PyRuntime}.
Variable g : dict (list obj).

Lemma holds_mem {X} (u : obj) (d : dict X) : holds (value u) d = dict_mem u d.
Proof.
  unfold holds. destruct (dict_mem u d) eqn:E.
  - apply mem_vin, vin_in in E. destruct E as (k & Hk & Ek).
    apply existsb_exists. exists k. split; auto. apply String.eqb_eq. exact Ek.
  - destruct (existsb _ (dict_keys d)) eqn:E'; auto.
    apply existsb_exists in E'. destruct E' as (k & Hk & Ek).
    apply String.eqb_eq in Ek.
    assert (dict_mem u d = true); [|congruence].
    apply mem_vin. unfold vin. rewrite <- Ek. apply in_map. exact Hk.
Qed.

Lemma length_pairs m : length (pairs m) = length m.
Proof. unfold pairs. apply length_map. Qed.

Lemma contents_edge a b :
  (exists l, In (a, l) (contents g) /\ In b l) ->
  exists u l v, In (u, l) g /\ value u = a /\ In v l /\ value v = b.
Proof.
  intros (l & Hl & Hb). unfold contents in Hl. apply in_map_iff in Hl.
  destruct Hl as ([u l0] & E & Hin). simpl in E. inversion E; subst a l.
  apply in_map_iff in Hb. destruct Hb as (v & Ev & Hv). eauto 8.
Qed.

(** C9 is this statement about the result of [BipartiteMatch]. *)
Lemma matching_ok_is_matching m :
  matching_ok g m -> is_matching (contents g) (pairs m).
Proof.
  intros (Hwf & Hedge & Hinj). unfold pairs. split; [|split].
  - rewrite map_map. simpl.
    pose proof (matching_values_nodup m Hwf Hinj) as H.
    unfold dict_values in H. rewrite map_map in H. exact H.
  - rewrite map_map. simpl. unfold wf, dict_keys in Hwf.
    rewrite map_map in Hwf. exact Hwf.
  - intros a b Hin. apply in_map_iff in Hin.
    destruct Hin as ([v u] & E & Hin). simpl in E. inversion E; subst a b.
    apply (in_get _ _ _ Hwf) in Hin.
    destruct (Hedge v u Hin) as (l & Hl & Hv).
    apply get_in in Hl. destruct Hl as (k' & Hk' & Ek).
    exists (map value l). split.
    + unfold contents. apply in_map_iff. exists (k', l). simpl.
      rewrite Ek. auto.
    + exact Hv.
Qed.

Lemma partner_spec m a :
  wf m ->
  (exists v u, In (v, u) m /\ value u = a /\ partner m a = value v) \/
  (forall v u, dict_get v m = Some u -> value u <> a).
Proof.
  intros Hwf. unfold partner.
  destruct (find (fun e => String.eqb (value (snd e)) a) m) as [[v u]|] eqn:E.
  - left. apply find_some in E. destruct E as [Hin E]. simpl in E.
    apply String.eqb_eq in E. exists v, u. auto.
  - right. intros v u Hg Eu. apply get_in in Hg. destruct Hg as (k' & Hin & _).
    pose proof (find_none _ _ E _ Hin) as H. simpl in H.
    apply String.eqb_neq in H. contradiction.
Qed.

(** When the last layering stops without an unmatched recipient, the
    unreached givers and the reached recipients cover every edge, one
    vertex per pair of the matching: no matching is larger. *)
Lemma final_layering_maximum m L :
  wf g -> matching_ok g m -> final_layering g m L ->
  forall M, is_matching (contents g) M -> length M <= length m.
Proof.
  intros Hwfg Hm (HL & Hlay & Hun) M (HM1 & HM2 & HM3).
  pose proof Hm as (Hwf & Hedge & Hinj).
  destruct HL as [Iwfp Iwfps Ikeys Ilay Ifree Ipok Ivia Iback Iclosed Ireach Iunm
                  Ipsok Igu Igv].
  (* a pair whose giver was reached has a matched, reached recipient *)
  assert (Hreached : forall a b, In (a, b) M -> holds a (l_pred L) = true ->
            exists v, value v = b /\ dict_mem v (l_preds L) = true /\
                      dict_mem v m = true).
  { intros a b Hin Ha.
    destruct (contents_edge a b (HM3 a b Hin)) as (u & l & v & Hl & Eu & Hv & Ev).
    subst a. rewrite holds_mem in Ha.
    assert (Hp : dict_mem v (l_preds L) = true).
    { apply (Iclosed u l v Ha); auto.
      - rewrite Hlay. intros [].
      - apply in_get; auto. }
    exists v. repeat split; auto.
    destruct (Ireach v Hp) as [H|H]; auto. rewrite Hun in H. destruct H. }
  (* a pair whose giver was not reached has a matched giver *)
  assert (Hmatched : forall a b, In (a, b) M -> holds a (l_pred L) = false ->
            exists v u, In (v, u) m /\ value u = a /\ partner m a = value v).
  { intros a b Hin Ha.
    destruct (partner_spec m a Hwf) as [H|H]; auto. exfalso.
    destruct (contents_edge a b (HM3 a b Hin)) as (u & l & v & Hl & Eu & Hv & Ev).
    subst a. rewrite holds_mem in Ha.
    assert (Hu : dict_get u (l_pred L) = Some Unmatched).
    { apply Ifree.
      - eapply mem_true_get. apply in_get; eauto.
      - intros v' u' Hg. apply (H v' u' Hg). }
    apply mem_true_get in Hu. congruence. }
  rewrite <- (length_map (charge m (l_pred L)) M).
  replace (length m) with (length (map value (dict_keys m)))
    by (unfold dict_keys; rewrite !length_map; reflexivity).
  apply NoDup_incl_length.
  - apply NoDup_map_NoDup_ForallPairs.
    + intros [a1 b1] [a2 b2] H1 H2. unfold charge. simpl.
      destruct (holds a1 (l_pred L)) eqn:E1; destruct (holds a2 (l_pred L)) eqn:E2.
      * intros E. apply (NoDup_map_inj snd M _ _ HM2 H1 H2). exact E.
      * intros E. exfalso.
        destruct (Hreached a1 b1 H1 E1) as (v1 & Ev1 & Hp1 & _).
        destruct (Hmatched a2 b2 H2 E2) as (v2 & u2 & Hin2 & Eu2 & Ep).
        assert (Hu2 : dict_mem u2 (l_pred L) = true).
        { apply (Iback v2 u2); [apply in_get; auto|].
          rewrite <- (mem_congr v1 v2); auto. congruence. }
        rewrite <- holds_mem, Eu2 in Hu2. congruence.
      * intros E. exfalso.
        destruct (Hreached a2 b2 H2 E2) as (v2 & Ev2 & Hp2 & _).
        destruct (Hmatched a1 b1 H1 E1) as (v1 & u1 & Hin1 & Eu1 & Ep).
        assert (Hu1 : dict_mem u1 (l_pred L) = true).
        { apply (Iback v1 u1); [apply in_get; auto|].
          rewrite <- (mem_congr v2 v1); auto. congruence. }
        rewrite <- holds_mem, Eu1 in Hu1. congruence.
      * intros E.
        destruct (Hmatched a1 b1 H1 E1) as (v1 & u1 & Hin1 & Eu1 & Ep1).
        destruct (Hmatched a2 b2 H2 E2) as (v2 & u2 & Hin2 & Eu2 & Ep2).
        assert (Ee : (v1, u1) = (v2, u2)).
        { unfold wf, dict_keys in Hwf. rewrite map_map in Hwf.
          apply (NoDup_map_inj _ m _ _ Hwf Hin1 Hin2). simpl. congruence. }
        inversion Ee; subst v2 u2.
        apply (NoDup_map_inj fst M _ _ HM1 H1 H2). simpl. congruence.
    + eapply NoDup_map_inv. exact HM1.
  - intros c Hc. apply in_map_iff in Hc. destruct Hc as ([a b] & <- & Hin).
    unfold charge. simpl. destruct (holds a (l_pred L)) eqn:E.
    + destruct (Hreached a b Hin E) as (v & Ev & _ & Hvm).
      rewrite <- Ev. apply mem_vin. exact Hvm.
    + destruct (Hmatched a b Hin E) as (v & u & Hin' & _ & ->).
      apply in_map. eapply in_keys. exact Hin'.
Qed.

End Maximum.

(** ** The objects of the returned matching *)

Section Provenance.
Context {RT : PyRuntime}.
Variable O : list obj.

Lemma in_set_inv {X} k (x : X) d k0 x0 :
  In (k0, x0) (dict_set k x d) ->
  In (k0, x0) d \/ (x0 = x /\ (k0 = k \/ In k0 (dict_keys d))).
Proof.
  induction d as [|[k1 x1] d IH]; simpl.
  - intros [[= <- <-]|[]]. auto.
  - case_eq_py k1 k; simpl.
    + intros [[= <- <-]|H]; auto.
    + intros [H|H]; auto. destruct (IH H) as [H'|(-> & [->|H'])]; auto.
Qed.

Lemma in_get_obj {X} k (x : X) d :
  dict_get k d = Some x -> exists k', In (k', x) d.
Proof. intros H. apply get_in in H. destruct H as (k' & H & _). eauto. Qed.

Lemma objs_m_set m v u :
  objs_m O m -> In v O -> In u O -> objs_m O (dict_set v u m).
Proof.
  intros Hm Hv Hu k x Hin. apply in_set_inv in Hin.
  destruct Hin as [H|(-> & [->|H])]; [apply (Hm k x H) | split; auto |].
  split; auto. unfold dict_keys in H. apply in_map_iff in H.
  destruct H as ([k' x'] & <- & H). apply (proj1 (Hm k' x' H)).
Qed.

Lemma objs_pred_set pred u x :
  objs_pred O pred -> In u O -> (forall w, x = Via w -> In w O) ->
  objs_pred O (dict_set u x pred).
Proof.
  intros Hp Hu Hx k y Hin. apply in_set_inv in Hin.
  destruct Hin as [H|(-> & [->|H])]; [apply (Hp k y H) | split; auto |].
  split; auto. unfold dict_keys in H. apply in_map_iff in H.
  destruct H as ([k' x'] & <- & H). apply (proj1 (Hp k' x' H)).
Qed.

Lemma objs_preds_set preds v l :
  objs_preds O preds -> In v O -> incl l O ->
  objs_preds O (dict_set v l preds).
Proof.
  intros Hp Hv Hl k y Hin. apply in_set_inv in Hin.
  destruct Hin as [H|(-> & [->|H])]; [apply (Hp k y H) | split; auto |].
  split; auto. unfold dict_keys in H. apply in_map_iff in H.
  destruct H as ([k' x'] & <- & H). apply (proj1 (Hp k' x' H)).
Qed.

Lemma objs_preds_get preds v l :
  objs_preds O preds -> dict_get v preds = Some l -> incl l O.
Proof.
  intros Hp Hg. apply in_get_obj in Hg. destruct Hg as [k' H].
  apply (proj2 (Hp k' l H)).
Qed.

Lemma objs_preds_append preds v u :
  objs_preds O preds -> In v O -> In u O ->
  objs_preds O (dict_append v u preds).
Proof.
  intros Hp Hv Hu. unfold dict_append.
  destruct (dict_get v preds) as [l|] eqn:E.
  - apply objs_preds_set; auto. apply incl_app.
    + apply (objs_preds_get preds v l Hp E).
    + intros x [<-|[]]. exact Hu.
  - apply objs_preds_set; auto. intros x [<-|[]]. exact Hu.
Qed.

Lemma objs_keys {X} (d : dict X) :
  (forall k x, In (k, x) d -> In k O) -> incl (dict_iter d) O.
Proof.
  intros H k Hk. apply iter_in in Hk. unfold dict_keys in Hk.
  apply in_map_iff in Hk. destruct Hk as ([k' x] & <- & Hin).
  apply (H k' x Hin).
Qed.

Lemma objs_greedy_inner u : forall vs m,
  objs_m O m -> In u O -> incl vs O -> objs_m O (greedy_inner u vs m).
Proof.
  induction vs as [|v vs IH]; intros m Hm Hu Hvs; simpl; auto.
  destruct (dict_mem v m).
  - apply IH; auto. intros x Hx. apply Hvs. right. exact Hx.
  - apply objs_m_set; auto. apply Hvs. left. reflexivity.
Qed.

Lemma objs_greedy g : forall us m m',
  objs_preds O g -> incl us O -> objs_m O m ->
  greedy g us m = Ret m' -> objs_m O m'.
Proof.
  induction us as [|u us IH]; intros m m' Hg Hus Hm; simpl.
  - intros [= <-]. exact Hm.
  - unfold dict_lookup. destruct (dict_get u g) as [l|] eqn:E; [|discriminate].
    cbn [bind]. intros Hr. eapply IH; [exact Hg | | | exact Hr].
    + intros x Hx. apply Hus. right. exact Hx.
    + apply objs_greedy_inner; auto.
      * apply Hus. left. reflexivity.
      * apply (objs_preds_get g u l Hg E).
Qed.

Lemma objs_pred_init_fold l : forall d,
  incl l O -> objs_pred O d ->
  objs_pred O (fold_left (fun d u0 => dict_set u0 Unmatched d) l d).
Proof.
  induction l as [|a l IH]; intros d Hl Hd; simpl; auto.
  apply IH.
  - intros x Hx. apply Hl. right. exact Hx.
  - apply objs_pred_set; auto.
    + apply Hl. left. reflexivity.
    + intros w H. discriminate.
Qed.

Lemma objs_pred_incl pred pred' :
  incl pred' pred -> objs_pred O pred -> objs_pred O pred'.
Proof. intros Hi Hp k x H. apply (Hp k x). apply Hi. exact H. Qed.

Lemma objs_preds_incl preds preds' :
  incl preds' preds -> objs_preds O preds -> objs_preds O preds'.
Proof. intros Hi Hp k x H. apply (Hp k x). apply Hi. exact H. Qed.

Lemma objs_pred_prune m : forall vs pred pred',
  objs_pred O pred -> pred_prune m vs pred = Ret pred' -> objs_pred O pred'.
Proof.
  induction vs as [|v vs IH]; intros pred pred' Hp; simpl.
  - intros [= <-]. exact Hp.
  - unfold dict_lookup, dict_del. destruct (dict_get v m) as [u|]; [|discriminate].
    cbn [bind]. destruct (dict_mem u pred); [|discriminate]. cbn [bind].
    apply IH. eapply objs_pred_incl; [apply dict_remove_incl | exact Hp].
Qed.

Lemma objs_scan_edges u preds : forall vs nl,
  In u O -> incl vs O -> objs_preds O nl ->
  objs_preds O (scan_edges u vs preds nl).
Proof.
  induction vs as [|v vs IH]; intros nl Hu Hvs Hnl; simpl; auto.
  apply IH; auto.
  - intros x Hx. apply Hvs. right. exact Hx.
  - destruct (dict_mem v preds); auto.
    apply objs_preds_append; auto. apply Hvs. left. reflexivity.
Qed.

Lemma objs_scan_layer g preds : forall layer nl nl',
  objs_preds O g -> incl layer O -> objs_preds O nl ->
  scan_layer g layer preds nl = Ret nl' -> objs_preds O nl'.
Proof.
  induction layer as [|u layer IH]; intros nl nl' Hg Hl Hnl; simpl.
  - intros [= <-]. exact Hnl.
  - unfold dict_lookup. destruct (dict_get u g) as [l|] eqn:E; [|discriminate].
    cbn [bind]. intros Hr. eapply IH; [exact Hg | | | exact Hr].
    + intros x Hx. apply Hl. right. exact Hx.
    + apply objs_scan_edges; auto.
      * apply Hl. left. reflexivity.
      * apply (objs_preds_get g u l Hg E).
Qed.

Lemma objs_m_get m v u : objs_m O m -> dict_get v m = Some u -> In u O.
Proof.
  intros Hm Hg. apply in_get_obj in Hg. destruct Hg as [k' H].
  apply (proj2 (Hm k' u H)).
Qed.

Lemma objs_absorb m nl : forall vs L L',
  objs_m O m -> objs_preds O nl -> incl vs O -> objs_layering O L ->
  absorb m nl vs L = Ret L' -> objs_layering O L'.
Proof.
  induction vs as [|v vs IH]; intros L L' Hm Hnl Hvs HL; simpl.
  - intros [= <-]. exact HL.
  - assert (Hv : In v O) by (apply Hvs; left; reflexivity).
    assert (Hvs' : incl vs O) by (intros x Hx; apply Hvs; right; exact Hx).
    destruct HL as (H1 & H2 & H3 & H4).
    unfold dict_lookup. destruct (dict_get v nl) as [us|] eqn:E; [|discriminate].
    cbn [bind].
    assert (Hus : incl us O) by (apply (objs_preds_get nl v us Hnl E)).
    destruct (dict_get v m) as [u|] eqn:Em.
    + assert (Hu : In u O) by (apply (objs_m_get m v u Hm Em)).
      intros Hr. eapply IH; [exact Hm | exact Hnl | exact Hvs' | | exact Hr].
      split; [|split; [|split]]; cbn [l_pred l_preds l_layer l_unmatched]; auto.
      * apply objs_pred_set; auto. intros w [= <-]. exact Hv.
      * apply objs_preds_set; auto.
      * apply incl_app; auto. intros x [<-|[]]. exact Hu.
    + intros Hr. eapply IH; [exact Hm | exact Hnl | exact Hvs' | | exact Hr].
      split; [|split; [|split]]; cbn [l_pred l_preds l_layer l_unmatched]; auto.
      * apply objs_preds_set; auto.
      * apply incl_app; auto. intros x [<-|[]]. exact Hv.
Qed.

Lemma objs_layering_loop g m : forall fuel L L',
  objs_preds O g -> objs_m O m -> objs_layering O L ->
  layering_loop fuel g m L = Ret L' -> objs_layering O L'.
Proof.
  induction fuel as [|f IH]; intros L L' Hg Hm HL; simpl.
  - destruct (l_layer L); [intros [= <-]; exact HL|].
    destruct (l_unmatched L); [discriminate | intros [= <-]; exact HL].
  - destruct (l_layer L) as [|u0 rest] eqn:El; [intros [= <-]; exact HL|].
    destruct (l_unmatched L) as [|v0 rest'] eqn:Eu; [|intros [= <-]; exact HL].
    destruct (scan_layer g (u0 :: rest) (l_preds L) []) as [nl| |] eqn:Es;
      try discriminate.
    cbn [bind].
    destruct (absorb m nl (dict_iter nl)
                (mkLayering (l_pred L) (l_preds L) [] [])) as [L1| |] eqn:Ea;
      try discriminate.
    cbn [bind]. intros Hr. eapply IH; [exact Hg | exact Hm | | exact Hr].
    destruct HL as (H1 & H2 & H3 & H4).
    assert (Hnl : objs_preds O nl).
    { eapply objs_scan_layer; [exact Hg | | | exact Es].
      - rewrite <- El. exact H3.
      - intros k l []. }
    eapply objs_absorb; [exact Hm | exact Hnl | | | exact Ea].
    + apply objs_keys. intros k x H. apply (proj1 (Hnl k x H)).
    + split; [|split; [|split]]; cbn [l_pred l_preds l_layer l_unmatched]; auto;
        intros x [].
Qed.


Lemma objs_state_remove_pred s u :
  objs_state O s ->
  objs_state O (mkState (matching s) (dict_remove u (pred s)) (preds s)).
Proof.
  intros (H1 & H2 & H3). split; [|split]; cbn [matching pred preds]; auto.
  eapply objs_pred_incl; [apply dict_remove_incl | exact H2].
Qed.

Lemma objs_state_set s v u :
  objs_state O s -> In v O -> In u O ->
  objs_state O (mkState (dict_set v u (matching s)) (pred s) (preds s)).
Proof.
  intros (H1 & H2 & H3) Hv Hu. split; [|split]; cbn [matching pred preds]; auto.
  apply objs_m_set; auto.
Qed.

Lemma objs_recurse_loop rec v :
  (forall w s b s', In w O -> objs_state O s -> rec w s = Ret (b, s') ->
                    objs_state O s') ->
  forall us s b s',
    In v O -> incl us O -> objs_state O s ->
    recurse_loop rec v us s = Ret (b, s') -> objs_state O s'.
Proof.
  intros Hrec. induction us as [|u us IH]; intros s b s' Hv Hus Hs.
  - simpl. intros [= <- <-]. exact Hs.
  - assert (Hu : In u O) by (apply Hus; left; reflexivity).
    assert (Hus' : incl us O) by (intros x Hx; apply Hus; right; exact Hx).
    rewrite recurse_loop_first.
    destruct (dict_get u (pred s)) as [[|w]|] eqn:Eu.
    + cbn [matching pred preds]. intros [= <- <-].
      apply (objs_state_set (mkState (matching s) (dict_remove u (pred s)) (preds s)));
        auto using objs_state_remove_pred.
    + assert (Hw : In w O).
      { apply in_get_obj in Eu. destruct Eu as [k' Hin].
        destruct Hs as (_ & H2 & _). apply (proj2 (H2 k' _ Hin) w eq_refl). }
      cbv zeta.
      destruct (rec w _) as [[b1 s2]| |] eqn:Er; try discriminate.
      cbn [bind fst snd].
      assert (Hs2 : objs_state O s2).
      { eapply Hrec; [exact Hw | | exact Er]. apply objs_state_remove_pred, Hs. }
      destruct b1.
      * intros [= <- <-]. apply (objs_state_set s2); auto.
      * apply IH; auto.
    + apply IH; auto.
Qed.

Lemma objs_Recurse : forall fuel v s b s',
  In v O -> objs_state O s -> Recurse fuel v s = Ret (b, s') ->
  objs_state O s'.
Proof.
  induction fuel as [|f IH]; intros v s b s' Hv Hs; [discriminate|].
  cbn [Recurse]. destruct (dict_get v (preds s)) as [L|] eqn:E.
  - apply (objs_recurse_loop (Recurse f) v IH); auto.
    + destruct Hs as (_ & _ & H3). apply (objs_preds_get _ v L H3 E).
    + destruct Hs as (H1 & H2 & H3). split; [|split]; cbn [matching pred preds]; auto.
      eapply objs_preds_incl; [apply dict_remove_incl | exact H3].
  - intros [= <- <-]. exact Hs.
Qed.

Lemma objs_augment : forall vs s s',
  incl vs O -> objs_state O s -> augment vs s = Ret s' -> objs_state O s'.
Proof.
  induction vs as [|v vs IH]; intros s s' Hvs Hs.
  - simpl. intros [= <-]. exact Hs.
  - cbn [augment].
    destruct (Recurse (S (length (preds s))) v s) as [[b s1]| |] eqn:Er;
      try discriminate.
    cbn [bind snd]. apply IH.
    + intros x Hx. apply Hvs. right. exact Hx.
    + eapply objs_Recurse; [| exact Hs | exact Er]. apply Hvs. left. reflexivity.
Qed.

Lemma objs_layer_phase g m L :
  objs_preds O g -> objs_m O m -> layer_phase g m = Ret L ->
  objs_layering O L.
Proof.
  intros Hg Hm. unfold layer_phase.
  destruct (pred_prune m (dict_iter m) (pred_init g)) as [pred0| |] eqn:Ep;
    try discriminate.
  cbn [bind]. intros Hr.
  assert (Hp0 : objs_pred O pred0).
  { eapply objs_pred_prune; [|exact Ep]. apply objs_pred_init_fold.
    - apply objs_keys. intros k x H. apply (proj1 (Hg k x H)).
    - intros k x []. }
  eapply objs_layering_loop; [exact Hg | exact Hm | | exact Hr].
  split; [|split; [|split]]; cbn [l_pred l_preds l_layer l_unmatched]; auto.
  - intros k l [].
  - apply objs_keys. intros k x H. apply (proj1 (Hp0 k x H)).
  - intros x [].
Qed.

Lemma objs_phases g : forall fuel m m' A B,
  objs_preds O g -> objs_m O m -> phases fuel g m = Ret (m', A, B) ->
  objs_m O m'.
Proof.
  induction fuel as [|f IH]; intros m m' A B Hg Hm; [discriminate|].
  cbn [phases]. destruct (layer_phase g m) as [L| |] eqn:El; try discriminate.
  cbn [bind]. pose proof (objs_layer_phase g m L Hg Hm El) as (H1 & H2 & H3 & H4).
  destruct (l_unmatched L) as [|v0 rest] eqn:Eu.
  - destruct (unlayered g (dict_iter g) (l_preds L) []); try discriminate.
    cbn [bind]. intros [= <- _ _]. exact Hm.
  - destruct (augment (v0 :: rest) _) as [s| |] eqn:Ea; try discriminate.
    cbn [bind]. apply IH; auto.
    assert (Hs : objs_state O s).
    { eapply objs_augment; [exact H4 | | exact Ea].
      split; [|split]; cbn [matching pred preds]; auto. }
    apply Hs.
Qed.

Lemma objs_BipartiteMatch g m A B :
  objs_preds O g -> BipartiteMatch g = Ret (m, A, B) -> objs_m O m.
Proof.
  intros Hg. unfold BipartiteMatch.
  destruct (greedy g (dict_iter g) []) as [m0| |] eqn:E0; try discriminate.
  cbn [bind]. apply objs_phases; auto.
  eapply objs_greedy; [exact Hg | | | exact E0].
  - apply objs_keys. intros k x H. apply (proj1 (Hg k x H)).
  - intros k x [].
Qed.

End Provenance.

(** ** Properties of [BipartiteMatch] and of the graph *)

Section Claims.
Context {RT : PyRuntime}.

Lemma pairs_snd m : map snd (pairs m) = map value (dict_keys m).
Proof. unfold pairs, dict_keys. rewrite !map_map. reflexivity. Qed.


Lemma wf_contents g : wf g -> NoDup (map fst (contents g)).
Proof.
  unfold wf, contents, dict_keys. rewrite !map_map. simpl. auto.
Qed.

(** The full specification of [BipartiteMatch]. *)
Lemma BipartiteMatch_spec g :
  wf g ->
  exists m A B,
    BipartiteMatch g = Ret (m, A, B) /\
    matching_ok g m /\
    is_matching (contents g) (pairs m) /\
    (forall M, is_matching (contents g) M -> length M <= length m) /\
    length m = max_matching_size g.
Proof.
  intros Hwf.
  destruct (BipartiteMatch_ok g Hwf) as (m & A & B & Hr & Hm & L & HL & _).
  exists m, A, B. split; [exact Hr|]. split; [exact Hm|].
  pose proof (matching_ok_is_matching g m Hm) as His.
  pose proof (final_layering_maximum g m L Hwf Hm HL) as Hmax.
  split; [exact His|]. split; [exact Hmax|].
  unfold max_matching_size. apply Nat.le_antisymm.
  - rewrite <- length_pairs.
    apply brute_upper; auto using wf_contents. intros a b _ [].
  - destruct (brute_reached (contents g) [] (wf_contents g Hwf))
      as (M & HM & _ & <-).
    apply Hmax. exact HM.
Qed.

(** C1: the matching returned by [BipartiteMatch] is a matching of the
    graph, no matching of the graph has more pairs, and its size is the
    maximum found by brute-force enumeration (for graphs of any size, so in
    particular for those over at most 8 participants). *)
Theorem BipartiteMatch_maximum g :
  wf g ->
  exists m A B,
    BipartiteMatch g = Ret (m, A, B) /\
    is_matching (contents g) (pairs m) /\
    (forall M, is_matching (contents g) M -> length M <= length m) /\
    length m = max_matching_size g.
Proof.
  intros Hwf.
  destruct (BipartiteMatch_spec g Hwf) as (m & A & B & Hr & _ & H1 & H2 & H3).
  exists m, A, B. auto.
Qed.

(** C9: the result of [BipartiteMatch] maps every recipient [v] to a giver
    [u] with [v] in [graph[u]], and no giver is the match of two distinct
    recipients. *)
Theorem BipartiteMatch_injective_on_edges g :
  wf g ->
  exists m A B,
    BipartiteMatch g = Ret (m, A, B) /\
    wf m /\
    (forall v u, In (v, u) m ->
       exists l, dict_get u g = Some l /\ vin v l) /\
    (forall v1 u1 v2 u2, In (v1, u1) m -> In (v2, u2) m ->
       value u1 = value u2 -> (v1, u1) = (v2, u2)).
Proof.
  intros Hwf.
  destruct (BipartiteMatch_ok g Hwf) as (m & A & B & Hr & Hm & _).
  exists m, A, B. split; [exact Hr|].
  destruct Hm as (Hwfm & Hedge & Hinj). split; [exact Hwfm|]. split.
  - intros v u Hin. apply (Hedge v u). apply in_get; auto.
  - intros v1 u1 v2 u2 H1 H2 E.
    pose proof (matching_values_nodup m Hwfm Hinj) as Hnd.
    unfold dict_values in Hnd. rewrite map_map in Hnd.
    apply (NoDup_map_inj _ m _ _ Hnd H1 H2). exact E.
Qed.

Lemma matching_keys_in g m P :
  matching_ok g m ->
  (forall u l v, In (u, l) g -> In v l -> vin v P) ->
  incl (map value (dict_keys m)) (map value P).
Proof.
  intros (Hwf & Hedge & _) HP s Hs. apply in_map_iff in Hs.
  destruct Hs as (v & <- & Hv). unfold dict_keys in Hv.
  apply in_map_iff in Hv. destruct Hv as ([v' u] & <- & Hin). simpl.
  destruct (Hedge v' u (in_get _ _ _ Hwf Hin)) as (l & Hl & Hvl).
  apply get_in in Hl. destruct Hl as (k' & Hk' & _).
  apply vin_in in Hvl. destruct Hvl as (v0 & Hv0 & <-).
  apply (HP k' l v0 Hk' Hv0).
Qed.

(** On a stack as deep as the recursion asks for, [BipartiteMatch] returns
    on every graph; what it returns is a largest matching, and it has fewer
    entries than there are participants whenever no matching gives
    something to every participant. *)
Lemma BipartiteMatch_partial g P :
  wf g -> NoDup (map value P) ->
  (forall u l v, In (u, l) g -> In v l -> vin v P) ->
  exists m A B,
    BipartiteMatch g = Ret (m, A, B) /\
    is_matching (contents g) (pairs m) /\
    (forall M, is_matching (contents g) M -> length M <= length m) /\
    length m <= length P /\
    (~ (exists M, is_matching (contents g) M /\
                  forall p, In p P -> In (value p) (map snd M)) ->
     length m < length P).
Proof.
  intros Hwf HP Hin.
  destruct (BipartiteMatch_ok g Hwf) as (m & A & B & Hr & Hm & L & HL & _).
  exists m, A, B. split; [exact Hr|].
  pose proof (matching_ok_is_matching g m Hm) as His.
  split; [exact His|].
  split; [exact (final_layering_maximum g m L Hwf Hm HL)|].
  pose proof (matching_keys_in g m P Hm Hin) as Hincl.
  assert (Hnd : NoDup (map value (dict_keys m))) by apply Hm.
  assert (Hle : length m <= length P).
  { pose proof (NoDup_incl_length Hnd Hincl) as H.
    unfold dict_keys in H. rewrite !length_map in H. exact H. }
  split; [exact Hle|].
  intros Hno. destruct (Nat.eq_dec (length m) (length P)) as [E|]; [|lia].
  exfalso. apply Hno. exists (pairs m). split; [exact His|].
  intros p Hp. rewrite pairs_snd.
  assert (Hrev : incl (map value P) (map value (dict_keys m))).
  { apply NoDup_length_incl; auto.
    unfold dict_keys. rewrite !length_map. lia. }
  apply Hrev, in_map, Hp.
Qed.

(** C3: in the graph built by [CreateBigraph] no participant is a candidate
    of themself, by content and not only by object identity, and for an
    exclusion pair neither member is a candidate of the other. *)
Theorem CreateBigraph_respects_exclusions att couples :
  wf att ->
  forall p l q, In (p, l) (CreateBigraph att couples) -> In q l ->
    value q <> value p /\
    forall a b, In (a, b) couples ->
      ~ (value a = value p /\ value b = value q) /\
      ~ (value a = value q /\ value b = value p).
Proof. apply CreateBigraph_excludes. Qed.

(** C4: the matching computed for the graph of [CreateBigraph] never pairs
    the two members of an exclusion pair, in either direction and whatever
    the order in which the pair is listed. *)
Theorem no_excluded_pair_is_matched att couples :
  wf att ->
  exists m A B,
    BipartiteMatch (CreateBigraph att couples) = Ret (m, A, B) /\
    forall a b, In (a, b) couples ->
    forall v u, In (v, u) m ->
      ~ (value v = value a /\ value u = value b) /\
      ~ (value v = value b /\ value u = value a).
Proof.
  intros Hwf.
  destruct (BipartiteMatch_ok (CreateBigraph att couples)
              (CreateBigraph_wf att couples))
    as (m & A & B & Hr & (Hwfm & Hedge & _) & _).
  exists m, A, B. split; [exact Hr|].
  intros a b Hc v u Hin.
  destruct (Hedge v u (in_get _ _ _ Hwfm Hin)) as (l & Hl & Hvl).
  apply get_in in Hl. destruct Hl as (k' & Hk' & Ek).
  apply vin_in in Hvl. destruct Hvl as (v0 & Hv0 & Ev).
  destruct (CreateBigraph_excludes att couples Hwf k' l v0 Hk' Hv0) as [_ H].
  destruct (H a b Hc) as [H1 H2]. rewrite Ek, Ev in H1, H2.
  split; intros [E1 E2]; [apply H2 | apply H1]; auto.
Qed.


End Claims.

(** *** Determinism *)

Lemma BipartiteMatch_same_runtime (R1 R2 : PyRuntime) g :
  (forall o, @value R1 o = @value R2 o) ->
  (forall l, @order R1 l = @order R2 l) ->
  @BipartiteMatch R1 g = @BipartiteMatch R2 g.
Proof.
  intros Hv Ho.
  apply functional_extensionality in Hv.
  apply functional_extensionality in Ho.
  destruct R1 as [v1 o1 p1 s1 q1], R2 as [v2 o2 p2 s2 q2].
  simpl in Hv, Ho. subst v2 o2.
  reflexivity.
Qed.

Lemma contents_same_runtime (R1 R2 : PyRuntime) g :
  (forall o, @value R1 o = @value R2 o) ->
  @contents R1 g = @contents R2 g.
Proof.
  intros Hv. unfold contents. apply map_ext. intros [k l]. simpl.
  rewrite Hv. f_equal. apply map_ext. exact Hv.
Qed.

(** C8: [BipartiteMatch] draws no randomness.  On the same graph, two runs
    return matchings of the same size, even when the dictionaries are
    iterated in different orders; when they are iterated in the same order
    the two runs return the same pairing (and the same two vertex lists). *)
Theorem BipartiteMatch_deterministic (R1 R2 : PyRuntime) g :
  (forall o, @value R1 o = @value R2 o) ->
  @wf R1 _ g ->
  (exists m1 A1 B1 m2 A2 B2,
     @BipartiteMatch R1 g = Ret (m1, A1, B1) /\
     @BipartiteMatch R2 g = Ret (m2, A2, B2) /\
     length m1 = length m2) /\
  ((forall l, @order R1 l = @order R2 l) ->
   @BipartiteMatch R1 g = @BipartiteMatch R2 g).
Proof.
  intros Hv Hwf1. split.
  - assert (Hwf2 : @wf R2 _ g).
    { unfold wf in *. rewrite <- (map_ext _ _ Hv). exact Hwf1. }
    destruct (@BipartiteMatch_spec R1 g Hwf1)
      as (m1 & A1 & B1 & Hr1 & _ & _ & _ & Hs1).
    destruct (@BipartiteMatch_spec R2 g Hwf2)
      as (m2 & A2 & B2 & Hr2 & _ & _ & _ & Hs2).
    exists m1, A1, B1, m2, A2, B2. repeat split; auto.
    rewrite Hs1, Hs2. unfold max_matching_size.
    rewrite (contents_same_runtime R1 R2 g Hv). reflexivity.
  - intros Ho. apply BipartiteMatch_same_runtime; auto.
Qed.

(** ** The pipeline of [main] *)

Section Pipeline.
Context {RT : PyRuntime}.

Lemma interned_incl l l' : incl l' l -> interned l -> interned l'.
Proof. intros Hi H a b Ha Hb. apply H; apply Hi; assumption. Qed.

Lemma CreateBigraph_objs att couples :
  wf att -> objs_preds (dict_keys att) (CreateBigraph att couples).
Proof.
  intros Hwf k l Hin.
  destruct (CreateBigraph_entry att couples k l Hwf Hin) as (Hk & _ & ->).
  split; auto. intros q Hq. unfold allowed in Hq. apply filter_In in Hq.
  apply in_shuffle_iter. apply Hq.
Qed.

Lemma matching_values_in g m :
  matching_ok g m ->
  incl (map value (dict_values m)) (map value (dict_keys g)).
Proof.
  intros (Hwf & Hedge & _) s Hs. apply in_map_iff in Hs.
  destruct Hs as (u & <- & Hu). unfold dict_values in Hu.
  apply in_map_iff in Hu. destruct Hu as ([v u'] & <- & Hin). simpl.
  apply mem_vin. eapply edge_mem. apply (Hedge v u'). apply in_get; auto.
Qed.

(** When the constraints leave room for a complete assignment, the pipeline
    finds one and the validator accepts it. *)
Lemma pipeline_complete att couples :
  wf att ->
  (exists M, is_matching (contents (CreateBigraph att couples)) M /\
             length M = length att) ->
  exists m A B lengths,
    BipartiteMatch (CreateBigraph att couples) = Ret (m, A, B) /\
    complete (dict_keys att) m /\
    MakeSureEverybodyHasGift m = Ret lengths /\
    list_sum lengths = length att /\
    forall c, In c lengths -> c <> 1.
Proof.
  intros Hwf (M & HM & HlenM).
  set (g := CreateBigraph att couples) in *.
  assert (Hwfg : wf g) by apply CreateBigraph_wf.
  destruct (BipartiteMatch_spec g Hwfg) as (m & A & B & Hr & Hm & His & Hmax & _).
  pose proof (Hmax M HM) as Hge. rewrite HlenM in Hge.
  assert (Hlen_att : length (map value (dict_keys att)) = length att).
  { unfold dict_keys. rewrite !length_map. reflexivity. }
  assert (Hlen_k : length (map value (dict_keys m)) = length m).
  { unfold dict_keys. rewrite !length_map. reflexivity. }
  assert (Hlen_v : length (map value (dict_values m)) = length m).
  { unfold dict_values. rewrite !length_map. reflexivity. }
  assert (Hkeys : incl (map value (dict_keys m)) (map value (dict_keys att))).
  { apply (matching_keys_in g m (dict_keys att) Hm).
    intros u l v Hin Hv. apply in_vin.
    apply (proj2 (CreateBigraph_objs att couples Hwf u l Hin)). exact Hv. }
  assert (Hvals : incl (map value (dict_values m)) (map value (dict_keys att))).
  { intros s Hs. apply (matching_values_in g m Hm) in Hs.
    apply in_map_iff in Hs. destruct Hs as (k & <- & Hk).
    apply in_map. apply (CreateBigraph_keys att couples). exact Hk. }
  pose proof Hm as (Hwfm & Hedge & Hinj).
  assert (Hndv : NoDup (map value (dict_values m)))
    by (apply matching_values_nodup; auto).
  assert (Hcomplete : complete (dict_keys att) m).
  { split; [exact Hwf|]. split; [exact Hwfm|]. split; [exact Hndv|]. split.
    - intros p. unfold vin. split; [|apply Hkeys].
      apply NoDup_length_incl; auto. lia.
    - intros p. unfold vin. split; [|apply Hvals].
      apply NoDup_length_incl; auto. lia. }
  assert (Hobjs : objs_m (dict_keys att) m).
  { eapply objs_BipartiteMatch; [|exact Hr]. apply CreateBigraph_objs. exact Hwf. }
  assert (Hint : interned (dict_keys m ++ dict_values m)).
  { apply (interned_incl (dict_keys att)); [|apply wf_interned; exact Hwf].
    intros x Hx. apply in_app_or in Hx. destruct Hx as [Hx|Hx].
    - unfold dict_keys in Hx. apply in_map_iff in Hx.
      destruct Hx as ([k y] & <- & Hin). apply (Hobjs k y Hin).
    - unfold dict_values in Hx. apply in_map_iff in Hx.
      destruct Hx as ([k y] & <- & Hin). apply (Hobjs k y Hin). }
  assert (Hns : no_self m).
  { intros k x Hin E.
    destruct (Hedge k x (in_get _ _ _ Hwfm Hin)) as (l & Hl & Hkl).
    apply get_in in Hl. destruct Hl as (k' & Hk' & Ek).
    apply vin_in in Hkl. destruct Hkl as (v0 & Hv0 & Ev).
    destruct (CreateBigraph_excludes att couples Hwf k' l v0 Hk' Hv0) as [Hne _].
    apply Hne. congruence. }
  destruct (MakeSureEverybodyHasGift_complete (dict_keys att) m Hcomplete Hint)
    as (lengths & Hv & Hsum & _ & Hnone).
  exists m, A, B, lengths. split; [exact Hr|]. split; [exact Hcomplete|].
  split; [exact Hv|]. split.
  - rewrite Hsum. unfold dict_keys. apply length_map.
  - apply Hnone. exact Hns.
Qed.


Lemma CreateBigraph_contents_edge att p q :
  wf att -> In p (dict_keys att) -> In q (dict_keys att) ->
  value p <> value q ->
  exists l, In (value p, l) (contents (CreateBigraph att [])) /\ In (value q) l.
Proof.
  intros Hwf Hp Hq Hne.
  destruct (CreateBigraph_complete att [] p q Hwf Hp Hq) as (l & Hl & Hql).
  { unfold excluded. simpl. rewrite !orb_false_r. apply py_is_false.
    intros ->. apply Hne. reflexivity. }
  apply get_in in Hl. destruct Hl as (k' & Hk' & Ek).
  exists (map value l). split.
  - unfold contents. apply in_map_iff. exists (k', l). simpl. rewrite Ek. auto.
  - apply in_map. exact Hql.
Qed.

(** C6, as the code has it: on a complete matching whose names are held by
    one string object each (the givers are the very objects of the keys, as
    in every matching the engine returns) the validator returns normally
    and what it prints are the lengths of disjoint cycles of the matching,
    each found by following the givers from a participant back to that
    participant, which together cover every participant; so the lengths add
    up to the number of participants.  With four participants and no
    exclusion the matching found covers all four, and the lengths add up to
    4 with none equal to 1. *)
Theorem MakeSureEverybodyHasGift_cycles P m att a b c d ea eb ec ed :
  complete P m -> interned (dict_keys m ++ dict_values m) ->
  att = [(a, ea); (b, eb); (c, ec); (d, ed)] -> wf att ->
  (exists cs,
     MakeSureEverybodyHasGift m = Ret (map (@length obj) cs) /\
     (forall cyc, In cyc cs -> is_cycle m cyc) /\
     NoDup (map value (concat cs)) /\
     (forall p, vin p P <-> vin p (concat cs)) /\
     list_sum (map (@length obj) cs) = length P /\
     (no_self m -> forall cyc, In cyc cs -> length cyc <> 1)) /\
  (exists m4 A B lengths,
     BipartiteMatch (CreateBigraph att []) = Ret (m4, A, B) /\
     complete (dict_keys att) m4 /\
     MakeSureEverybodyHasGift m4 = Ret lengths /\
     list_sum lengths = 4 /\
     forall n, In n lengths -> n <> 1).
Proof.
  intros Hc Hint Hatt Hwf. split.
  - apply MakeSureEverybodyHasGift_decomposes; assumption.
  - destruct (pipeline_complete att [] Hwf) as (m4 & A & B & lengths & H).
    + pose proof Hwf as Hnd. unfold wf in Hnd. rewrite Hatt in Hnd. simpl in Hnd.
      assert (Hk : dict_keys att = [a; b; c; d]) by (rewrite Hatt; reflexivity).
      inversion Hnd as [|? ? Ha Hnd1]; subst.
      inversion Hnd1 as [|? ? Hb Hnd2]; subst.
      inversion Hnd2 as [|? ? Hcc Hnd3]; subst.
      simpl in Ha, Hb, Hcc.
      exists [(value a, value b); (value b, value c);
              (value c, value d); (value d, value a)].
      split; [|reflexivity]. split; [|split].
      * exact Hnd.
      * simpl. eapply Permutation_NoDup; [|exact Hnd].
        change [value a; value b; value c; value d]
          with ([value a] ++ [value b; value c; value d]).
        change [value b; value c; value d; value a]
          with ([value b; value c; value d] ++ [value a]).
        apply Permutation_app_comm.
      * intros x y Hin. simpl in Hin.
        destruct Hin as [E|[E|[E|[E|[]]]]]; inversion E; subst x y;
          apply CreateBigraph_contents_edge; auto;
          rewrite ?Hk; simpl; auto; intuition congruence.
    + exists m4, A, B, lengths. rewrite Hatt in H. simpl in H.
      rewrite Hatt. exact H.
Qed.

End Pipeline.

(** ** What [CreateBigraph] accepts *)

Section Builder.
Context {RT : PyRuntime}.

Lemma in_couples_cons p q a b couples :
  in_couples p q ((a, b) :: couples) =
  (py_eq a p && py_eq b q) || in_couples p q couples.
Proof. reflexivity. Qed.

Lemma excluded_unknown (att : dict string) a b couples p q :
  In p (dict_keys att) -> In q (dict_keys att) ->
  ~ vin a (dict_keys att) \/ ~ vin b (dict_keys att) ->
  excluded p q ((a, b) :: couples) = excluded p q couples.
Proof.
  intros Hp Hq Hab. unfold excluded. rewrite !in_couples_cons.
  assert (H1 : py_eq a p && py_eq b q = false).
  { apply andb_false_iff. destruct Hab as [H|H]; [left | right];
      apply py_eq_false; intros E; apply H.
    - apply (vin_congr p a _ (eq_sym E)). apply in_vin. exact Hp.
    - apply (vin_congr q b _ (eq_sym E)). apply in_vin. exact Hq. }
  assert (H2 : py_eq a q && py_eq b p = false).
  { apply andb_false_iff. destruct Hab as [H|H]; [left | right];
      apply py_eq_false; intros E; apply H.
    - apply (vin_congr q a _ (eq_sym E)). apply in_vin. exact Hq.
    - apply (vin_congr p b _ (eq_sym E)). apply in_vin. exact Hp. }
  rewrite H1, H2. reflexivity.
Qed.

Lemma candidates_ext p1 c1 c2 : forall ps g,
  (forall p2, In p2 ps -> excluded p1 p2 c1 = excluded p1 p2 c2) ->
  candidates p1 ps c1 g = candidates p1 ps c2 g.
Proof.
  induction ps as [|p2 ps IH]; intros g H; simpl; auto.
  rewrite (H p2 (or_introl eq_refl)). apply IH.
  intros x Hx. apply H. right. exact Hx.
Qed.

Lemma bigraph_from_ext c1 c2 rand : forall us g,
  (forall p1 p2, In p1 us -> In p2 rand ->
     excluded p1 p2 c1 = excluded p1 p2 c2) ->
  bigraph_from c1 rand us g = bigraph_from c2 rand us g.
Proof.
  unfold bigraph_from.
  induction us as [|p1 us IH]; intros g H; simpl; auto.
  rewrite (candidates_ext p1 c1 c2 rand g).
  - apply IH. intros x y Hx Hy. apply H; auto. right. exact Hx.
  - intros p2 Hp2. apply H; auto. left. reflexivity.
Qed.

Lemma CreateBigraph_small att couples :
  length att < 2 -> CreateBigraph att couples = [].
Proof.
  intros Hlen. unfold CreateBigraph.
  destruct att as [|[p e] [|e2 att]]; simpl in Hlen; try lia.
  - assert (E : dict_iter (@nil (obj * string)) = []).
    { apply length_zero_iff_nil. rewrite iter_length. reflexivity. }
    rewrite E. reflexivity.
  - assert (E : dict_iter [(p, e)] = [p]).
    { unfold dict_iter. simpl. apply Permutation_length_1_inv.
      apply Permutation_sym, order_perm. }
    rewrite E.
    assert (E' : shuffle [p] = [p]).
    { apply Permutation_length_1_inv. apply Permutation_sym, shuffle_perm. }
    rewrite E'. simpl. unfold excluded.
    rewrite (proj2 (py_is_true p p) eq_refl). reflexivity.
Qed.

Lemma mails_outcome att m : forall rs,
  (exists sent, mails att m rs = Ret sent) \/ mails att m rs = Raise KeyError.
Proof.
  induction rs as [|r rs IH]; simpl; eauto.
  unfold dict_lookup. destruct (dict_get r m); [|right; reflexivity].
  cbn [bind]. destruct (dict_get r att); [|right; reflexivity].
  cbn [bind]. destruct IH as [[sent ->]| ->]; cbn [bind]; eauto.
Qed.

(** C7 (amended): [CreateBigraph] itself never fails and validates nothing.
    The only check is the assertion of [main], which fails, with an
    [AssertionError], exactly when fewer than 2 participants are supplied;
    an exclusion pair that names an unknown participant is ignored, and the
    graph built for fewer than 2 participants is empty. *)
Theorem CreateBigraph_never_fails att couples :
  (main att couples = Raise AssertionError <-> length att < 2) /\
  (forall a b,
     ~ vin a (dict_keys att) \/ ~ vin b (dict_keys att) ->
     CreateBigraph att ((a, b) :: couples) = CreateBigraph att couples) /\
  (length att < 2 -> CreateBigraph att couples = []).
Proof.
  split; [|split].
  - unfold main. destruct (1 <? length att) eqn:E.
    + apply Nat.ltb_lt in E. split; [|lia]. intros H. exfalso.
      destruct (BipartiteMatch_ok (CreateBigraph att couples)
                  (CreateBigraph_wf att couples))
        as (m & A & B & Hr & Hm & _).
      rewrite Hr in H. cbn [bind fst] in H.
      unfold MakeSureEverybodyHasGift in H.
      destruct (cycles_outcome (S (length m)) m [] (proj1 Hm))
        as [(r & Hc & _)|Hc]; [lia | | rewrite Hc in H; discriminate].
      rewrite Hc in H. cbn [bind] in H.
      destruct (mails_outcome att m (dict_iter m)) as [[sent Hs]|Hs];
        rewrite Hs in H; discriminate.
    + apply Nat.ltb_ge in E. split; [lia | reflexivity].
  - intros a b Hab.
    change (bigraph_from ((a, b) :: couples) (shuffle (dict_iter att))
              (dict_iter att) [] =
            bigraph_from couples (shuffle (dict_iter att)) (dict_iter att) []).
    apply bigraph_from_ext. intros p1 p2 H1 H2.
    apply (excluded_unknown att); auto.
    + apply iter_in. exact H1.
    + apply in_shuffle_iter. exact H2.
  - apply CreateBigraph_small.
Qed.

End Builder.

(** * Instances on the concrete runtime *)

Ltac nodup_strings :=
  repeat constructor; simpl; intuition discriminate.

Lemma wf_g3 : wf (RT:=rt0) g3.
Proof. unfold wf. simpl. nodup_strings. Qed.

Lemma wf_att4 : wf (RT:=rt0) att4.
Proof. unfold wf. simpl. nodup_strings. Qed.

Lemma wf_att2 : wf (RT:=rt0) att2.
Proof. unfold wf. simpl. nodup_strings. Qed.

Lemma wf_m1 : wf (RT:=rt0) m1.
Proof. unfold wf. simpl. nodup_strings. Qed.

Lemma complete_m3 : complete (RT:=rt0) P3 m3.
Proof.
  unfold complete, wf, vin. simpl.
  repeat split; try nodup_strings; intuition.
Qed.

Lemma interned_m3 : interned (RT:=rt0) (dict_keys m3 ++ dict_values m3).
Proof.
  intros a b Ha Hb. simpl in Ha, Hb.
  repeat (destruct Ha as [<-|Ha]); try contradiction;
    repeat (destruct Hb as [<-|Hb]); try contradiction;
    simpl; intros E; try reflexivity; discriminate.
Qed.

Lemma BipartiteMatch_maximum_witness :
  wf (RT:=rt0) g3 /\
  exists m A B,
    BipartiteMatch (RT:=rt0) g3 = Ret (m, A, B) /\
    is_matching (contents (RT:=rt0) g3) (pairs (RT:=rt0) m) /\
    (forall M, is_matching (contents (RT:=rt0) g3) M -> length M <= length m) /\
    length m = max_matching_size (RT:=rt0) g3.
Proof.
  split; [exact wf_g3 | exact (BipartiteMatch_maximum (RT:=rt0) g3 wf_g3)].
Defined.


Lemma BipartiteMatch_injective_on_edges_witness :
  wf (RT:=rt0) g3 /\
  exists m A B,
    BipartiteMatch (RT:=rt0) g3 = Ret (m, A, B) /\
    wf (RT:=rt0) m /\
    (forall v u, In (v, u) m ->
       exists l, dict_get (RT:=rt0) u g3 = Some l /\ vin (RT:=rt0) v l) /\
    (forall v1 u1 v2 u2, In (v1, u1) m -> In (v2, u2) m ->
       value (PyRuntime:=rt0) u1 = value (PyRuntime:=rt0) u2 ->
       (v1, u1) = (v2, u2)).
Proof.
  split; [exact wf_g3 |
          exact (BipartiteMatch_injective_on_edges (RT:=rt0) g3 wf_g3)].
Defined.

Lemma g3_within_P3 :
  forall u l v, In (u, l) g3 -> In v l -> vin (RT:=rt0) v P3.
Proof.
  intros u l v Hin Hv. unfold vin. simpl in Hin.
  destruct Hin as [E|[E|[E|[]]]]; inversion E; subst u l; simpl in Hv;
    repeat (destruct Hv as [<-|Hv]; [simpl; tauto|]); contradiction.
Qed.

Lemma nodup_P3 : NoDup (map (value (PyRuntime:=rt0)) P3).
Proof. simpl. nodup_strings. Qed.

Lemma CreateBigraph_respects_exclusions_witness :
  value (PyRuntime:=rt0) 3 <> value (PyRuntime:=rt0) 0 /\
  forall a b, In (a, b) [(0, 1)] ->
    ~ (value (PyRuntime:=rt0) a = value (PyRuntime:=rt0) 0 /\
       value (PyRuntime:=rt0) b = value (PyRuntime:=rt0) 3) /\
    ~ (value (PyRuntime:=rt0) a = value (PyRuntime:=rt0) 3 /\
       value (PyRuntime:=rt0) b = value (PyRuntime:=rt0) 0).
Proof.
  apply (CreateBigraph_respects_exclusions (RT:=rt0) att4 [(0, 1)] wf_att4
           0 [3; 2] 3).
  - vm_compute. left. reflexivity.
  - left. reflexivity.
Defined.

Lemma no_excluded_pair_is_matched_witness :
  exists m A B,
    BipartiteMatch (RT:=rt0) (CreateBigraph (RT:=rt0) att4 [(0, 1)]) =
      Ret (m, A, B) /\
    forall a b, In (a, b) [(0, 1)] ->
    forall v u, In (v, u) m ->
      ~ (value (PyRuntime:=rt0) v = value (PyRuntime:=rt0) a /\
         value (PyRuntime:=rt0) u = value (PyRuntime:=rt0) b) /\
      ~ (value (PyRuntime:=rt0) v = value (PyRuntime:=rt0) b /\
         value (PyRuntime:=rt0) u = value (PyRuntime:=rt0) a).
Proof.
  exact (no_excluded_pair_is_matched (RT:=rt0) att4 [(0, 1)] wf_att4).
Defined.

Lemma MakeSureEverybodyHasGift_cycles_witness :
  (exists cs,
     MakeSureEverybodyHasGift (RT:=rt0) m3 = Ret (map (@length obj) cs) /\
     (forall cyc, In cyc cs -> is_cycle (RT:=rt0) m3 cyc) /\
     NoDup (map (value (PyRuntime:=rt0)) (concat cs)) /\
     (forall p, vin (RT:=rt0) p P3 <-> vin (RT:=rt0) p (concat cs)) /\
     list_sum (map (@length obj) cs) = length P3 /\
     (no_self (RT:=rt0) m3 -> forall cyc, In cyc cs -> length cyc <> 1)) /\
  (exists m4 A B lengths,
     BipartiteMatch (RT:=rt0) (CreateBigraph (RT:=rt0) att4 []) =
       Ret (m4, A, B) /\
     complete (RT:=rt0) (dict_keys att4) m4 /\
     MakeSureEverybodyHasGift (RT:=rt0) m4 = Ret lengths /\
     list_sum lengths = 4 /\
     forall n, In n lengths -> n <> 1).
Proof.
  exact (MakeSureEverybodyHasGift_cycles (RT:=rt0) P3 m3 att4 0 1 2 3
           "a@x" "b@x" "c@x" "d@x" complete_m3 interned_m3 eq_refl wf_att4).
Defined.

Lemma BipartiteMatch_deterministic_witness :
  (exists m1 A1 B1 m2 A2 B2,
     BipartiteMatch (RT:=rt0) g3 = Ret (m1, A1, B1) /\
     BipartiteMatch (RT:=rt1) g3 = Ret (m2, A2, B2) /\
     length m1 = length m2) /\
  ((forall l, order (PyRuntime:=rt0) l = order (PyRuntime:=rt1) l) ->
   BipartiteMatch (RT:=rt0) g3 = BipartiteMatch (RT:=rt1) g3).
Proof.
  exact (BipartiteMatch_deterministic rt0 rt1 g3 (fun o => eq_refl) wf_g3).
Defined.

Lemma m1_missing_entry :
  exists k x, In (k, x) m1 /\ ~ vin (RT:=rt0) x (dict_keys m1).
Proof.
  exists 0, 1. split; [left; reflexivity|].
  unfold vin. simpl. intuition discriminate.
Qed.

Lemma MakeSureEverybodyHasGift_missing_entry_witness :
  MakeSureEverybodyHasGift (RT:=rt0) m1 = Raise KeyError.
Proof.
  exact (MakeSureEverybodyHasGift_missing_entry (RT:=rt0) m1 wf_m1
           m1_missing_entry).
Defined.

(** C2, as stated, fails on the matching [{A: B}], in which B has no
    assigned giver: the validator does raise, but what it raises is the
    [KeyError] of the failed lookup and nothing else.  It fails as well on
    the participants [{A, B}] with the exclusion pair [(A, B)]: the engine
    returns the empty matching, and on it the validator returns normally. *)
Lemma validator_raises_the_lookup_failure :
  ((exists k x, In (k, x) m1 /\ ~ vin (RT:=rt0) x (dict_keys m1)) /\
   ~ (exists e, MakeSureEverybodyHasGift (RT:=rt0) m1 = Raise e /\
                e <> KeyError)) /\
  (BipartiteMatch (RT:=rt0) (CreateBigraph (RT:=rt0) att2 [(0, 1)]) =
     Ret ([], [], []) /\
   MakeSureEverybodyHasGift (RT:=rt0) [] = Ret []).
Proof.
  split; [split; [exact m1_missing_entry|] | split; vm_compute; reflexivity].
  intros (e & H & Hne). vm_compute in H. inversion H. congruence.
Qed.

Lemma CreateBigraph_omits_empty_witness :
  (forall p, In p (dict_keys att2) ->
     (forall q, In q (dict_keys att2) ->
        value (PyRuntime:=rt0) q <> value (PyRuntime:=rt0) p ->
        exists a b, In (a, b) [(0, 1)] /\
          ((value (PyRuntime:=rt0) a = value (PyRuntime:=rt0) p /\
            value (PyRuntime:=rt0) b = value (PyRuntime:=rt0) q) \/
           (value (PyRuntime:=rt0) a = value (PyRuntime:=rt0) q /\
            value (PyRuntime:=rt0) b = value (PyRuntime:=rt0) p))) ->
     dict_mem (RT:=rt0) p (CreateBigraph (RT:=rt0) att2 [(0, 1)]) = false) /\
  (forall p l, In (p, l) (CreateBigraph (RT:=rt0) att2 [(0, 1)]) -> l <> []) /\
  (forall a b ea eb a' b',
     att2 = [(a, ea); (b, eb)] ->
     In (a', b') [(0, 1)] ->
     value (PyRuntime:=rt0) a' = value (PyRuntime:=rt0) a ->
     value (PyRuntime:=rt0) b' = value (PyRuntime:=rt0) b ->
     CreateBigraph (RT:=rt0) att2 [(0, 1)] = []).
Proof.
  exact (CreateBigraph_omits_empty (RT:=rt0) att2 [(0, 1)] wf_att2).
Defined.

(** C7, as stated, fails on the participants [{A, B}] with the exclusion
    pair [(A, Z)]: the pair names the unknown participant Z, and neither the
    builder nor [main] fails.  It fails as well on the single participant
    [{A}]: the builder returns a graph, and the error comes from the
    assertion of [main]. *)
Lemma unknown_participant_is_accepted :
  ((exists a b, In (a, b) [(0, 4)] /\ ~ vin (RT:=rt0) b (dict_keys att2)) /\
   main (RT:=rt0) att2 [(0, 4)] =
     Ret ([2], [(1, 0, "b@x"%string); (0, 1, "a@x"%string)])) /\
  (length att1 < 2 /\
   CreateBigraph (RT:=rt0) att1 [] = [] /\
   main (RT:=rt0) att1 [] = Raise AssertionError).
Proof.
  split; [split | split; [simpl; lia | split; vm_compute; reflexivity]].
  - exists 0, 4. split; [left; reflexivity|].
    unfold vin. simpl. intuition discriminate.
  - vm_compute. reflexivity.
Qed.
(** ** [BipartiteMatch]: the independent set it returns *)

Section IndependentSet.
Context {RT : PyRuntime}.

Lemma unlayered_edges_mem preds : forall vs unl x,
  dict_mem x (unlayered_edges vs preds unl) = true <->
  dict_mem x unl = true \/ (vin x vs /\ dict_mem x preds = false).
Proof.
  induction vs as [|v vs IH]; intros unl x; cbn [unlayered_edges].
  - split; [auto|]. intros [H|[[] _]]. exact H.
  - rewrite IH. destruct (dict_mem v preds) eqn:Ev.
    + split.
      * intros [H|[H1 H2]]; auto. right. split; auto. right. exact H1.
      * intros [H|[[H1|H1] H2]]; auto.
        rewrite (mem_congr _ _ _ H1) in Ev. congruence.
    + rewrite mem_set. split.
      * intros [H|[H1 H2]].
        -- apply orb_true_iff in H. destruct H as [H|H]; auto.
           apply py_eq_true in H. right. split; [left; exact H|].
           rewrite <- (mem_congr _ _ _ H). exact Ev.
        -- right. split; auto. right. exact H1.
      * intros [H|[[H1|H1] H2]].
        -- left. rewrite H. apply orb_true_r.
        -- left. apply orb_true_iff. left. apply py_eq_true. exact H1.
        -- right. split; auto.
Qed.

Lemma unlayered_edges_wf preds : forall vs unl,
  wf unl -> wf (unlayered_edges vs preds unl).
Proof.
  induction vs as [|v vs IH]; intros unl Hwf; cbn [unlayered_edges]; auto.
  apply IH. destruct (dict_mem v preds); auto. apply wf_set. exact Hwf.
Qed.

Lemma unlayered_spec g preds : forall us unl unl',
  unlayered g us preds unl = Ret unl' ->
  (wf unl -> wf unl') /\
  forall x, dict_mem x unl' = true <->
    dict_mem x unl = true \/
    (exists u l, In u us /\ dict_get u g = Some l /\ vin x l /\
                 dict_mem x preds = false).
Proof.
  induction us as [|u us IH]; intros unl unl' Hr; cbn [unlayered] in Hr.
  - inversion Hr; subst unl'. split; auto. intros x. split; auto.
    intros [H|(u & l & [] & _)]. exact H.
  - unfold dict_lookup in Hr. destruct (dict_get u g) as [l|] eqn:El;
      cbn [bind] in Hr; [|discriminate].
    destruct (IH _ _ Hr) as [Hwf Hmem]. split.
    + intros H. apply Hwf. apply unlayered_edges_wf. exact H.
    + intros x. rewrite Hmem, unlayered_edges_mem. split.
      * intros [[H|[H1 H2]]|(u' & l' & Hu' & Hl' & H1 & H2)]; auto.
        -- right. exists u, l. split; [left; reflexivity|]. auto.
        -- right. exists u', l'. split; [right; exact Hu'|]. auto.
      * intros [H|(u' & l' & [Hu'|Hu'] & Hl' & H1 & H2)]; auto.
        -- subst u'. rewrite El in Hl'. inversion Hl'; subst l'. auto.
        -- right. exists u', l'. auto.
Qed.

(** What the last pass of the [while 1] loop has computed. *)
Lemma phases_returns g : forall fuel m m' A B,
  phases fuel g m = Ret (m', A, B) ->
  exists L unl,
    layer_phase g m' = Ret L /\ l_unmatched L = [] /\
    unlayered g (dict_iter g) (l_preds L) [] = Ret unl /\
    A = dict_iter (l_pred L) /\ B = dict_iter unl.
Proof.
  induction fuel as [|f IH]; intros m m' A B Hr; cbn [phases] in Hr.
  - discriminate.
  - destruct (layer_phase g m) as [L| |] eqn:EL; cbn [bind] in Hr;
      try discriminate.
    destruct (l_unmatched L) as [|v0 rest] eqn:Hun.
    + destruct (unlayered g (dict_iter g) (l_preds L) []) as [unl| |] eqn:Eu;
        cbn [bind] in Hr; try discriminate.
      inversion Hr; subst m' A B. exists L, unl. auto.
    + destruct (augment (v0 :: rest) _) as [s| |] eqn:Ea; cbn [bind] in Hr;
        try discriminate.
      apply (IH _ _ _ _ Hr).
Qed.

(** The result of [BipartiteMatch] with the layering it stopped on. *)
Lemma BipartiteMatch_final g :
  wf g ->
  exists m L (unl : dict unit),
    BipartiteMatch g = Ret (m, dict_iter (l_pred L), dict_iter unl) /\
    matching_ok g m /\ final_layering g m L /\
    wf unl /\
    forall x, dict_mem x unl = true <->
      exists u, edge g u x /\ dict_mem x (l_preds L) = false.
Proof.
  intros Hwf.
  destruct (BipartiteMatch_ok g Hwf) as (m & A & B & Hr & Hm & _).
  pose proof Hr as Hr'. unfold BipartiteMatch in Hr'.
  destruct (greedy g (dict_iter g) []) as [m0| |]; cbn [bind] in Hr';
    try discriminate.
  destruct (phases_returns g _ _ _ _ _ Hr') as (L & unl & HL & Hun & Hu & -> & ->).
  destruct (layer_phase_ok g m Hwf Hm) as (L' & HL' & Hinv & Hstop).
  rewrite HL in HL'. inversion HL'; subst L'.
  destruct (unlayered_spec g _ _ _ _ Hu) as [Hwfu Hmem].
  exists m, L, unl. split; [exact Hr|]. split; [exact Hm|]. split.
  - split; [exact Hinv|]. split; [|exact Hun].
    destruct Hstop as [H|H]; [exact H|congruence].
  - split; [apply Hwfu, wf_nil|]. intros x. rewrite Hmem. split.
    + intros [H|(u & l & Hu' & Hl & Hx & Hp)]; [discriminate|].
      exists u. split; auto. exists l. auto.
    + intros (u & (l & Hl & Hx) & Hp). right.
      destruct (get_in _ _ _ Hl) as (k' & Hin & Ek).
      exists k', l. split; [apply iter_in; eapply in_keys; exact Hin|].
      split; auto. rewrite (get_congr _ _ _ Ek). exact Hl.
Qed.

Lemma length_key_values {X} (d : dict X) :
  length (map value (dict_keys d)) = length d.
Proof. unfold dict_keys. rewrite !length_map. reflexivity. Qed.

Lemma same_length {A} (l1 l2 : list A) :
  NoDup l1 -> NoDup l2 -> (forall x, In x l1 <-> In x l2) ->
  length l1 = length l2.
Proof.
  intros H1 H2 H. apply Permutation_length. apply NoDup_Permutation; auto.
Qed.

Lemma NoDup_map_filter {X Y : Type} (h : X -> Y) (keep : X -> bool) :
  forall xs : list X, NoDup (map h xs) -> NoDup (map h (filter keep xs)).
Proof.
  intros xs. induction xs as [|a xs IH]; simpl; intros H; [constructor|].
  inversion H as [|? ? Hn Hd]; subst. destruct (keep a); simpl; auto.
  constructor; auto. intros Hin. apply Hn. apply in_map_iff in Hin.
  destruct Hin as (x & E & Hx). apply filter_In in Hx. rewrite <- E.
  apply in_map. apply Hx.
Qed.

Lemma in_recipients g s :
  In s (recipients g) <->
  exists u l v, In (u, l) g /\ In v l /\ value v = s.
Proof.
  unfold recipients. rewrite nodup_In, in_concat. split.
  - intros (ls & Hls & Hs). apply in_map_iff in Hls.
    destruct Hls as ([u l] & <- & Hin). simpl in Hs. apply in_map_iff in Hs.
    destruct Hs as (v & E & Hv). exists u, l, v. auto.
  - intros (u & l & v & Hin & Hv & E). exists (map value l). split.
    + apply in_map_iff. exists (u, l). auto.
    + rewrite <- E. apply in_map. exact Hv.
Qed.

Lemma edge_recipient g u v : edge g u v -> In (value v) (recipients g).
Proof.
  intros (l & Hl & Hv). apply in_recipients.
  destruct (get_in _ _ _ Hl) as (k' & Hin & _).
  destruct (vin_in _ _ Hv) as (v' & Hv' & E). exists k', l, v'. auto.
Qed.

Lemma recipient_edge g s :
  wf g -> In s (recipients g) -> exists u v, edge g u v /\ value v = s.
Proof.
  intros Hwf H. apply in_recipients in H.
  destruct H as (u & l & v & Hin & Hv & E). exists u, v. split; auto.
  exists l. split; [apply in_get; auto | apply in_vin; exact Hv].
Qed.

(** A giver outside [pred] is matched with a recipient outside [preds], and
    the other way round. *)
Lemma final_unreached_giver g m L u :
  matching_ok g m -> final_layering g m L ->
  dict_mem u g = true -> dict_mem u (l_pred L) = false ->
  exists v u', In (v, u') m /\ value u' = value u /\
               dict_mem v (l_preds L) = false.
Proof.
  intros Hm (HL & Hlay & Hun) Hg Hu. pose proof Hm as (Hwf & Hedge & Hinj).
  destruct HL as [Iwfp Iwfps Ikeys Ilay Ifree Ipok Ivia Iback Iclosed Ireach Iunm
                  Ipsok Igu Igv].
  destruct (partner_spec m (value u) Hwf) as [(v & u' & Hin & E & _)|Hfree].
  - exists v, u'. split; [exact Hin|]. split; [exact E|].
    destruct (dict_mem v (l_preds L)) eqn:Ev; auto.
    assert (H : dict_mem u' (l_pred L) = true).
    { apply (Iback v u'); auto. apply in_get; auto. }
    rewrite (mem_congr _ _ _ E) in H. congruence.
  - assert (H : dict_get u (l_pred L) = Some Unmatched).
    { apply Ifree; [exact Hg | exact Hfree]. }
    apply mem_true_get in H. congruence.
Qed.

Lemma final_unreached_recipient g m L v u :
  matching_ok g m -> final_layering g m L ->
  dict_get v m = Some u -> dict_mem v (l_preds L) = false ->
  dict_mem u g = true /\ dict_mem u (l_pred L) = false.
Proof.
  intros Hm (HL & Hlay & Hun) Hv Hp. pose proof Hm as (Hwf & Hedge & Hinj).
  destruct HL as [Iwfp Iwfps Ikeys Ilay Ifree Ipok Ivia Iback Iclosed Ireach Iunm
                  Ipsok Igu Igv].
  split; [eapply edge_mem; apply (Hedge v u Hv)|].
  destruct (dict_get u (l_pred L)) as [[|w]|] eqn:Eu.
  - exfalso. apply (proj1 (Ipok u) Eu v u Hv). reflexivity.
  - exfalso. destruct (proj2 (Ipok u) w Eu) as (u' & Hw & E).
    assert (Ew : value w = value v) by (apply (Hinj w v u' u); auto).
    pose proof (Ivia u w Eu) as H. rewrite (mem_congr _ _ _ Ew) in H.
    congruence.
  - apply mem_false_get. exact Eu.
Qed.

(** Koenig's count on the last layering: the givers outside [pred] and the
    recipients inside [preds] are as many as the pairs of the matching. *)
Lemma final_cover_count g m L (unl : dict unit) :
  wf g -> matching_ok g m -> final_layering g m L -> wf unl ->
  (forall x, dict_mem x unl = true <->
     exists u, edge g u x /\ dict_mem x (l_preds L) = false) ->
  length (l_pred L) + length unl + length m =
  length g + length (recipients g).
Proof.
  intros Hwfg Hm HF Hwfu Hunl.
  pose proof Hm as (Hwf & Hedge & Hinj).
  pose proof HF as (HL & Hlay & Hun).
  destruct HL as [Iwfp Iwfps Ikeys Ilay Ifree Ipok Ivia Iback Iclosed Ireach Iunm
                  Ipsok Igu Igv].
  set (inp := fun u : obj => dict_mem u (l_pred L)).
  set (inps := fun e : obj * obj => dict_mem (fst e) (l_preds L)).
  assert (Ha : length (l_pred L) = length (filter inp (dict_keys g))).
  { rewrite <- (length_map value (filter inp (dict_keys g))).
    rewrite <- (length_key_values (l_pred L)).
    - apply same_length.
      + exact Iwfp.
      + apply NoDup_map_filter. exact Hwfg.
      + intros s. split; intros Hs; apply in_map_iff in Hs;
          destruct Hs as (k & <- & Hk).
        * assert (Hkp : dict_mem k (l_pred L) = true)
            by (apply mem_vin, in_vin; exact Hk).
          pose proof (Ikeys k Hkp) as Hkg. apply mem_vin, vin_in in Hkg.
          destruct Hkg as (k' & Hk' & E). rewrite <- E. apply in_map.
          apply filter_In. split; auto. unfold inp.
          rewrite (mem_congr _ _ _ E). exact Hkp.
        * apply filter_In in Hk. destruct Hk as [_ Hk]. unfold inp in Hk.
          apply mem_vin in Hk. exact Hk. }
  assert (Hb : length unl + length (l_preds L) = length (recipients g)).
  { rewrite <- (length_key_values unl), <- (length_key_values (l_preds L)).
    - rewrite <- length_app. apply same_length.
      + apply NoDup_app; [exact Hwfu | exact Iwfps |].
        intros a Ha1 Ha2. apply in_map_iff in Ha1.
        destruct Ha1 as (k & <- & Hk).
        assert (Hku : dict_mem k unl = true) by (apply mem_vin, in_vin; exact Hk).
        apply Hunl in Hku. destruct Hku as (_ & _ & Hku).
        apply mem_false_vin in Hku. apply Hku. exact Ha2.
      + apply NoDup_nodup.
      + intros s. rewrite in_app_iff. split.
        * intros [Hs|Hs]; apply in_map_iff in Hs; destruct Hs as (k & <- & Hk).
          -- assert (Hku : dict_mem k unl = true)
               by (apply mem_vin, in_vin; exact Hk).
             apply Hunl in Hku. destruct Hku as (u & He & _).
             eapply edge_recipient. exact He.
          -- assert (Hkp : dict_mem k (l_preds L) = true)
               by (apply mem_vin, in_vin; exact Hk).
             destruct (Igv k Hkp) as (n & u & rest & Hg & _).
             apply (edge_recipient g u k). apply (Ipsok k (u :: rest) u Hg).
             left. reflexivity.
        * intros Hs. destruct (recipient_edge g s Hwfg Hs) as (u & v & He & <-).
          destruct (dict_mem v (l_preds L)) eqn:Ev.
          -- right. apply mem_vin. exact Ev.
          -- left. apply (mem_vin v unl). apply Hunl. exists u. auto. }
  assert (Hc1 : length (l_preds L) = length (filter inps m)).
  { rewrite <- (length_map (fun e => value (fst e)) (filter inps m)).
    rewrite <- (length_key_values (l_preds L)).
    - apply same_length.
      + exact Iwfps.
      + apply NoDup_map_filter. unfold wf, dict_keys in Hwf.
        rewrite map_map in Hwf. exact Hwf.
      + intros s. split; intros Hs; apply in_map_iff in Hs.
        * destruct Hs as (k & <- & Hk).
          assert (Hkp : dict_mem k (l_preds L) = true)
            by (apply mem_vin, in_vin; exact Hk).
          destruct (Ireach k Hkp) as [H|H]; [|rewrite Hun in H; destruct H].
          apply mem_get in H. destruct H as (x & Hx).
          destruct (get_in _ _ _ Hx) as (k' & Hin & E).
          apply in_map_iff. exists (k', x). split; [exact E|].
          apply filter_In. split; auto. unfold inps. simpl.
          rewrite (mem_congr _ _ _ E). exact Hkp.
        * destruct Hs as ([k x] & <- & Hk). apply filter_In in Hk.
          destruct Hk as [_ Hk]. unfold inps in Hk. simpl in *.
          apply mem_vin in Hk. exact Hk. }
  assert (Hc2 : length (filter (fun u => negb (inp u)) (dict_keys g)) =
                length (filter (fun e => negb (inps e)) m)).
  { rewrite <- (length_map value (filter _ (dict_keys g))).
    rewrite <- (length_map (fun e => value (snd e)) (filter _ m)).
    apply same_length.
    - apply NoDup_map_filter. exact Hwfg.
    - apply NoDup_map_filter.
      pose proof (matching_values_nodup m Hwf Hinj) as H.
      unfold dict_values in H. rewrite map_map in H. exact H.
    - intros s. split; intros Hs; apply in_map_iff in Hs.
      + destruct Hs as (k & <- & Hk). apply filter_In in Hk.
        destruct Hk as [Hk Hn]. unfold inp in Hn. apply negb_true_iff in Hn.
        destruct (final_unreached_giver g m L k Hm HF) as (v & u' & Hin & E & Hv);
          auto.
        { apply mem_vin, in_vin. exact Hk. }
        apply in_map_iff. exists (v, u'). split; [exact E|].
        apply filter_In. split; auto. unfold inps. simpl. rewrite Hv. reflexivity.
      + destruct Hs as ([v u] & <- & Hk). apply filter_In in Hk.
        destruct Hk as [Hin Hn]. unfold inps in Hn. simpl in *.
        apply negb_true_iff in Hn.
        destruct (final_unreached_recipient g m L v u Hm HF) as [Hg Hp]; auto.
        { apply in_get; auto. }
        apply mem_vin, vin_in in Hg. destruct Hg as (k' & Hk' & E).
        rewrite <- E. apply in_map. apply filter_In. split; auto.
        unfold inp. rewrite (mem_congr _ _ _ E), Hp. reflexivity. }
  pose proof (filter_length inp (dict_keys g)) as H1.
  pose proof (filter_length inps m) as H2.
  assert (H3 : length (dict_keys g) = length g) by apply length_map.
  lia.
Qed.

(** Every pair of a matching has its giver outside [SU] or its recipient
    outside [SV], whatever the independent set. *)
Lemma independent_bound g m SU SV :
  wf g -> matching_ok g m ->
  NoDup SU -> NoDup SV -> incl SU (givers g) -> incl SV (recipients g) ->
  independent (contents g) SU SV ->
  length SU + length SV + length m <= length g + length (recipients g).
Proof.
  intros Hwfg Hm HnU HnV HiU HiV Hind.
  pose proof Hm as (Hwf & Hedge & Hinj).
  set (inU := fun a : string => if in_dec string_dec a SU then true else false).
  set (inV := fun b : string => if in_dec string_dec b SV then true else false).
  assert (HinU : forall a, inU a = true <-> In a SU).
  { intros a. unfold inU. destruct (in_dec string_dec a SU); split; auto.
    discriminate. }
  assert (HinV : forall a, inV a = true <-> In a SV).
  { intros a. unfold inV. destruct (in_dec string_dec a SV); split; auto.
    discriminate. }
  assert (HU : length SU = length (filter inU (givers g))).
  { apply same_length; auto.
    - apply NoDup_filter. exact Hwfg.
    - intros a. rewrite filter_In, HinU. split; [|tauto]. auto. }
  assert (HV : length SV = length (filter inV (recipients g))).
  { apply same_length; auto.
    - apply NoDup_filter. apply NoDup_nodup.
    - intros a. rewrite filter_In, HinV. split; [|tauto]. auto. }
  set (gU := fun e : obj * obj => inU (value (snd e))).
  assert (H1 : length (filter (fun e => negb (gU e)) m) <=
               length (filter (fun a => negb (inU a)) (givers g))).
  { rewrite <- (length_map (fun e => value (snd e)) (filter _ m)).
    apply NoDup_incl_length.
    - apply NoDup_map_filter.
      pose proof (matching_values_nodup m Hwf Hinj) as H.
      unfold dict_values in H. rewrite map_map in H. exact H.
    - intros a Ha. apply in_map_iff in Ha. destruct Ha as ([v u] & <- & Hk).
      apply filter_In in Hk. destruct Hk as [Hin Hn]. simpl in *.
      apply filter_In. split; [|exact Hn].
      apply (mem_vin u g). eapply edge_mem. apply (Hedge v u).
      apply in_get; auto. }
  assert (H2 : length (filter gU m) <=
               length (filter (fun b => negb (inV b)) (recipients g))).
  { rewrite <- (length_map (fun e => value (fst e)) (filter _ m)).
    apply NoDup_incl_length.
    - apply NoDup_map_filter. unfold wf, dict_keys in Hwf.
      rewrite map_map in Hwf. exact Hwf.
    - intros b Hb. apply in_map_iff in Hb. destruct Hb as ([v u] & <- & Hk).
      apply filter_In in Hk. destruct Hk as [Hin Hu]. unfold gU in Hu.
      simpl in *. apply HinU in Hu.
      pose proof (Hedge v u (in_get _ _ _ Hwf Hin)) as He.
      apply filter_In. split; [eapply edge_recipient; exact He|].
      apply negb_true_iff. destruct (inV (value v)) eqn:Ev; auto. exfalso.
      apply HinV in Ev. destruct He as (l & Hl & Hv).
      destruct (get_in _ _ _ Hl) as (k' & Hk' & Ek).
      apply (Hind (value u) (map value l) (value v)); auto.
      unfold contents. apply in_map_iff. exists (k', l). simpl.
      rewrite Ek. auto. }
  pose proof (filter_length inU (givers g)) as H3.
  pose proof (filter_length inV (recipients g)) as H4.
  pose proof (filter_length gU m) as H5.
  assert (H6 : length (givers g) = length g) by apply length_key_values.
  lia.
Qed.

(** X1: the lists [A] and [B] that [BipartiteMatch] returns beside the
    matching form an independent set of the graph: [A] holds givers, [B]
    holds recipients, neither repeats a name, and no giver of [A] may give
    to a recipient of [B]. *)
Theorem BipartiteMatch_independent_set g :
  wf g ->
  exists m A B,
    BipartiteMatch g = Ret (m, A, B) /\
    NoDup (map value A) /\ NoDup (map value B) /\
    (forall u, In u A -> dict_mem u g = true) /\
    (forall v, In v B -> exists u, edge g u v) /\
    (forall u v, In u A -> In v B -> ~ edge g u v).
Proof.
  intros Hwfg.
  destruct (BipartiteMatch_final g Hwfg) as (m & L & unl & Hr & Hm & HF & Hwfu & Hunl).
  exists m, (dict_iter (l_pred L)), (dict_iter unl).
  split; [exact Hr|].
  destruct HF as (HL & Hlay & Hun).
  destruct HL as [Iwfp Iwfps Ikeys Ilay Ifree Ipok Ivia Iback Iclosed Ireach Iunm
                  Ipsok Igu Igv].
  assert (HA : forall u, In u (dict_iter (l_pred L)) ->
                         dict_mem u (l_pred L) = true).
  { intros u Hu. apply mem_vin, in_vin, iter_in. exact Hu. }
  assert (HB : forall v, In v (dict_iter unl) ->
                 exists u, edge g u v /\ dict_mem v (l_preds L) = false).
  { intros v Hv. apply Hunl. apply mem_vin, in_vin, iter_in. exact Hv. }
  split; [apply iter_wf; exact Iwfp|]. split; [apply iter_wf; exact Hwfu|].
  split; [|split].
  - intros u Hu. apply Ikeys, HA. exact Hu.
  - intros v Hv. destruct (HB v Hv) as (u & He & _). exists u. exact He.
  - intros u v Hu Hv (l & Hl & Hvl).
    destruct (HB v Hv) as (_ & _ & Hp).
    destruct (vin_in _ _ Hvl) as (v' & Hv' & E).
    assert (H : dict_mem v' (l_preds L) = true).
    { apply (Iclosed u l v'); auto. rewrite Hlay. intros []. }
    rewrite (mem_congr _ _ _ E) in H. congruence.
Qed.

(** X2: the independent set [(A, B)] is a maximum one.  Together with the
    matching it accounts for every vertex (Koenig), and no independent set
    of the graph has more vertices. *)
Theorem BipartiteMatch_maximum_independent_set g :
  wf g ->
  exists m A B,
    BipartiteMatch g = Ret (m, A, B) /\
    length A + length B + length m = length g + length (recipients g) /\
    forall SU SV,
      NoDup SU -> NoDup SV ->
      incl SU (givers g) -> incl SV (recipients g) ->
      independent (contents g) SU SV ->
      length SU + length SV <= length A + length B.
Proof.
  intros Hwfg.
  destruct (BipartiteMatch_final g Hwfg) as (m & L & unl & Hr & Hm & HF & Hwfu & Hunl).
  exists m, (dict_iter (l_pred L)), (dict_iter unl).
  split; [exact Hr|].
  pose proof (final_cover_count g m L unl Hwfg Hm HF Hwfu Hunl) as Hc.
  rewrite !iter_length. split; [exact Hc|].
  intros SU SV HnU HnV HiU HiV Hind.
  pose proof (independent_bound g m SU SV Hwfg Hm HnU HnV HiU HiV Hind).
  lia.
Qed.

(** X3: nobody who is left without a match goes unreported: a giver matched
    with no recipient is in [A], a recipient matched with no giver is in
    [B]. *)
Theorem BipartiteMatch_reports_unmatched g :
  wf g ->
  exists m A B,
    BipartiteMatch g = Ret (m, A, B) /\
    (forall u, dict_mem u g = true -> free m u -> vin u A) /\
    (forall u v, edge g u v -> dict_mem v m = false -> vin v B).
Proof.
  intros Hwfg.
  destruct (BipartiteMatch_final g Hwfg) as (m & L & unl & Hr & Hm & HF & Hwfu & Hunl).
  exists m, (dict_iter (l_pred L)), (dict_iter unl).
  split; [exact Hr|].
  destruct HF as (HL & Hlay & Hun).
  destruct HL as [Iwfp Iwfps Ikeys Ilay Ifree Ipok Ivia Iback Iclosed Ireach Iunm
                  Ipsok Igu Igv].
  split.
  - intros u Hu Hf. apply iter_vin, mem_vin. eapply mem_true_get.
    apply (Ifree u Hu Hf).
  - intros u v He Hv. apply iter_vin, mem_vin. apply Hunl. exists u.
    split; [exact He|]. destruct (dict_mem v (l_preds L)) eqn:Ep; auto.
    destruct (Ireach v Ep) as [H|H]; [congruence|].
    rewrite Hun in H. destruct H.
Qed.

Lemma good_u_alternating g m L :
  matching_ok g m -> layer_inv g m L ->
  forall n u, good_u (l_pred L) (l_preds L) n u -> alternating g m u.
Proof.
  intros Hm HL.
  destruct HL as [Iwfp Iwfps Ikeys Ilay Ifree Ipok Ivia Iback Iclosed Ireach Iunm
                  Ipsok Igu Igv].
  induction n as [|n IH]; intros u Hu; simpl in Hu.
  - apply alt_free.
    + apply Ikeys. eapply mem_true_get. exact Hu.
    + apply (proj1 (Ipok u) Hu).
  - destruct Hu as (w & u' & rest & Hp & Hps & Hgood).
    destruct (proj2 (Ipok u) w Hp) as (x & Hx & Ex).
    apply (alt_step (u':=u') (v:=w) (x:=x)); auto.
    apply (Ipsok w (u' :: rest) u' Hps). left. reflexivity.
Qed.

Lemma alternating_reached g m L :
  matching_ok g m -> final_layering g m L ->
  forall u, alternating g m u -> dict_mem u (l_pred L) = true.
Proof.
  intros Hm (HL & Hlay & Hun).
  destruct HL as [Iwfp Iwfps Ikeys Ilay Ifree Ipok Ivia Iback Iclosed Ireach Iunm
                  Ipsok Igu Igv].
  intros u Hu. induction Hu as [u Hg Hf|u' v x u Hu' IH He Hv Ex].
  - eapply mem_true_get. apply (Ifree u Hg Hf).
  - destruct He as (l & Hl & Hvl). destruct (vin_in _ _ Hvl) as (v' & Hv' & Ev).
    assert (Hp : dict_mem v' (l_preds L) = true).
    { apply (Iclosed u' l v'); auto. rewrite Hlay. intros []. }
    rewrite (mem_congr _ _ _ Ev) in Hp.
    rewrite <- (mem_congr _ _ _ Ex). apply (Iback v x Hv Hp).
Qed.

(** X18: the two lists returned beside the matching are characterised by
    the alternating paths of the matching: [A] holds exactly the givers
    reached from an unmatched giver along an alternating path, and [B] holds
    exactly the recipients of the graph that are the candidate of no such
    giver. *)
Theorem BipartiteMatch_alternating_paths g :
  wf g ->
  exists m A B,
    BipartiteMatch g = Ret (m, A, B) /\
    (forall u, vin u A <-> alternating g m u) /\
    (forall v, vin v B <->
       (exists u, edge g u v) /\
       ~ (exists u, alternating g m u /\ edge g u v)).
Proof.
  intros Hwfg.
  destruct (BipartiteMatch_final g Hwfg) as (m & L & unl & Hr & Hm & HF & Hwfu & Hunl).
  exists m, (dict_iter (l_pred L)), (dict_iter unl).
  split; [exact Hr|].
  pose proof (alternating_reached g m L Hm HF) as Hreach.
  pose proof HF as (HL & Hlay & Hun).
  pose proof (good_u_alternating g m L Hm HL) as Hgood.
  destruct HL as [Iwfp Iwfps Ikeys Ilay Ifree Ipok Ivia Iback Iclosed Ireach Iunm
                  Ipsok Igu Igv].
  split.
  - intros u. rewrite iter_vin, <- mem_vin. split; [|apply Hreach].
    intros Hu. destruct (Igu u Hu) as (n & Hn). apply (Hgood n u Hn).
  - intros v. rewrite iter_vin, <- mem_vin, Hunl. split.
    + intros (u & He & Hp). split; [exists u; exact He|].
      intros (u0 & Ha & (l & Hl & Hvl)).
      destruct (vin_in _ _ Hvl) as (v' & Hv' & Ev).
      assert (H : dict_mem v' (l_preds L) = true).
      { apply (Iclosed u0 l v'); auto. rewrite Hlay. intros []. }
      rewrite (mem_congr _ _ _ Ev) in H. congruence.
    + intros ((u & He) & Hno). exists u. split; [exact He|].
      destruct (dict_mem v (l_preds L)) eqn:Ep; auto. exfalso. apply Hno.
      destruct (Igv v Ep) as (n & u0 & rest & Hps & Hn).
      exists u0. split; [apply (Hgood n u0 Hn)|].
      apply (Ipsok v (u0 :: rest) u0 Hps). left. reflexivity.
Qed.

End IndependentSet.
(** ** [BipartiteMatch]: more on the greedy initialisation and on objects *)

Section GreedyMaximal.
Context {RT : PyRuntime}.

Lemma greedy_inner_cases u : forall vs m,
  (greedy_inner u vs m = m /\ forall v, In v vs -> dict_mem v m = true) \/
  (exists v, In v vs /\ dict_mem v m = false /\
             greedy_inner u vs m = dict_set v u m).
Proof.
  induction vs as [|v vs IH]; intros m; cbn [greedy_inner].
  - left. split; [reflexivity|]. intros v [].
  - destruct (dict_mem v m) eqn:Ev.
    + destruct (IH m) as [[E H]|(v' & Hv' & Hm & E)].
      * left. split; auto. intros x [<-|Hx]; auto.
      * right. exists v'. split; [right; exact Hv'|]. auto.
    + right. exists v. split; [left; reflexivity|]. auto.
Qed.

Lemma greedy_scan g : forall us m m',
  greedy g us m = Ret m' ->
  (forall v x, dict_get v m = Some x -> dict_get v m' = Some x) /\
  (forall u l v, In u us -> dict_get u g = Some l -> In v l ->
     dict_mem v m' = true \/ exists v', dict_get v' m' = Some u).
Proof.
  induction us as [|u us IH]; intros m m' Hr; cbn [greedy] in Hr.
  - inversion Hr; subst m'. split; [auto|]. intros u l v [].
  - unfold dict_lookup in Hr. destruct (dict_get u g) as [l|] eqn:El;
      cbn [bind] in Hr; [|discriminate].
    destruct (IH _ _ Hr) as [Hmono Hus].
    assert (Hstep : forall v x, dict_get v m = Some x ->
                      dict_get v (greedy_inner u l m) = Some x).
    { intros v x Hv.
      destruct (greedy_inner_cases u l m) as [[E _]|(v0 & _ & Hm0 & E)];
        rewrite E; auto.
      rewrite get_set. case_eq_py v0 v; auto.
      rewrite (mem_congr _ _ m E0) in Hm0. apply mem_true_get in Hv.
      congruence. }
    split; [auto|].
    intros u' l' v [<-|Hu'] Hl' Hv; [|eapply Hus; eauto].
    rewrite El in Hl'. inversion Hl'; subst l'.
    destruct (greedy_inner_cases u l m) as [[E Hall]|(v0 & _ & Hm0 & E)].
    + left. pose proof (Hall v Hv) as H. apply mem_get in H.
      destruct H as (x & Hx). eapply mem_true_get. apply Hmono, Hstep.
      exact Hx.
    + right. exists v0. apply Hmono. rewrite E, get_set, py_eq_refl.
      reflexivity.
Qed.

(** X4: the greedy initialisation of [BipartiteMatch] yields a maximal
    matching: it is a matching of the graph, and every edge of the graph has
    its recipient or its giver matched. *)
Theorem greedy_matching_is_maximal g :
  wf g ->
  exists m0,
    greedy g (dict_iter g) [] = Ret m0 /\
    is_matching (contents g) (pairs m0) /\
    forall u v, edge g u v ->
      dict_mem v m0 = true \/
      exists v' u', dict_get v' m0 = Some u' /\ value u' = value u.
Proof.
  intros Hwf. destruct (greedy_start g Hwf) as (m0 & Hr & Hm0).
  exists m0. split; [exact Hr|]. split; [apply matching_ok_is_matching; exact Hm0|].
  intros u v (l & Hl & Hv).
  destruct (get_in _ _ _ Hl) as (k' & Hin & Ek).
  destruct (vin_in _ _ Hv) as (v' & Hv' & Ev).
  destruct (proj2 (greedy_scan g _ _ _ Hr) k' l v') as [H|(v1 & H)]; auto.
  - apply iter_in. eapply in_keys. exact Hin.
  - apply in_get; auto.
  - left. rewrite <- (mem_congr _ _ m0 Ev). exact H.
  - right. exists v1, k'. auto.
Qed.

(** X5: [BipartiteMatch] creates no object: every recipient and every giver
    of the matching it returns is one of the objects of the graph, not a
    copy with the same content. *)
Theorem BipartiteMatch_reuses_objects g :
  wf g ->
  exists m A B,
    BipartiteMatch g = Ret (m, A, B) /\
    forall v u, In (v, u) m -> In v (objects g) /\ In u (objects g).
Proof.
  intros Hwf. destruct (BipartiteMatch_ok g Hwf) as (m & A & B & Hr & _).
  exists m, A, B. split; [exact Hr|].
  apply (objs_BipartiteMatch (objects g) g m A B); [|exact Hr].
  intros k l Hin. unfold objects. split.
  - apply in_or_app. left. eapply in_keys. exact Hin.
  - intros x Hx. apply in_or_app. right. apply in_concat. exists l.
    split; auto. apply in_map_iff. exists (k, l). auto.
Qed.

End GreedyMaximal.
(** ** [CreateBigraph]: the graph it builds *)

Section BigraphFacts.
Context {RT : PyRuntime}.

Lemma excluded_sym p q couples : excluded p q couples = excluded q p couples.
Proof.
  unfold excluded, py_is. rewrite (Nat.eqb_sym p q).
  rewrite <- !orb_assoc. f_equal. apply orb_comm.
Qed.

Lemma excluded_ext p q c1 c2 :
  (forall a b, (In (a, b) c1 \/ In (b, a) c1) <->
               (In (a, b) c2 \/ In (b, a) c2)) ->
  excluded p q c1 = excluded p q c2.
Proof.
  intros H. unfold excluded. rewrite <- !orb_assoc. f_equal.
  assert (Hdir : forall c c',
            (forall a b, In (a, b) c \/ In (b, a) c ->
                         In (a, b) c' \/ In (b, a) c') ->
            in_couples p q c || in_couples q p c = true ->
            in_couples p q c' || in_couples q p c' = true).
  { intros c c' Hc Ht. apply orb_true_iff in Ht. apply orb_true_iff.
    destruct Ht as [Ht|Ht]; apply in_couples_true in Ht;
      destruct Ht as (a & b & Hin & Ea & Eb);
      destruct (Hc a b (or_introl Hin)) as [Hin'|Hin'].
    - left. apply in_couples_true. exists a, b. auto.
    - right. apply in_couples_true. exists b, a. auto.
    - right. apply in_couples_true. exists a, b. auto.
    - left. apply in_couples_true. exists b, a. auto. }
  destruct (in_couples p q c1 || in_couples q p c1) eqn:E1;
    destruct (in_couples p q c2 || in_couples q p c2) eqn:E2; auto.
  - rewrite (Hdir c1 c2) in E2; [discriminate| |exact E1].
    intros a b. apply H.
  - rewrite (Hdir c2 c1) in E1; [discriminate| |exact E2].
    intros a b. apply H.
Qed.

(** X6: [graph[p]] is the shuffled list of participants from which [p] and
    the participants excluded with [p] have been removed, in the shuffled
    order; when nobody is left, [p] has no entry. *)
Theorem CreateBigraph_candidates att couples p :
  wf att -> In p (dict_keys att) ->
  dict_get p (CreateBigraph att couples) =
  match filter (fun q => negb (excluded p q couples))
               (shuffle (dict_iter att)) with
  | [] => None
  | q :: l => Some (q :: l)
  end.
Proof.
  intros Hwf Hp. rewrite (CreateBigraph_get att couples p Hwf Hp).
  unfold allowed. destruct (filter _ _); reflexivity.
Qed.

Lemma CreateBigraph_edge_sym att couples p q :
  wf att ->
  edge (CreateBigraph att couples) p q ->
  edge (CreateBigraph att couples) q p.
Proof.
  intros Hwf (l & Hl & Hq).
  destruct (get_in _ _ _ Hl) as (p' & Hin & Ep).
  destruct (CreateBigraph_entry att couples p' l Hwf Hin) as (Hp' & _ & El).
  destruct (vin_in _ _ Hq) as (q' & Hq' & Eq).
  rewrite El in Hq'. unfold allowed in Hq'. apply filter_In in Hq'.
  destruct Hq' as [Hq' Hex]. apply in_shuffle_iter in Hq'.
  apply negb_true_iff in Hex. rewrite excluded_sym in Hex.
  destruct (CreateBigraph_complete att couples q' p' Hwf Hq' Hp' Hex)
    as (l' & Hl' & Hpl').
  apply (edge_congr _ q' q p' p Eq Ep). exists l'. split; auto.
  apply in_vin. exact Hpl'.
Qed.

(** X7: the graph is symmetric: if [q] is a candidate of [p] then [p] is a
    candidate of [q]. *)
Theorem CreateBigraph_symmetric att couples p q :
  wf att ->
  edge (CreateBigraph att couples) p q ->
  edge (CreateBigraph att couples) q p.
Proof. apply CreateBigraph_edge_sym. Qed.

(** X8: the exclusion pairs are unordered and form a set: two lists of
    couples that hold the same pairs, up to the order of the list, to
    repetitions and to the orientation of each pair, give the same graph. *)
Theorem CreateBigraph_couples_unordered att c1 c2 :
  (forall a b, (In (a, b) c1 \/ In (b, a) c1) <->
               (In (a, b) c2 \/ In (b, a) c2)) ->
  CreateBigraph att c1 = CreateBigraph att c2.
Proof.
  intros H. unfold CreateBigraph.
  apply (bigraph_from_ext c1 c2 (shuffle (dict_iter att)) (dict_iter att) []).
  intros p1 p2 _ _. apply excluded_ext. exact H.
Qed.

Lemma excluded_mono p q c1 c2 :
  incl c1 c2 -> excluded p q c1 = true -> excluded p q c2 = true.
Proof.
  intros Hi H. unfold excluded in *.
  apply orb_true_iff in H. destruct H as [H|H].
  - apply orb_true_iff in H. destruct H as [H|H].
    + rewrite H. reflexivity.
    + apply in_couples_true in H. destruct H as (a & b & Hin & Ea & Eb).
      apply orb_true_iff. left. apply orb_true_iff. right.
      apply in_couples_true. exists a, b. auto.
  - apply in_couples_true in H. destruct H as (a & b & Hin & Ea & Eb).
    apply orb_true_iff. right. apply in_couples_true. exists a, b. auto.
Qed.

Lemma CreateBigraph_edge_mono att c1 c2 p q :
  wf att -> incl c1 c2 ->
  edge (CreateBigraph att c2) p q -> edge (CreateBigraph att c1) p q.
Proof.
  intros Hwf Hi (l & Hl & Hq).
  destruct (get_in _ _ _ Hl) as (p' & Hin & Ep).
  destruct (CreateBigraph_entry att c2 p' l Hwf Hin) as (Hp' & _ & El).
  destruct (vin_in _ _ Hq) as (q' & Hq' & Eq).
  rewrite El in Hq'. unfold allowed in Hq'. apply filter_In in Hq'.
  destruct Hq' as [Hq' Hex]. apply in_shuffle_iter in Hq'.
  apply negb_true_iff in Hex.
  assert (Hex1 : excluded p' q' c1 = false).
  { destruct (excluded p' q' c1) eqn:E; auto.
    rewrite (excluded_mono p' q' c1 c2 Hi E) in Hex. discriminate. }
  destruct (CreateBigraph_complete att c1 p' q' Hwf Hp' Hq' Hex1)
    as (l' & Hl' & Hql').
  apply (edge_congr _ p' p q' q Ep Eq). exists l'. split; auto.
  apply in_vin. exact Hql'.
Qed.

(** X20: more couples never help: when every couple of [c1] is a couple of
    [c2], every edge of the graph built with [c2] is an edge of the graph
    built with [c1], and the matching found with [c2] has no more pairs
    than the matching found with [c1]. *)
Theorem more_couples_fewer_matches att c1 c2 :
  wf att -> incl c1 c2 ->
  (forall p q, edge (CreateBigraph att c2) p q ->
               edge (CreateBigraph att c1) p q) /\
  exists m1 A1 B1 m2 A2 B2,
    BipartiteMatch (CreateBigraph att c1) = Ret (m1, A1, B1) /\
    BipartiteMatch (CreateBigraph att c2) = Ret (m2, A2, B2) /\
    length m2 <= length m1.
Proof.
  intros Hwf Hi. split.
  { intros p q. apply CreateBigraph_edge_mono; auto. }
  destruct (BipartiteMatch_spec (CreateBigraph att c1) (CreateBigraph_wf att c1))
    as (m1 & A1 & B1 & Hr1 & _ & _ & Hmax1 & _).
  destruct (BipartiteMatch_spec (CreateBigraph att c2) (CreateBigraph_wf att c2))
    as (m2 & A2 & B2 & Hr2 & _ & (N1 & N2 & N3) & _ & _).
  exists m1, A1, B1, m2, A2, B2. split; [exact Hr1|]. split; [exact Hr2|].
  rewrite <- (length_pairs m2). apply Hmax1. split; [exact N1|].
  split; [exact N2|]. intros a b Hab.
  destruct (contents_edge _ a b (N3 a b Hab)) as (u & l & v & Hul & Eu & Hv & Ev).
  assert (He : edge (CreateBigraph att c1) u v).
  { apply (CreateBigraph_edge_mono att c1 c2 u v Hwf Hi). exists l. split.
    - apply in_get; auto. apply CreateBigraph_wf.
    - apply in_vin. exact Hv. }
  destruct He as (l1 & Hl1 & Hvl1).
  destruct (get_in _ _ _ Hl1) as (k' & Hk' & Ek).
  exists (map value l1). split.
  - unfold contents. apply in_map_iff. exists (k', l1). simpl.
    rewrite Ek, Eu. auto.
  - rewrite <- Ev. exact Hvl1.
Qed.

End BigraphFacts.
(** ** [MakeSureEverybodyHasGift]: what it accepts *)

Section ValidatorOutcome.
Context {RT : PyRuntime}.

(** A walk that returns has popped one entry per step, and only entries
    whose recipient is the starting point or somebody's giver. *)
Lemma walk_trace fuel root : forall a count cur r c' cur',
  walk fuel root a count cur = Ret (r, c', cur') ->
  r = root /\ count <= c' /\
  c' + length cur' = count + length cur /\
  incl cur' cur /\ (wf cur -> wf cur') /\
  (r = a \/ exists k', In (k', r) cur) /\
  forall k x, In (k, x) cur ->
    In (k, x) cur' \/ value k = value a \/
    exists k' x', In (k', x') cur /\ value x' = value k.
Proof.
  induction fuel as [|f IH]; intros a count cur r c' cur' Hr; simpl in Hr;
    destruct (py_is a root) eqn:Eis; try discriminate.
  - apply py_is_true in Eis. inversion Hr; subst. 
    split; [reflexivity|]. split; [lia|]. split; [lia|].
    split; [apply incl_refl|]. split; [auto|]. split; [left; reflexivity|].
    intros k x Hin. left. exact Hin.
  - apply py_is_true in Eis. inversion Hr; subst.
    split; [reflexivity|]. split; [lia|]. split; [lia|].
    split; [apply incl_refl|]. split; [auto|]. split; [left; reflexivity|].
    intros k x Hin. left. exact Hin.
  - unfold dict_pop in Hr. destruct (dict_get a cur) as [a'|] eqn:Eg;
      cbn [bind fst snd] in Hr; [|discriminate].
    destruct (IH _ _ _ _ _ _ Hr) as (E & Hc & Hlen & Hi & Hwf & Hor & Hall).
    assert (Hm : dict_mem a cur = true) by (apply mem_get; eauto).
    pose proof (length_remove a cur Hm) as Hl.
    destruct (get_in _ _ _ Eg) as (ka & Hka & Eka).
    split; [exact E|]. split; [lia|]. split; [lia|]. split; [|split; [|split]].
    + eapply incl_tran; [exact Hi | apply dict_remove_incl].
    + intros H. apply Hwf, wf_remove, H.
    + right. destruct Hor as [->|(k' & Hk')].
      * exists ka. exact Hka.
      * exists k'. eapply dict_remove_incl. exact Hk'.
    + intros k x Hin.
      destruct (dict_remove_in_or a cur (k, x) Hin) as [H|[_ H]].
      * destruct (Hall k x H) as [H1|[H1|(k' & x' & H1 & H2)]]; auto.
        -- right. right. exists ka, a'. auto.
        -- right. right. exists k', x'. split; auto.
           eapply dict_remove_incl. exact H1.
      * right. left. exact H.
Qed.

(** A run of the outer loop that returns has emptied the dictionary one
    entry per count, and every recipient was somebody's giver. *)
Lemma cycles_trace fuel : forall att out r,
  wf att -> cycles fuel att out = Ret r ->
  (forall k x, In (k, x) att ->
     exists k' x', In (k', x') att /\ value x' = value k) /\
  list_sum r = list_sum out + length att /\
  (forall c, In c r -> In c out \/ 1 <= c).
Proof.
  induction fuel as [|f IH]; intros att out r Hwf Hr.
  - destruct att; simpl in Hr; [|discriminate]. inversion Hr; subst r.
    split; [intros k x []|]. split; [simpl; lia | auto].
  - destruct att as [|e0 att0] eqn:Eatt.
    { simpl in Hr. inversion Hr; subst r.
      split; [intros k x []|]. split; [simpl; lia | auto]. }
    rewrite <- Eatt in *.
    replace (cycles (S f) att out) with
      (match dict_iter att with
       | [] => Raise IndexError
       | root :: _ =>
           a <- dict_lookup root att ;;
           w <- walk (S (length att)) root a 1 att ;;
           r <- dict_pop (fst (fst w)) (snd w) ;;
           cycles f (snd r) (out ++ [snd (fst w)])
       end) in Hr by (subst att; reflexivity).
    destruct (dict_iter att) as [|root rest] eqn:Eit; [discriminate|].
    unfold dict_lookup in Hr. destruct (dict_get root att) as [a|] eqn:Ea;
      cbn [bind] in Hr; [|discriminate].
    destruct (walk (S (length att)) root a 1 att) as [[[r0 c'] cur']| |] eqn:Ew;
      cbn [bind fst snd] in Hr; try discriminate.
    destruct (walk_trace _ _ _ _ _ _ _ _ Ew)
      as (-> & Hc & Hlen & Hi & Hwf' & Hor & Hall).
    unfold dict_pop in Hr. destruct (dict_get root cur') as [x|] eqn:Ex;
      cbn [bind fst snd] in Hr; [|discriminate].
    specialize (Hwf' Hwf).
    assert (Hl : S (length (dict_remove root cur')) = length cur').
    { apply length_remove, mem_get. eauto. }
    destruct (IH _ _ _ (wf_remove _ _ Hwf') Hr) as (Hcov & Hsum & Hge).
    destruct (get_in _ _ _ Ea) as (kr & Hkr & Ekr).
    split; [|split].
    + intros k y Hin.
      destruct (Hall k y Hin) as [H|[H|H]]; [| |exact H].
      * destruct (dict_remove_in_or root cur' (k, y) H) as [H1|[_ H1]].
        -- destruct (Hcov k y H1) as (k' & x' & H2 & H3). exists k', x'.
           split; auto. apply Hi. eapply dict_remove_incl. exact H2.
        -- simpl in H1. destruct Hor as [->|(k' & Hk')].
           ++ exists kr, a. auto.
           ++ exists k', root. auto.
      * exists kr, a. auto.
    + rewrite Hsum, list_sum_app. simpl. lia.
    + intros c Hcin. destruct (Hge c Hcin) as [H|H]; auto.
      apply in_app_or in H. destruct H as [H|[<-|[]]]; [left; exact H | right; exact Hc].
Qed.

(** Givers that are all recipients and recipients that are all givers make
    a bijection. *)
Lemma closed_covered_bijective m :
  wf m -> closed m ->
  (forall k x, In (k, x) m ->
     exists k' x', In (k', x') m /\ value x' = value k) ->
  bijective m.
Proof.
  intros Hwf Hcl Hcov. split.
  - intros k x Hg. destruct (get_in _ _ _ Hg) as (k' & Hin & _).
    apply mem_vin. apply (Hcl k' x Hin).
  - assert (Hnd : NoDup (map value (dict_values m))).
    { apply (NoDup_incl_NoDup (l:=map value (dict_keys m))).
      - exact Hwf.
      - unfold dict_values, dict_keys. rewrite !length_map. lia.
      - intros s Hs. apply in_map_iff in Hs. destruct Hs as (k & <- & Hk).
        unfold dict_keys in Hk. apply in_map_iff in Hk.
        destruct Hk as ([k0 x0] & <- & Hin). simpl.
        destruct (Hcov k0 x0 Hin) as (k' & x' & Hin' & E). rewrite <- E.
        apply in_map. unfold dict_values. apply in_map_iff.
        exists (k', x'). auto. }
    unfold dict_values in Hnd. rewrite map_map in Hnd.
    intros k1 k2 x1 x2 H1 H2 E.
    destruct (get_in _ _ _ H1) as (k1' & Hin1 & E1).
    destruct (get_in _ _ _ H2) as (k2' & Hin2 & E2).
    assert (Ee : (k1', x1) = (k2', x2)).
    { apply (NoDup_map_inj _ m _ _ Hnd Hin1 Hin2). exact E. }
    inversion Ee; subst. congruence.
Qed.

Lemma MakeSureEverybodyHasGift_returns m printed :
  wf m -> MakeSureEverybodyHasGift m = Ret printed ->
  bijective m /\ list_sum printed = length m /\
  forall c, In c printed -> 1 <= c.
Proof.
  intros Hwf Hr. unfold MakeSureEverybodyHasGift in Hr.
  destruct (cycles_trace _ _ _ _ Hwf Hr) as (Hcov & Hsum & Hge).
  destruct (cycles_outcome (S (length m)) m [] Hwf) as [(r & Hr' & Hcl)|Hr'];
    [lia | | congruence].
  split; [apply closed_covered_bijective; auto|]. split; [exact Hsum|].
  intros c Hc. destruct (Hge c Hc) as [[]|H]. exact H.
Qed.

(** X9: on any dictionary the validator terminates: either it raises
    [KeyError], or it returns, and then the dictionary is a permutation of
    its own keys (every giver is a recipient, no two recipients share a
    giver) and the counts it has printed are positive and add up to the
    number of entries. *)
Theorem MakeSureEverybodyHasGift_outcome m :
  wf m ->
  (exists printed,
     MakeSureEverybodyHasGift m = Ret printed /\
     bijective m /\ list_sum printed = length m /\
     forall c, In c printed -> 1 <= c) \/
  MakeSureEverybodyHasGift m = Raise KeyError.
Proof.
  intros Hwf.
  destruct (cycles_outcome (S (length m)) m [] Hwf) as [(r & Hr & _)|Hr];
    [lia | | right; exact Hr].
  left. exists r. split; [exact Hr|].
  apply MakeSureEverybodyHasGift_returns; auto.
Qed.

(** X10: when equal names are held by one object, the validator accepts
    exactly the permutations: it returns if the dictionary is a bijection on
    its own keys and raises [KeyError] if it is not. *)
Theorem MakeSureEverybodyHasGift_accepts_permutations m :
  wf m -> interned (dict_keys m ++ dict_values m) ->
  (bijective m -> exists printed, MakeSureEverybodyHasGift m = Ret printed) /\
  (~ bijective m -> MakeSureEverybodyHasGift m = Raise KeyError).
Proof.
  intros Hwf Hint. split.
  - intros Hb.
    destruct (cycles_perm (S (length m)) m [] Hwf) as (cs & Hr & _); auto.
    + intros k x k' Hin Hk' E. apply Hint; auto.
      * apply in_or_app. right. apply (in_map snd) in Hin. exact Hin.
      * apply in_or_app. left. exact Hk'.
    + eexists. exact Hr.
  - intros Hnb.
    destruct (cycles_outcome (S (length m)) m [] Hwf) as [(r & Hr & _)|Hr];
      [lia | | exact Hr].
    exfalso. apply Hnb. apply (MakeSureEverybodyHasGift_returns m r Hwf Hr).
Qed.

(** X17: the validator compares the current giver with the root by identity
    ([a is not root]).  On a dictionary that is not empty and in which no
    giver is the very object of a key (the givers are other objects, even if
    they have the names of the keys and form a perfect permutation), it
    raises [KeyError]. *)
Theorem MakeSureEverybodyHasGift_needs_shared_objects m :
  wf m -> m <> [] ->
  (forall k x, In (k, x) m -> ~ In x (dict_keys m)) ->
  MakeSureEverybodyHasGift m = Raise KeyError.
Proof.
  intros Hwf Hne Hcopy. unfold MakeSureEverybodyHasGift.
  replace (cycles (S (length m)) m []) with
    (match dict_iter m with
     | [] => Raise IndexError
     | root :: _ =>
         a <- dict_lookup root m ;;
         w <- walk (S (length m)) root a 1 m ;;
         r <- dict_pop (fst (fst w)) (snd w) ;;
         cycles (length m) (snd r) ([] ++ [snd (fst w)])
     end) by (destruct m; [contradiction | reflexivity]).
  destruct (dict_iter m) as [|root rest] eqn:Eit.
  { exfalso. eapply iter_nonempty; eauto. }
  assert (Hroot : In root (dict_keys m)).
  { apply iter_in. rewrite Eit. left. reflexivity. }
  unfold dict_lookup.
  destruct (dict_get root m) as [a|] eqn:Ea; cbn [bind]; [|reflexivity].
  destruct (get_in _ _ _ Ea) as (kr & Hkr & _).
  destruct (walk_outcome (S (length m)) root a 1 m)
    as [(c' & cur' & Hw & _)|Hw]; [lia | | rewrite Hw; reflexivity].
  exfalso.
  destruct (walk_trace _ _ _ _ _ _ _ _ Hw) as (_ & _ & _ & _ & _ & Hor & _).
  destruct Hor as [E|(k' & Hk')].
  - subst a. apply (Hcopy kr root Hkr Hroot).
  - apply (Hcopy k' root Hk' Hroot).
Qed.

End ValidatorOutcome.
(** ** [SendEmail]: the message handed to sendmail *)

Section SendEmailFacts.
Context {RT : PyRuntime}.

Lemma append_empty_r (s : string) : (s ++ EmptyString)%string = s.
Proof. induction s as [|c s IH]; simpl; [reflexivity | rewrite IH; reflexivity]. Qed.

Lemma append_assoc_string (a b c : string) :
  ((a ++ b) ++ c)%string = (a ++ (b ++ c))%string.
Proof. induction a as [|x a IH]; simpl; [reflexivity | rewrite IH; reflexivity]. Qed.

Lemma no_newline_cons c s :
  no_newline (String c s) -> c <> newline /\ no_newline s.
Proof.
  unfold no_newline. simpl. intros H. split.
  - intros E. apply H. left. exact E.
  - intros Hin. apply H. right. exact Hin.
Qed.

Lemma no_newline_app a b :
  no_newline a -> no_newline b -> no_newline (a ++ b)%string.
Proof.
  induction a as [|c a IH]; simpl; intros Ha Hb; [exact Hb|].
  apply no_newline_cons in Ha. destruct Ha as [Hc Ha].
  unfold no_newline. simpl. intros [E|Hin]; [apply Hc; exact E|].
  apply (IH Ha Hb). exact Hin.
Qed.

(** Reading one line that ends with a newline. *)
Lemma headers_body_line : forall l cur rest,
  no_newline l ->
  headers_body cur (l ++ String newline rest) =
  match (cur ++ l)%string with
  | EmptyString => ([], rest)
  | String _ _ =>
      ((cur ++ l)%string :: fst (headers_body EmptyString rest),
       snd (headers_body EmptyString rest))
  end.
Proof.
  induction l as [|c l IH]; intros cur rest Hl.
  - rewrite append_empty_r. simpl. destruct cur; reflexivity.
  - apply no_newline_cons in Hl. destruct Hl as [Hc Hl].
    cbn [append headers_body].
    destruct (Ascii.eqb c newline) eqn:E.
    + apply Ascii.eqb_eq in E. contradiction.
    + rewrite (IH _ _ Hl), append_assoc_string. reflexivity.
Qed.

Lemma SendEmail_reads_back subject body dest :
  no_newline dest -> no_newline subject ->
  headers_body EmptyString (stdin (SendEmail subject body dest)) =
  ([("To: " ++ dest)%string; ("Subject: " ++ subject)%string],
   (body ++ String newline (String newline
      "Yours friendly, the secret santa generator"))%string).
Proof.
  intros Hd Hs.
  unfold SendEmail, write, popen. cbn [stdin command].
  replace ((((((EmptyString ++ ("To: " ++ dest ++ String newline EmptyString)) ++
               ("Subject: " ++ subject ++ String newline EmptyString)) ++
              String newline EmptyString) ++ body) ++
            String newline (String newline
              "Yours friendly, the secret santa generator"))%string)
    with ((("To: " ++ dest) ++ String newline
            (("Subject: " ++ subject) ++ String newline
               (String newline (body ++ String newline (String newline
                  "Yours friendly, the secret santa generator")))))%string).
  - rewrite headers_body_line.
    2:{ apply no_newline_app; [|exact Hd]. unfold no_newline. simpl.
        intros H. repeat (destruct H as [H|H]; [discriminate|]). exact H. }
    rewrite headers_body_line.
    2:{ apply no_newline_app; [|exact Hs]. unfold no_newline. simpl.
        intros H. repeat (destruct H as [H|H]; [discriminate|]). exact H. }
    reflexivity.
  - cbn [append]. rewrite !append_assoc_string. cbn [append].
    rewrite !append_assoc_string. reflexivity.
Qed.

(** X19: [SendEmail] passes the address on as it is: when the address holds
    a second line, that line reaches sendmail as a header line of its own,
    between [To] and [Subject]. *)
Theorem SendEmail_header_injection subject body d1 d2 :
  no_newline d1 -> no_newline d2 -> d2 <> EmptyString ->
  no_newline subject ->
  headers_body EmptyString
    (stdin (SendEmail subject body (d1 ++ String newline d2))) =
  ([("To: " ++ d1)%string; d2; ("Subject: " ++ subject)%string],
   (body ++ String newline (String newline
      "Yours friendly, the secret santa generator"))%string).
Proof.
  intros H1 H2 Hne Hs.
  unfold SendEmail, write, popen. cbn [stdin command].
  replace ((((((EmptyString ++
                ("To: " ++ (d1 ++ String newline d2) ++ String newline EmptyString)) ++
               ("Subject: " ++ subject ++ String newline EmptyString)) ++
              String newline EmptyString) ++ body) ++
            String newline (String newline
              "Yours friendly, the secret santa generator"))%string)
    with ((("To: " ++ d1) ++ String newline
            (d2 ++ String newline
               (("Subject: " ++ subject) ++ String newline
                  (String newline (body ++ String newline (String newline
                     "Yours friendly, the secret santa generator"))))))%string).
  - rewrite headers_body_line.
    2:{ apply no_newline_app; [|exact H1]. unfold no_newline. simpl.
        intros H. repeat (destruct H as [H|H]; [discriminate|]). exact H. }
    rewrite headers_body_line by exact H2.
    rewrite headers_body_line.
    2:{ apply no_newline_app; [|exact Hs]. unfold no_newline. simpl.
        intros H. repeat (destruct H as [H|H]; [discriminate|]). exact H. }
    destruct d2 as [|c d2]; [contradiction|]. reflexivity.
  - cbn [append]. repeat (rewrite append_assoc_string; cbn [append]).
    reflexivity.
Qed.

(** X11: when neither the address nor the subject contains a newline, what
    [SendEmail] writes to [sendmail -t] reads back as exactly two header
    lines, [To] with the address and [Subject] with the subject, and after
    the empty line the body followed by the signature: nothing in the body
    can add a header or change one.  So the mail that [main] sends for an
    entry of the matching, to an address without newline, has the headers
    [To] and [Subject] and the body that names the recipient and the
    match, whatever the names contain. *)
Theorem SendEmail_message subject body dest :
  no_newline dest -> no_newline subject ->
  command (SendEmail subject body dest) = "/usr/sbin/sendmail -t"%string /\
  headers_body EmptyString (stdin (SendEmail subject body dest)) =
  ([("To: " ++ dest)%string; ("Subject: " ++ subject)%string],
   (body ++ String newline (String newline
      "Yours friendly, the secret santa generator"))%string) /\
  forall t, mail_address t = dest ->
    headers_body EmptyString (stdin (letter t)) =
    ([("To: " ++ dest)%string; "Subject: Your secret santa match!"%string],
     ("Hi " ++ value (mail_recipient t) ++ ", your match is " ++
      value (mail_match t) ++ String newline (String newline
        "Yours friendly, the secret santa generator"))%string).
Proof.
  intros Hd Hs. split; [reflexivity|]. split.
  - apply SendEmail_reads_back; assumption.
  - intros t Et. unfold letter. rewrite Et.
    rewrite SendEmail_reads_back.
    + rewrite !append_assoc_string. reflexivity.
    + exact Hd.
    + unfold no_newline. simpl. intros H.
      repeat (destruct H as [H|H]; [discriminate|]). exact H.
Qed.

End SendEmailFacts.
(** ** [main]: what is sent, and to whom *)

Section MainFacts.
Context {RT : PyRuntime}.

Lemma mails_spec (att : dict string) m : forall rs,
  (forall r, In r rs -> dict_mem r m = true /\ dict_mem r att = true) ->
  exists sent,
    mails att m rs = Ret sent /\
    map mail_recipient sent = rs /\
    forall t, In t sent ->
      dict_get (mail_recipient t) m = Some (mail_match t) /\
      dict_get (mail_recipient t) att = Some (mail_address t).
Proof.
  induction rs as [|r rs IH]; intros H.
  - exists []. simpl. split; [reflexivity|]. split; [reflexivity|].
    intros t [].
  - destruct (H r (or_introl eq_refl)) as [Hm Ha].
    apply mem_get in Hm. destruct Hm as (u & Hu).
    apply mem_get in Ha. destruct Ha as (d & Hd).
    destruct IH as (sent & Hs & Hrs & Hall).
    { intros x Hx. apply H. right. exact Hx. }
    exists ((r, u, d) :: sent). cbn [mails]. unfold dict_lookup.
    rewrite Hu, Hd. cbn [bind]. rewrite Hs. cbn [bind].
    split; [reflexivity|]. split.
    + simpl. rewrite Hrs. reflexivity.
    + intros t [<-|Ht]; [simpl; auto | apply Hall; exact Ht].
Qed.

(** A pair of the matching found for the graph of [CreateBigraph] joins two
    objects of [attendees] that are not excluded. *)
Lemma pipeline_pair att couples m A B v u :
  wf att ->
  BipartiteMatch (CreateBigraph att couples) = Ret (m, A, B) ->
  matching_ok (CreateBigraph att couples) m ->
  In (v, u) m ->
  In v (dict_keys att) /\ In u (dict_keys att) /\
  excluded u v couples = false.
Proof.
  intros Hwf Hr Hm Hin.
  assert (Hobjs : objs_m (dict_keys att) m).
  { eapply objs_BipartiteMatch; [|exact Hr]. apply CreateBigraph_objs.
    exact Hwf. }
  destruct (Hobjs v u Hin) as [Hv Hu].
  split; [exact Hv|]. split; [exact Hu|].
  destruct Hm as (Hwfm & Hedge & _).
  destruct (Hedge v u (in_get _ _ _ Hwfm Hin)) as (l & Hl & Hvl).
  destruct (get_in _ _ _ Hl) as (k' & Hk' & Ek).
  destruct (CreateBigraph_entry att couples k' l Hwf Hk') as (Hk'a & _ & El).
  assert (k' = u) by (apply (wf_interned att Hwf); auto). subst k'.
  destruct (vin_in _ _ Hvl) as (v' & Hv' & Ev).
  rewrite El in Hv'. unfold allowed in Hv'. apply filter_In in Hv'.
  destruct Hv' as [Hv'a Hex]. apply in_shuffle_iter in Hv'a.
  assert (v' = v) by (apply (wf_interned att Hwf); auto). subst v'.
  apply negb_true_iff in Hex. exact Hex.
Qed.

(** Once the validator has returned, [main] sends one mail per entry of
    the matching and returns. *)
Lemma main_after_validation att couples m A B printed :
  wf att -> 1 < length att ->
  BipartiteMatch (CreateBigraph att couples) = Ret (m, A, B) ->
  matching_ok (CreateBigraph att couples) m ->
  MakeSureEverybodyHasGift m = Ret printed ->
  exists sent,
    main att couples = Ret (printed, sent) /\
    map mail_recipient sent = dict_iter m /\
    forall t, In t sent ->
      In (mail_recipient t, mail_match t) m /\
      dict_get (mail_recipient t) att = Some (mail_address t).
Proof.
  intros Hwf Hn Hr Hm Hv.
  destruct (mails_spec att m (dict_iter m)) as (sent & Hs & Hrs & Hall).
  { intros r Hr'. apply iter_in in Hr'. split.
    - apply mem_vin, in_vin. exact Hr'.
    - unfold dict_keys in Hr'. apply in_map_iff in Hr'.
      destruct Hr' as ([v u] & <- & Hin).
      destruct (pipeline_pair att couples m A B v u Hwf Hr Hm Hin) as (Hv' & _).
      apply mem_vin, in_vin. exact Hv'. }
  exists sent. split.
  - unfold main.
    replace (1 <? length att) with true by (symmetry; apply Nat.ltb_lt; exact Hn).
    cbv zeta. rewrite Hr. cbn [bind fst]. rewrite Hv. cbn [bind].
    rewrite Hs. reflexivity.
  - split; [exact Hrs|]. intros t Ht. destruct (Hall t Ht) as [H1 H2].
    split; [|exact H2].
    destruct (get_in _ _ _ H1) as (k' & Hin & E).
    assert (Ek : k' = mail_recipient t).
    { apply (wf_interned m (proj1 Hm)); auto.
      - eapply in_keys. exact Hin.
      - apply iter_in. rewrite <- Hrs. apply in_map. exact Ht. }
    subst k'. exact Hin.
Qed.

(** The mails sent are the entries of the matching, each once. *)
Lemma sent_entries m sent :
  wf m ->
  map mail_recipient sent = dict_iter m ->
  (forall t, In t sent -> In (mail_recipient t, mail_match t) m) ->
  Permutation (map (fun t => (mail_recipient t, mail_match t)) sent) m.
Proof.
  intros Hwf Hrs Hall.
  assert (Hnd : NoDup (dict_iter m)).
  { eapply NoDup_map_inv. apply iter_wf. exact Hwf. }
  apply NoDup_Permutation.
  - apply (NoDup_map_inv fst). rewrite map_map. simpl.
    change (map (fun t => mail_recipient t) sent) with (map mail_recipient sent).
    rewrite Hrs. exact Hnd.
  - apply (NoDup_map_inv fst). apply (NoDup_map_inv value). exact Hwf.
  - intros [k x]. split.
    + intros H. apply in_map_iff in H. destruct H as (t & E & Ht).
      inversion E; subst. apply Hall. exact Ht.
    + intros H.
      assert (Hk : In k (map mail_recipient sent)).
      { rewrite Hrs. apply iter_in. eapply in_keys. exact H. }
      apply in_map_iff in Hk. destruct Hk as (t & E & Ht).
      apply in_map_iff. exists t. split; [|exact Ht].
      pose proof (Hall t Ht) as Ht'. rewrite E in Ht'.
      pose proof (in_get _ _ _ Hwf H) as G1.
      pose proof (in_get _ _ _ Hwf Ht') as G2.
      rewrite G1 in G2. injection G2 as Ex. rewrite E, Ex. reflexivity.
Qed.

Lemma sent_recipients m sent :
  Permutation (map (fun t => (mail_recipient t, mail_match t)) sent) m ->
  Permutation (map value (map mail_recipient sent)) (map value (dict_keys m)).
Proof.
  intros H. apply (Permutation_map fst) in H. rewrite map_map in H. simpl in H.
  apply (Permutation_map value) in H. exact H.
Qed.

Lemma sent_matches m sent :
  Permutation (map (fun t => (mail_recipient t, mail_match t)) sent) m ->
  Permutation (map value (map mail_match sent)) (map value (dict_values m)).
Proof.
  intros H. apply (Permutation_map snd) in H. rewrite map_map in H. simpl in H.
  apply (Permutation_map value) in H. exact H.
Qed.


(** ** Participants that may be matched *)

Lemma has_candidate_true (att : dict string) couples p :
  has_candidate att couples p = true <->
  exists q, In q (dict_keys att) /\ excluded p q couples = false.
Proof.
  unfold has_candidate. rewrite existsb_exists. split.
  - intros (q & Hq & H). exists q. split; auto. apply negb_true_iff. exact H.
  - intros (q & Hq & H). exists q. split; auto. apply negb_true_iff. exact H.
Qed.

Lemma CreateBigraph_mem att couples p :
  wf att -> In p (dict_keys att) ->
  dict_mem p (CreateBigraph att couples) = has_candidate att couples p.
Proof.
  intros Hwf Hp. unfold dict_mem.
  rewrite (CreateBigraph_get att couples p Hwf Hp). unfold allowed.
  destruct (filter _ _) as [|q l] eqn:E; simpl.
  - destruct (has_candidate att couples p) eqn:Eh; auto.
    apply has_candidate_true in Eh. destruct Eh as (q & Hq & Hex).
    assert (H : In q (filter (fun p2 => negb (excluded p p2 couples))
                        (shuffle (dict_iter att)))).
    { apply filter_In. split; [apply in_shuffle_iter; exact Hq|].
      rewrite Hex. reflexivity. }
    rewrite E in H. destruct H.
  - symmetry. apply has_candidate_true. exists q.
    assert (H : In q (q :: l)) by (left; reflexivity).
    rewrite <- E in H. apply filter_In in H. destruct H as [H1 H2].
    split; [apply in_shuffle_iter; exact H1|].
    apply negb_true_iff. exact H2.
Qed.

Lemma keys_eligible att couples :
  wf att ->
  Permutation (map value (dict_keys (CreateBigraph att couples)))
              (map value (eligible att couples)).
Proof.
  intros Hwf. apply NoDup_Permutation.
  - apply CreateBigraph_wf.
  - apply NoDup_map_filter. exact Hwf.
  - intros s. split; intros Hs; apply in_map_iff in Hs;
      destruct Hs as (k & <- & Hk); apply in_map_iff.
    + pose proof (CreateBigraph_keys att couples k Hk) as Hka.
      exists k. split; auto. apply filter_In. split; auto.
      rewrite <- (CreateBigraph_mem att couples k Hwf Hka).
      apply mem_vin, in_vin. exact Hk.
    + apply filter_In in Hk. destruct Hk as [Hka Hc].
      rewrite <- (CreateBigraph_mem att couples k Hwf Hka) in Hc.
      apply mem_vin, vin_in in Hc. destruct Hc as (k' & Hk' & E).
      exists k'. auto.
Qed.

Lemma map_fst_combine {A B} : forall (l : list A) (l' : list B),
  length l = length l' -> map fst (combine l l') = l.
Proof.
  induction l as [|a l IH]; intros [|b l'] H; simpl in *; try discriminate; auto.
  rewrite IH; auto.
Qed.

Lemma map_snd_combine {A B} : forall (l : list A) (l' : list B),
  length l = length l' -> map snd (combine l l') = l'.
Proof.
  induction l as [|a l IH]; intros [|b l'] H; simpl in *; try discriminate; auto.
  rewrite IH; auto.
Qed.

(** When the participants at the vertices of the graph can be matched among
    themselves, the matching found covers them all and is accepted. *)
Lemma pipeline_closed att couples :
  wf att ->
  (exists M, is_matching (contents (CreateBigraph att couples)) M /\
             length M = length (CreateBigraph att couples)) ->
  exists m A B lengths,
    BipartiteMatch (CreateBigraph att couples) = Ret (m, A, B) /\
    matching_ok (CreateBigraph att couples) m /\
    complete (dict_keys (CreateBigraph att couples)) m /\
    MakeSureEverybodyHasGift m = Ret lengths /\
    list_sum lengths = length (CreateBigraph att couples) /\
    forall c, In c lengths -> 2 <= c.
Proof.
  intros Hwf (M & HM & HlenM).
  set (g := CreateBigraph att couples) in *.
  assert (Hwfg : wf g) by apply CreateBigraph_wf.
  destruct (BipartiteMatch_spec g Hwfg) as (m & A & B & Hr & Hm & His & Hmax & _).
  pose proof (Hmax M HM) as Hge. rewrite HlenM in Hge.
  pose proof (matching_size_bound g m Hm) as Hle.
  pose proof (length_key_values g) as Hlen_g.
  pose proof (length_key_values m) as Hlen_k.
  assert (Hlen_v : length (map value (dict_values m)) = length m).
  { unfold dict_values. rewrite !length_map. reflexivity. }
  pose proof Hm as (Hwfm & Hedge & Hinj).
  assert (Hkeys : incl (map value (dict_keys m)) (map value (dict_keys g))).
  { intros s Hs. apply in_map_iff in Hs. destruct Hs as (v & <- & Hv).
    unfold dict_keys in Hv. apply in_map_iff in Hv.
    destruct Hv as ([v' u] & <- & Hin). simpl.
    apply (mem_vin v' g). apply (edge_mem g v' u).
    apply CreateBigraph_edge_sym; [exact Hwf|].
    apply (Hedge v' u). apply in_get; auto. }
  pose proof (matching_values_in g m Hm) as Hvals.
  assert (Hndv : NoDup (map value (dict_values m)))
    by (apply matching_values_nodup; auto).
  assert (Hcomplete : complete (dict_keys g) m).
  { split; [exact Hwfg|]. split; [exact Hwfm|]. split; [exact Hndv|]. split.
    - intros p. unfold vin. split; [|apply Hkeys].
      apply NoDup_length_incl; auto. lia.
    - intros p. unfold vin. split; [|apply Hvals].
      apply NoDup_length_incl; auto. lia. }
  assert (Hint : interned (dict_keys m ++ dict_values m)).
  { apply (interned_incl (dict_keys att)); [|apply wf_interned; exact Hwf].
    intros x Hx. apply in_app_or in Hx. destruct Hx as [Hx|Hx].
    - unfold dict_keys in Hx. apply in_map_iff in Hx.
      destruct Hx as ([k y] & <- & Hin).
      apply (pipeline_pair att couples m A B k y Hwf Hr Hm Hin).
    - unfold dict_values in Hx. apply in_map_iff in Hx.
      destruct Hx as ([k y] & <- & Hin).
      apply (pipeline_pair att couples m A B k y Hwf Hr Hm Hin). }
  assert (Hns : no_self m).
  { intros k x Hin E.
    destruct (pipeline_pair att couples m A B k x Hwf Hr Hm Hin)
      as (Hk & Hx & Hex).
    assert (x = k) by (apply (wf_interned att Hwf); auto). subst x.
    unfold excluded in Hex. rewrite (proj2 (py_is_true k k) eq_refl) in Hex.
    discriminate. }
  destruct (MakeSureEverybodyHasGift_complete (dict_keys g) m Hcomplete Hint)
    as (lengths & Hv & Hsum & Hpos & Hnone).
  exists m, A, B, lengths. split; [exact Hr|]. split; [exact Hm|].
  split; [exact Hcomplete|]. split; [exact Hv|]. split.
  - rewrite Hsum. unfold dict_keys. apply length_map.
  - intros c Hc. pose proof (Hpos c Hc). pose proof (Hnone Hns c Hc). lia.
Qed.

Lemma vin_iff_perm (l1 l2 : list obj) :
  NoDup (map value l1) -> NoDup (map value l2) ->
  (forall p, vin p l1 <-> vin p l2) ->
  Permutation (map value l1) (map value l2).
Proof.
  intros H1 H2 H. apply NoDup_Permutation; auto. intros s. split; intros Hs;
    apply in_map_iff in Hs; destruct Hs as (p & <- & Hp);
    apply (H p); apply in_vin; exact Hp.
Qed.

(** What every mail of a run of [main] satisfies. *)
Lemma sent_pairs att couples m A B sent :
  wf att ->
  BipartiteMatch (CreateBigraph att couples) = Ret (m, A, B) ->
  matching_ok (CreateBigraph att couples) m ->
  (forall t, In t sent ->
     In (mail_recipient t, mail_match t) m /\
     dict_get (mail_recipient t) att = Some (mail_address t)) ->
  forall t, In t sent ->
    In (mail_recipient t) (dict_keys att) /\
    In (mail_match t) (dict_keys att) /\
    excluded (mail_match t) (mail_recipient t) couples = false /\
    dict_get (mail_recipient t) att = Some (mail_address t).
Proof.
  intros Hwf Hr Hm Hall t Ht. destruct (Hall t Ht) as [Hin Ha].
  destruct (pipeline_pair att couples m A B _ _ Hwf Hr Hm Hin) as (H1 & H2 & H3).
  auto.
Qed.

Lemma main_eligible att couples partners :
  wf att -> 1 < length att ->
  length partners = length (eligible att couples) ->
  NoDup (map value partners) ->
  (forall p q, In (p, q) (combine (eligible att couples) partners) ->
     In q (dict_keys att) /\ excluded p q couples = false) ->
  exists printed sent,
    main att couples = Ret (printed, sent) /\
    Permutation (map value (map mail_recipient sent))
                (map value (eligible att couples)) /\
    Permutation (map value (map mail_match sent))
                (map value (eligible att couples)) /\
    list_sum printed = length (eligible att couples) /\
    (forall c, In c printed -> 2 <= c) /\
    forall t, In t sent ->
      In (mail_recipient t) (dict_keys att) /\
      In (mail_match t) (dict_keys att) /\
      excluded (mail_match t) (mail_recipient t) couples = false /\
      dict_get (mail_recipient t) att = Some (mail_address t).
Proof.
  intros Hwf Hn Hlen Hnd Hok.
  set (g := CreateBigraph att couples).
  pose proof (keys_eligible att couples Hwf) as Hke. fold g in Hke.
  assert (Hlg : length g = length (eligible att couples)).
  { apply Permutation_length in Hke. rewrite !length_map in Hke.
    unfold dict_keys in Hke. rewrite length_map in Hke. exact Hke. }
  set (M := map (fun e : obj * obj => (value (fst e), value (snd e)))
                (combine (eligible att couples) partners)).
  assert (HM : is_matching (contents g) M).
  { split; [|split].
    - replace (map fst M)
        with (map value (map fst (combine (eligible att couples) partners)))
        by (unfold M; rewrite !map_map; reflexivity).
      rewrite map_fst_combine by (symmetry; exact Hlen).
      apply NoDup_map_filter. exact Hwf.
    - replace (map snd M)
        with (map value (map snd (combine (eligible att couples) partners)))
        by (unfold M; rewrite !map_map; reflexivity).
      rewrite map_snd_combine by (symmetry; exact Hlen). exact Hnd.
    - intros a b Hin. unfold M in Hin. apply in_map_iff in Hin.
      destruct Hin as ([p q] & E & Hpq). simpl in E. inversion E; subst a b.
      destruct (Hok p q Hpq) as [Hq Hex].
      assert (Hp : In p (dict_keys att)).
      { apply in_combine_l in Hpq. apply filter_In in Hpq. apply Hpq. }
      destruct (CreateBigraph_complete att couples p q Hwf Hp Hq Hex)
        as (l & Hl & Hql).
      destruct (get_in _ _ _ Hl) as (k' & Hk' & Ek).
      exists (map value l). split; [|apply in_map; exact Hql].
      unfold contents. apply in_map_iff. exists (k', l). simpl.
      rewrite Ek. auto. }
  assert (HlM : length M = length g).
  { unfold M. rewrite length_map, length_combine. lia. }
  destruct (pipeline_closed att couples Hwf)
    as (m & A & B & printed & Hr & Hm & Hc & Hv & Hsum & H2).
  { exists M. auto. }
  fold g in Hr, Hm, Hc, Hsum.
  destruct (main_after_validation att couples m A B printed Hwf Hn Hr Hm Hv)
    as (sent & Hmain & Hrs & Hall).
  pose proof (sent_entries m sent (proj1 Hm) Hrs
                (fun t Ht => proj1 (Hall t Ht))) as Hperm.
  destruct Hc as (Hndg & Hwfm & Hndv & Hk & Hvl).
  exists printed, sent. split; [exact Hmain|]. split; [|split; [|split; [|split]]].
  - eapply Permutation_trans; [apply (sent_recipients m sent Hperm)|].
    eapply Permutation_trans; [|exact Hke].
    apply vin_iff_perm; auto. intros p. symmetry. apply Hk.
  - eapply Permutation_trans; [apply (sent_matches m sent Hperm)|].
    eapply Permutation_trans; [|exact Hke].
    apply vin_iff_perm; auto. intros p. symmetry. apply Hvl.
  - rewrite Hsum. exact Hlg.
  - exact H2.
  - apply (sent_pairs att couples m A B sent Hwf Hr Hm Hall).
Qed.



Lemma length_rotate {A} (l : list A) : length (rotate l) = length l.
Proof.
  destruct l as [|x l]; simpl; [reflexivity|]. rewrite length_app. simpl. lia.
Qed.

Lemma rotate_perm {A} (l : list A) : Permutation (rotate l) l.
Proof.
  destruct l as [|x l]; simpl; [constructor|].
  apply Permutation_sym. apply Permutation_cons_append.
Qed.

(** Neighbours in a row without repetition differ. *)
Lemma combine_rotate_distinct {A} : forall (l : list A) x y,
  NoDup (x :: l) -> ~ In y l -> (l = [] -> x <> y) ->
  forall a b, In (a, b) (combine (x :: l) (l ++ [y])) -> a <> b.
Proof.
  induction l as [|z l IH]; intros x y Hnd Hy Hxy a b Hin.
  - simpl in Hin. destruct Hin as [E|[]]. inversion E; subst. auto.
  - simpl in Hin. destruct Hin as [E|Hin].
    + inversion E; subst. inversion Hnd as [|? ? Hx _]; subst.
      intros ->. apply Hx. left. reflexivity.
    + inversion Hnd as [|? ? _ Hnd']; subst.
      apply (IH z y Hnd'); auto.
      * intros H. apply Hy. right. exact H.
      * intros _ ->. apply Hy. left. reflexivity.
Qed.

Lemma excluded_no_couples p q : excluded p q [] = py_is p q.
Proof. unfold excluded. simpl. rewrite !orb_false_r. reflexivity. Qed.

Lemma eligible_no_couples att :
  wf att -> 1 < length att -> eligible att [] = dict_keys att.
Proof.
  intros Hwf Hn. unfold eligible. apply forallb_filter_id. apply forallb_forall.
  intros p Hp. apply has_candidate_true.
  assert (Hnd : NoDup (dict_keys att)) by (eapply NoDup_map_inv; exact Hwf).
  assert (Hl : 1 < length (dict_keys att))
    by (unfold dict_keys; rewrite length_map; exact Hn).
  destruct (dict_keys att) as [|a [|b rest]] eqn:E; simpl in Hl; try lia.
  assert (Hab : a <> b).
  { inversion Hnd as [|? ? Ha _]; subst. intros ->. apply Ha. left. reflexivity. }
  destruct (Nat.eq_dec p a) as [->|Hpa].
  - exists b. split; [right; left; reflexivity|].
    rewrite excluded_no_couples. apply py_is_false. exact Hab.
  - exists a. split; [left; reflexivity|].
    rewrite excluded_no_couples. apply py_is_false. exact Hpa.
Qed.

(** X14: without couples, a run of [main] on two participants or more
    always returns: every participant receives exactly one mail, at their
    own address, every participant is named in exactly one mail, nobody is
    named in their own mail, and the cycles printed have at least two
    members and add up to the number of participants. *)
Theorem main_without_couples att :
  wf att -> 1 < length att ->
  exists printed sent,
    main att [] = Ret (printed, sent) /\
    Permutation (map value (map mail_recipient sent))
                (map value (dict_keys att)) /\
    Permutation (map value (map mail_match sent))
                (map value (dict_keys att)) /\
    list_sum printed = length att /\
    (forall c, In c printed -> 2 <= c) /\
    forall t, In t sent ->
      value (mail_match t) <> value (mail_recipient t) /\
      dict_get (mail_recipient t) att = Some (mail_address t).
Proof.
  intros Hwf Hn.
  pose proof (eligible_no_couples att Hwf Hn) as He.
  assert (Hnd : NoDup (dict_keys att)) by (eapply NoDup_map_inv; exact Hwf).
  destruct (main_eligible att [] (rotate (dict_keys att)) Hwf Hn)
    as (printed & sent & Hmain & H1 & H2 & H3 & H4 & H5).
  - rewrite He. apply length_rotate.
  - eapply Permutation_NoDup; [|exact Hwf].
    apply Permutation_sym, Permutation_map, rotate_perm.
  - rewrite He. intros p q Hpq. split.
    + apply in_combine_r in Hpq.
      eapply Permutation_in; [apply rotate_perm | exact Hpq].
    + rewrite excluded_no_couples. apply py_is_false.
      assert (Hl : 1 < length (dict_keys att))
        by (unfold dict_keys; rewrite length_map; exact Hn).
      destruct (dict_keys att) as [|x l] eqn:E; simpl in Hl; [lia|].
      inversion Hnd as [|? ? Hx _]; subst.
      apply (combine_rotate_distinct l x x Hnd Hx); [|exact Hpq].
      intros ->. simpl in Hl. lia.
  - rewrite He in H1, H2, H3. exists printed, sent.
    split; [exact Hmain|]. split; [exact H1|]. split; [exact H2|].
    split; [rewrite H3; unfold dict_keys; apply length_map|].
    split; [exact H4|].
    intros t Ht. destruct (H5 t Ht) as (Hr & Hm & Hex & Ha).
    split; [|exact Ha]. intros E.
    assert (Heq : mail_match t = mail_recipient t)
      by (apply (wf_interned att Hwf); auto).
    rewrite Heq in Hex. unfold excluded in Hex.
    rewrite (proj2 (py_is_true _ _) eq_refl) in Hex. discriminate.
Qed.

End MainFacts.
(** ** [BipartiteMatch]: one pass of the [while 1] loop *)

Section PhaseFacts.
Context {RT : PyRuntime}.
Variable g : dict (list obj).




End PhaseFacts.
(** ** The script as configured *)

Section Shipped.
Context {RT : PyRuntime}.

Lemma excluded_pair a b p q :
  value a <> value p \/ value b <> value q ->
  value a <> value q \/ value b <> value p ->
  p <> q ->
  excluded p q [(a, b)] = false.
Proof.
  intros H1 H2 Hpq. unfold excluded, in_couples. simpl.
  rewrite (proj2 (py_is_false p q) Hpq), !orb_false_r. simpl.
  apply orb_false_iff. split; apply andb_false_iff.
  - destruct H1 as [H|H]; [left|right]; apply py_eq_false; exact H.
  - destruct H2 as [H|H]; [left|right]; apply py_eq_false; exact H.
Qed.

(** X16: the script as shipped (seven participants, johan and louise
    forming a couple) always succeeds, whatever the iteration order of the
    dictionaries and the outcome of the shuffle: each of the seven receives
    exactly one mail, at the configured address, each is named in exactly
    one mail, nobody is named in their own mail, and johan and louise are
    not matched with each other. *)
Theorem main_as_shipped johan louise :
  map value (dict_keys g_attendees) = g_names ->
  value johan = "johan"%string -> value louise = "louise"%string ->
  exists printed sent,
    main g_attendees (g_couples johan louise) = Ret (printed, sent) /\
    Permutation (map value (map mail_recipient sent)) g_names /\
    Permutation (map value (map mail_match sent)) g_names /\
    list_sum printed = 7 /\
    (forall c, In c printed -> 2 <= c) /\
    forall t, In t sent ->
      value (mail_match t) <> value (mail_recipient t) /\
      ~ (value (mail_recipient t) = "johan"%string /\
         value (mail_match t) = "louise"%string) /\
      ~ (value (mail_recipient t) = "louise"%string /\
         value (mail_match t) = "johan"%string) /\
      mail_address t = "replaceme@google.com"%string.
Proof.
  intros Hnames Hj Hl.
  assert (Hwf : wf g_attendees).
  { unfold wf. rewrite Hnames. unfold g_names.
    repeat (constructor; [simpl; intuition discriminate|]). constructor. }
  pose proof Hnames as Hv. unfold g_names in Hv. simpl in Hv.
  injection Hv as H0 H1 H2 H3 H4 H5 H6.
  assert (Hpairs : forall p q,
            In (p, q) (combine (dict_keys g_attendees)
                               (rotate (dict_keys g_attendees))) ->
            In q (dict_keys g_attendees) /\
            excluded p q (g_couples johan louise) = false).
  { intros p q Hin. simpl in Hin. unfold g_couples.
    repeat (destruct Hin as [E|Hin];
            [inversion E; subst p q; split;
             [simpl; tauto
             |apply excluded_pair; rewrite ?Hj, ?Hl, ?H0, ?H1, ?H2, ?H3, ?H4,
                ?H5, ?H6; try (left; discriminate); try (right; discriminate);
                discriminate]|]).
    destruct Hin. }
  assert (He : eligible g_attendees (g_couples johan louise) =
               dict_keys g_attendees).
  { unfold eligible. apply forallb_filter_id. apply forallb_forall.
    intros p Hp. apply has_candidate_true.
    assert (Hq : exists q, In (p, q) (combine (dict_keys g_attendees)
                                        (rotate (dict_keys g_attendees)))).
    { simpl in Hp. simpl.
      repeat (destruct Hp as [<-|Hp]; [eexists; tauto|]). destruct Hp. }
    destruct Hq as (q & Hq). exists q. apply Hpairs. exact Hq. }
  destruct (main_eligible g_attendees (g_couples johan louise)
              (rotate (dict_keys g_attendees)) Hwf)
    as (printed & sent & Hmain & P1 & P2 & P3 & P4 & P5).
  - simpl. lia.
  - rewrite He. reflexivity.
  - eapply Permutation_NoDup; [|exact Hwf].
    apply Permutation_sym, Permutation_map, rotate_perm.
  - rewrite He. exact Hpairs.
  - rewrite He, Hnames in P1, P2. rewrite He in P3.
    exists printed, sent. split; [exact Hmain|]. split; [exact P1|].
    split; [exact P2|]. split; [exact P3|]. split; [exact P4|].
    intros t Ht. destruct (P5 t Ht) as (Hr & Hm & Hex & Ha).
    destruct (excluded_false _ _ _ Hex) as [Hne Hc].
    destruct (Hc johan louise (or_introl eq_refl)) as [C1 C2].
    split; [|split; [|split]].
    + intros E. apply Hne. apply (wf_interned g_attendees Hwf); auto.
    + intros [E1 E2]. apply C2. rewrite Hj, Hl. auto.
    + intros [E1 E2]. apply C1. rewrite Hj, Hl. auto.
    + destruct (get_in _ _ _ Ha) as (k' & Hin & _). simpl in Hin.
      repeat (destruct Hin as [E|Hin]; [inversion E; reflexivity|]).
      destruct Hin.
Qed.

End Shipped.
(** * Further instances on the concrete runtimes *)

Lemma wf_m3 : wf (RT:=rt0) m3.
Proof. unfold wf. simpl. nodup_strings. Qed.

Lemma BipartiteMatch_independent_set_witness :
  exists m A B,
    BipartiteMatch (RT:=rt0) g3 = Ret (m, A, B) /\
    NoDup (map (value (PyRuntime:=rt0)) A) /\
    NoDup (map (value (PyRuntime:=rt0)) B) /\
    (forall u, In u A -> dict_mem (RT:=rt0) u g3 = true) /\
    (forall v, In v B -> exists u, edge (RT:=rt0) g3 u v) /\
    (forall u v, In u A -> In v B -> ~ edge (RT:=rt0) g3 u v).
Proof. exact (BipartiteMatch_independent_set (RT:=rt0) g3 wf_g3). Defined.

Lemma BipartiteMatch_maximum_independent_set_witness :
  exists m A B,
    BipartiteMatch (RT:=rt0) g3 = Ret (m, A, B) /\
    length A + length B + length m =
      length g3 + length (recipients (RT:=rt0) g3) /\
    forall SU SV,
      NoDup SU -> NoDup SV ->
      incl SU (givers (RT:=rt0) g3) -> incl SV (recipients (RT:=rt0) g3) ->
      independent (contents (RT:=rt0) g3) SU SV ->
      length SU + length SV <= length A + length B.
Proof.
  exact (BipartiteMatch_maximum_independent_set (RT:=rt0) g3 wf_g3).
Defined.

Lemma BipartiteMatch_reports_unmatched_witness :
  exists m A B,
    BipartiteMatch (RT:=rt0) g3 = Ret (m, A, B) /\
    (forall u, dict_mem (RT:=rt0) u g3 = true -> free (RT:=rt0) m u ->
               vin (RT:=rt0) u A) /\
    (forall u v, edge (RT:=rt0) g3 u v -> dict_mem (RT:=rt0) v m = false ->
                 vin (RT:=rt0) v B).
Proof. exact (BipartiteMatch_reports_unmatched (RT:=rt0) g3 wf_g3). Defined.

Lemma greedy_matching_is_maximal_witness :
  exists m0,
    greedy (RT:=rt0) g3 (dict_iter (RT:=rt0) g3) [] = Ret m0 /\
    is_matching (contents (RT:=rt0) g3) (pairs (RT:=rt0) m0) /\
    forall u v, edge (RT:=rt0) g3 u v ->
      dict_mem (RT:=rt0) v m0 = true \/
      exists v' u', dict_get (RT:=rt0) v' m0 = Some u' /\
                    value (PyRuntime:=rt0) u' = value (PyRuntime:=rt0) u.
Proof. exact (greedy_matching_is_maximal (RT:=rt0) g3 wf_g3). Defined.

Lemma BipartiteMatch_reuses_objects_witness :
  exists m A B,
    BipartiteMatch (RT:=rt0) g3 = Ret (m, A, B) /\
    forall v u, In (v, u) m -> In v (objects g3) /\ In u (objects g3).
Proof. exact (BipartiteMatch_reuses_objects (RT:=rt0) g3 wf_g3). Defined.


Lemma CreateBigraph_candidates_witness :
  dict_get (RT:=rt0) 0 (CreateBigraph (RT:=rt0) att4 couples_AB) =
  match filter (fun q => negb (excluded (RT:=rt0) 0 q couples_AB))
               (shuffle (PyRuntime:=rt0) (dict_iter (RT:=rt0) att4)) with
  | [] => None
  | q :: l => Some (q :: l)
  end.
Proof.
  apply (CreateBigraph_candidates (RT:=rt0) att4 couples_AB 0 wf_att4).
  simpl. auto.
Defined.

Lemma CreateBigraph_symmetric_witness :
  edge (RT:=rt0) (CreateBigraph (RT:=rt0) att4 couples_AB) 2 0.
Proof.
  apply (CreateBigraph_symmetric (RT:=rt0) att4 couples_AB 0 2 wf_att4).
  exists [3; 2]. split; [reflexivity|]. unfold vin. simpl. auto.
Defined.

Lemma CreateBigraph_couples_unordered_witness :
  CreateBigraph (RT:=rt0) att4 couples_AB =
  CreateBigraph (RT:=rt0) att4 couples_BA.
Proof.
  apply (CreateBigraph_couples_unordered (RT:=rt0) att4 couples_AB couples_BA).
  intros a b. unfold couples_AB, couples_BA. simpl. split.
  - intros [[E|[]]|[E|[]]]; inversion E; subst; auto.
  - intros [[E|[E|[]]]|[E|[E|[]]]]; inversion E; subst; auto.
Defined.

Lemma MakeSureEverybodyHasGift_outcome_witness :
  (exists printed,
     MakeSureEverybodyHasGift (RT:=rt0) m3 = Ret printed /\
     bijective (RT:=rt0) m3 /\ list_sum printed = length m3 /\
     forall c, In c printed -> 1 <= c) \/
  MakeSureEverybodyHasGift (RT:=rt0) m3 = Raise KeyError.
Proof. exact (MakeSureEverybodyHasGift_outcome (RT:=rt0) m3 wf_m3). Defined.

Lemma MakeSureEverybodyHasGift_accepts_permutations_witness :
  (bijective (RT:=rt0) m3 ->
   exists printed, MakeSureEverybodyHasGift (RT:=rt0) m3 = Ret printed) /\
  (~ bijective (RT:=rt0) m3 ->
   MakeSureEverybodyHasGift (RT:=rt0) m3 = Raise KeyError).
Proof.
  exact (MakeSureEverybodyHasGift_accepts_permutations (RT:=rt0) m3
           wf_m3 interned_m3).
Defined.

Lemma SendEmail_message_witness :
  command (SendEmail "Hello" "Hi" "a@x") = "/usr/sbin/sendmail -t"%string /\
  headers_body EmptyString (stdin (SendEmail "Hello" "Hi" "a@x")) =
  ([("To: " ++ "a@x")%string; ("Subject: " ++ "Hello")%string],
   ("Hi" ++ String newline (String newline
      "Yours friendly, the secret santa generator"))%string) /\
  forall t, mail_address t = "a@x"%string ->
    headers_body EmptyString (stdin (letter (RT:=rt0) t)) =
    ([("To: " ++ "a@x")%string; "Subject: Your secret santa match!"%string],
     ("Hi " ++ value (PyRuntime:=rt0) (mail_recipient t) ++
      ", your match is " ++
      value (PyRuntime:=rt0) (mail_match t) ++ String newline (String newline
        "Yours friendly, the secret santa generator"))%string).
Proof.
  apply (SendEmail_message (RT:=rt0) "Hello" "Hi" "a@x");
    unfold no_newline; simpl; intuition discriminate.
Defined.



Lemma main_without_couples_witness :
  exists printed sent,
    main (RT:=rt0) att4 [] = Ret (printed, sent) /\
    Permutation (map (value (PyRuntime:=rt0)) (map mail_recipient sent))
                (map (value (PyRuntime:=rt0)) (dict_keys att4)) /\
    Permutation (map (value (PyRuntime:=rt0)) (map mail_match sent))
                (map (value (PyRuntime:=rt0)) (dict_keys att4)) /\
    list_sum printed = length att4 /\
    (forall c, In c printed -> 2 <= c) /\
    forall t, In t sent ->
      value (PyRuntime:=rt0) (mail_match t) <>
        value (PyRuntime:=rt0) (mail_recipient t) /\
      dict_get (RT:=rt0) (mail_recipient t) att4 = Some (mail_address t).
Proof.
  apply (main_without_couples (RT:=rt0) att4 wf_att4). simpl. lia.
Defined.

Lemma main_as_shipped_witness :
  exists printed sent,
    main (RT:=rt_shipped) g_attendees (g_couples 7 8) = Ret (printed, sent) /\
    Permutation (map (value (PyRuntime:=rt_shipped)) (map mail_recipient sent))
                g_names /\
    Permutation (map (value (PyRuntime:=rt_shipped)) (map mail_match sent))
                g_names /\
    list_sum printed = 7 /\
    (forall c, In c printed -> 2 <= c) /\
    forall t, In t sent ->
      value (PyRuntime:=rt_shipped) (mail_match t) <>
        value (PyRuntime:=rt_shipped) (mail_recipient t) /\
      ~ (value (PyRuntime:=rt_shipped) (mail_recipient t) = "johan"%string /\
         value (PyRuntime:=rt_shipped) (mail_match t) = "louise"%string) /\
      ~ (value (PyRuntime:=rt_shipped) (mail_recipient t) = "louise"%string /\
         value (PyRuntime:=rt_shipped) (mail_match t) = "johan"%string) /\
      mail_address t = "replaceme@google.com"%string.
Proof.
  apply (main_as_shipped (RT:=rt_shipped) 7 8); reflexivity.
Defined.

Lemma wf_m_copies : wf (RT:=rt_shipped) m_copies.
Proof. unfold wf. simpl. nodup_strings. Qed.

Lemma MakeSureEverybodyHasGift_needs_shared_objects_witness :
  MakeSureEverybodyHasGift (RT:=rt_shipped) m_copies = Raise KeyError.
Proof.
  apply (MakeSureEverybodyHasGift_needs_shared_objects (RT:=rt_shipped)
           m_copies wf_m_copies).
  - discriminate.
  - intros k x Hin. simpl in Hin.
    destruct Hin as [E|[E|[]]]; inversion E; subst k x; simpl;
      intuition discriminate.
Defined.

Lemma BipartiteMatch_alternating_paths_witness :
  exists m A B,
    BipartiteMatch (RT:=rt0) g3 = Ret (m, A, B) /\
    (forall u, vin (RT:=rt0) u A <-> alternating (RT:=rt0) g3 m u) /\
    (forall v, vin (RT:=rt0) v B <->
       (exists u, edge (RT:=rt0) g3 u v) /\
       ~ (exists u, alternating (RT:=rt0) g3 m u /\ edge (RT:=rt0) g3 u v)).
Proof. exact (BipartiteMatch_alternating_paths (RT:=rt0) g3 wf_g3). Defined.

Lemma SendEmail_header_injection_witness :
  headers_body EmptyString
    (stdin (SendEmail "Hello" "Hi" ("a@x" ++ String newline "Bcc: z@x"))) =
  ([("To: " ++ "a@x")%string; "Bcc: z@x"%string;
    ("Subject: " ++ "Hello")%string],
   ("Hi" ++ String newline (String newline
      "Yours friendly, the secret santa generator"))%string).
Proof.
  apply (SendEmail_header_injection "Hello" "Hi" "a@x" "Bcc: z@x");
    try discriminate; unfold no_newline; simpl; intuition discriminate.
Defined.

Lemma more_couples_fewer_matches_witness :
  (forall p q, edge (RT:=rt0) (CreateBigraph (RT:=rt0) att4 couples_A) p q ->
               edge (RT:=rt0) (CreateBigraph (RT:=rt0) att4 couples_AB) p q) /\
  exists m1 A1 B1 m2 A2 B2,
    BipartiteMatch (RT:=rt0) (CreateBigraph (RT:=rt0) att4 couples_AB) =
      Ret (m1, A1, B1) /\
    BipartiteMatch (RT:=rt0) (CreateBigraph (RT:=rt0) att4 couples_A) =
      Ret (m2, A2, B2) /\
    length m2 <= length m1.
Proof.
  apply (more_couples_fewer_matches (RT:=rt0) att4 couples_AB couples_A wf_att4).
  intros c [<-|[]]. left. reflexivity.
Defined.
(** ** [BipartiteMatch] under the recursion limit *)

Section Frames.
Context {RT : PyRuntime}.
Variable limit : nat.

Lemma recurse_loop_agree rec rec' v :
  (forall w s, rec' w s = rec w s \/ rec' w s = Raise RuntimeError) ->
  forall us s,
    recurse_loop rec' v us s = recurse_loop rec v us s \/
    recurse_loop rec' v us s = Raise RuntimeError.
Proof.
  intros H. induction us as [|u us IH]; intros s; cbn [recurse_loop].
  - left. reflexivity.
  - destruct (dict_get u (pred s)) as [[|w]|]; auto.
    destruct (H w (mkState (matching s) (dict_remove u (pred s)) (preds s)))
      as [E|E]; rewrite E; [|right; reflexivity].
    destruct (rec w _) as [[b s2]| |]; cbn [bind fst snd]; auto.
    destruct b; auto.
Qed.

Lemma recurse_loop_same rec rec' v :
  (forall w s, rec' w s = rec w s) ->
  forall us s, recurse_loop rec' v us s = recurse_loop rec v us s.
Proof.
  intros H. induction us as [|u us IH]; intros s; cbn [recurse_loop]; auto.
  destruct (dict_get u (pred s)) as [[|w]|]; auto.
  rewrite H. destruct (rec w _) as [[b s2]| |]; cbn [bind fst snd]; auto.
  destruct b; auto.
Qed.

(** Counting the frames changes nothing but for the [RuntimeError]. *)
Lemma Recurse_frames_agree : forall fuel frames v s,
  Recurse_frames limit fuel frames v s = Recurse fuel v s \/
  Recurse_frames limit fuel frames v s = Raise RuntimeError.
Proof.
  induction fuel as [|f IH]; intros frames v s; cbn [Recurse_frames Recurse].
  - left. reflexivity.
  - destruct (limit <=? frames); [right; reflexivity|].
    destruct (dict_get v (preds s)); [|left; reflexivity].
    apply recurse_loop_agree. intros w s0. apply IH.
Qed.

(** With as many frames left as the recursion has fuel, the limit is never
    reached. *)
Lemma Recurse_frames_enough : forall fuel frames v s,
  frames + fuel <= limit ->
  Recurse_frames limit fuel frames v s = Recurse fuel v s.
Proof.
  induction fuel as [|f IH]; intros frames v s Hle;
    cbn [Recurse_frames Recurse]; auto.
  destruct (limit <=? frames) eqn:E; [apply Nat.leb_le in E; lia|].
  destruct (dict_get v (preds s)); auto.
  apply recurse_loop_same. intros w s0. apply IH. lia.
Qed.

Lemma recurse_loop_preds_le rec v :
  (forall w s b s', rec w s = Ret (b, s') ->
     length (preds s') <= length (preds s)) ->
  forall us s b s',
    recurse_loop rec v us s = Ret (b, s') ->
    length (preds s') <= length (preds s).
Proof.
  intros H. induction us as [|u us IH]; intros s b s' Hr;
    cbn [recurse_loop] in Hr.
  - inversion Hr; subst. lia.
  - destruct (dict_get u (pred s)) as [[|w]|]; [| |eapply IH; eauto].
    + inversion Hr; subst. cbn [preds]. lia.
    + destruct (rec w _) as [[b1 s2]| |] eqn:Er; cbn [bind fst snd] in Hr;
        try discriminate.
      pose proof (H _ _ _ _ Er) as H1. cbn [preds] in H1.
      destruct b1.
      * inversion Hr; subst. cbn [preds]. lia.
      * pose proof (IH _ _ _ Hr). lia.
Qed.

Lemma Recurse_preds_le : forall fuel v s b s',
  Recurse fuel v s = Ret (b, s') -> length (preds s') <= length (preds s).
Proof.
  induction fuel as [|f IH]; intros v s b s' Hr; cbn [Recurse] in Hr;
    [discriminate|].
  destruct (dict_get v (preds s)).
  - pose proof (recurse_loop_preds_le (Recurse f) v (IH) _ _ _ _ Hr) as H.
    cbn [preds] in H. pose proof (length_remove_le v (preds s)). lia.
  - inversion Hr; subst. lia.
Qed.

Lemma augment_frames_agree frames : forall vs s,
  augment_frames limit frames vs s = augment vs s \/
  augment_frames limit frames vs s = Raise RuntimeError.
Proof.
  induction vs as [|v vs IH]; intros s; cbn [augment_frames augment].
  - left. reflexivity.
  - destruct (Recurse_frames_agree (S (length (preds s))) frames v s) as [E|E];
      rewrite E; [|right; reflexivity].
    destruct (Recurse _ v s) as [[b s1]| |]; cbn [bind snd]; auto.
Qed.

Lemma augment_frames_enough frames : forall vs s,
  frames + S (length (preds s)) <= limit ->
  augment_frames limit frames vs s = augment vs s.
Proof.
  induction vs as [|v vs IH]; intros s Hle; cbn [augment_frames augment]; auto.
  rewrite Recurse_frames_enough by exact Hle.
  destruct (Recurse _ v s) as [[b s1]| |] eqn:Er; cbn [bind snd]; auto.
  apply IH. pose proof (Recurse_preds_le _ _ _ _ _ Er). lia.
Qed.

Lemma phases_frames_agree frames g : forall fuel m,
  phases_frames limit frames fuel g m = phases fuel g m \/
  phases_frames limit frames fuel g m = Raise RuntimeError.
Proof.
  induction fuel as [|f IH]; intros m; cbn [phases_frames phases].
  - left. reflexivity.
  - destruct (layer_phase g m) as [L| |]; cbn [bind]; auto.
    destruct (l_unmatched L) as [|v0 rest]; auto.
    destruct (augment_frames_agree frames (v0 :: rest)
                (mkState m (l_pred L) (l_preds L))) as [E|E];
      rewrite E; [|right; reflexivity].
    destruct (augment _ _) as [s| |]; cbn [bind]; auto.
Qed.

Lemma BipartiteMatch_frames_agree frames g :
  BipartiteMatch_frames limit frames g = BipartiteMatch g \/
  BipartiteMatch_frames limit frames g = Raise RuntimeError.
Proof.
  unfold BipartiteMatch_frames, BipartiteMatch.
  destruct (greedy g (dict_iter g) []); cbn [bind]; auto.
  apply phases_frames_agree.
Qed.

(** The layering records recipients of the graph only. *)
Lemma layering_preds_bound g m L :
  layer_inv g m L -> length (l_preds L) <= length (recipients g).
Proof.
  intros HL.
  destruct HL as [Iwfp Iwfps Ikeys Ilay Ifree Ipok Ivia Iback Iclosed Ireach Iunm
                  Ipsok Igu Igv].
  rewrite <- (length_key_values (l_preds L)). apply NoDup_incl_length.
  - exact Iwfps.
  - intros s Hs. apply in_map_iff in Hs. destruct Hs as (k & <- & Hk).
    assert (Hkp : dict_mem k (l_preds L) = true)
      by (apply mem_vin, in_vin; exact Hk).
    destruct (Igv k Hkp) as (n & u & rest & Hg & _).
    apply (edge_recipient g u k). apply (Ipsok k (u :: rest) u Hg).
    left. reflexivity.
Qed.

Lemma phases_frames_enough frames g :
  wf g -> frames + S (length (recipients g)) <= limit ->
  forall fuel m,
    matching_ok g m ->
    phases_frames limit frames fuel g m = phases fuel g m.
Proof.
  intros Hwf Hle. induction fuel as [|f IH]; intros m Hm;
    cbn [phases_frames phases]; auto.
  destruct (layer_phase_ok g m Hwf Hm) as (L & HLp & HL & _).
  rewrite HLp. cbn [bind].
  destruct (l_unmatched L) as [|v0 rest] eqn:Hun; auto.
  destruct (phase_progress g m L v0 rest Hm HL Hun) as (s & Ha & Hm' & _).
  rewrite Hun in Ha.
  rewrite augment_frames_enough.
  - rewrite Ha. cbn [bind]. apply IH. exact Hm'.
  - cbn [preds]. pose proof (layering_preds_bound g m L HL). lia.
Qed.

Lemma BipartiteMatch_frames_enough frames g :
  wf g -> frames + S (length (recipients g)) <= limit ->
  BipartiteMatch_frames limit frames g = BipartiteMatch g.
Proof.
  intros Hwf Hle. unfold BipartiteMatch_frames, BipartiteMatch.
  destruct (greedy_start g Hwf) as (m0 & Hg & Hm0). rewrite Hg. cbn [bind].
  apply phases_frames_enough; auto.
Qed.

(** A call that returns on a recipient of level [n] had more than [n]
    frames left: the search goes [n] calls deep before anything returns. *)
Lemma Recurse_frames_depth : forall fuel frames n v s b s',
  wf (pred s) -> wf (preds s) ->
  good_v (pred s) (preds s) n v ->
  Recurse_frames limit fuel frames v s = Ret (b, s') ->
  frames + n < limit.
Proof.
  induction fuel as [|f IH]; intros frames n v s b s' Hwp Hwps Hgood Hr;
    [discriminate|].
  pose proof Hgood as (u & rest & Hv & Hu).
  cbn [Recurse_frames] in Hr.
  destruct (limit <=? frames) eqn:El; [discriminate|].
  apply Nat.leb_gt in El.
  rewrite Hv in Hr. rewrite recurse_loop_first in Hr.
  cbn [matching pred preds] in Hr.
  destruct n as [|k]; [lia|].
  pose proof Hu as (w & u' & rest' & H1 & H2 & H3).
  rewrite H1 in Hr.
  destruct (Recurse_frames limit f (S frames) w _) as [[b1 s2]| |] eqn:Er;
    try discriminate.
  assert (Hd : S frames + k < limit).
  { eapply (IH (S frames) k w _ b1 s2); [| | |exact Er]; cbn [pred preds].
    - apply wf_remove. exact Hwp.
    - apply wf_remove. exact Hwps.
    - assert (Hlu : forall j, j <= k -> ~ good_u (pred s) (preds s) j u).
      { intros j Hj Hc. pose proof (good_u_level _ _ _ _ _ Hu Hc). lia. }
      assert (Hlv : forall j, j <= k -> ~ good_v (pred s) (preds s) j v).
      { intros j Hj Hc. pose proof (good_v_level _ _ _ _ _ Hgood Hc). lia. }
      exists u', rest'. split.
      + rewrite get_remove by assumption. case_eq_py v w; auto.
        exfalso. apply (Hlv k); [lia|].
        apply (good_v_congr _ _ k w v); auto. exists u', rest'. auto.
      + apply good_u_remove; auto. intros j Hj. apply Hlv. lia. }
  lia.
Qed.

(** C5, as the code has it: on every graph [BipartiteMatch] terminates, and
    the only error it can end with is the [RuntimeError] of the recursion
    limit.  When it returns, the result is a largest matching, with fewer
    entries than there are participants whenever no matching gives
    something to every participant.  It does return whenever the
    participants are fewer than the frames that are left. *)
Theorem BipartiteMatch_terminates_within_limit frames g P :
  wf g -> NoDup (map value P) ->
  (forall u l v, In (u, l) g -> In v l -> vin v P) ->
  (BipartiteMatch_frames limit frames g = Raise RuntimeError \/
   exists m A B,
     BipartiteMatch_frames limit frames g = Ret (m, A, B) /\
     is_matching (contents g) (pairs m) /\
     (forall M, is_matching (contents g) M -> length M <= length m) /\
     length m <= length P /\
     (~ (exists M, is_matching (contents g) M /\
                   forall p, In p P -> In (value p) (map snd M)) ->
      length m < length P)) /\
  (frames + length P < limit ->
   exists m A B, BipartiteMatch_frames limit frames g = Ret (m, A, B)).
Proof.
  intros Hwf HP Hin.
  destruct (BipartiteMatch_partial g P Hwf HP Hin)
    as (m & A & B & Hr & H1 & H2 & H3 & H4).
  split.
  - destruct (BipartiteMatch_frames_agree frames g) as [E|E];
      [right | left; exact E].
    exists m, A, B. rewrite E. auto.
  - intros Hlt. exists m, A, B.
    rewrite BipartiteMatch_frames_enough; auto.
    assert (Hb : length (recipients g) <= length P).
    { rewrite <- (length_map value P). apply NoDup_incl_length.
      - apply NoDup_nodup.
      - intros s Hs. apply in_recipients in Hs.
        destruct Hs as (u & l & v & Hul & Hv & <-). apply (Hin u l v Hul Hv). }
    lia.
Qed.

End Frames.
(** ** A graph whose layering is as deep as it is long *)

Section Chain.
Context {RT : PyRuntime}.
Hypothesis value_inj : forall a b : obj, value a = value b -> a = b.
Hypothesis order_id : forall l : list obj, order l = l.
Variable n : nat.
Hypothesis n_pos : 1 <= n.

Lemma py_eq_nat a b : py_eq a b = (a =? b).
Proof.
  destruct (Nat.eqb_spec a b) as [->|Hne].
  - apply py_eq_refl.
  - apply py_eq_false. intros E. apply Hne, value_inj, E.
Qed.

(** A dictionary written as a table over a range of keys. *)
Lemma get_table {X} (f : nat -> X) : forall len a k tail,
  dict_get k (map (fun i => (i, f i)) (seq a len) ++ tail) =
  if (a <=? k) && (k <? a + len) then Some (f k) else dict_get k tail.
Proof.
  induction len as [|len IH]; intros a k tail; simpl.
  - destruct (Nat.leb_spec a k), (Nat.ltb_spec k (a + 0)); simpl; auto; lia.
  - rewrite py_eq_nat, IH.
    destruct (Nat.eqb_spec a k) as [->|Hne].
    + destruct (Nat.leb_spec k k), (Nat.ltb_spec k (k + S len)); simpl; auto;
        lia.
    + destruct (Nat.leb_spec (S a) k), (Nat.ltb_spec k (S a + len)),
        (Nat.leb_spec a k), (Nat.ltb_spec k (a + S len)); simpl; auto; lia.
Qed.

Lemma set_fresh {X} k (x : X) : forall d,
  dict_mem k d = false -> dict_set k x d = d ++ [(k, x)].
Proof.
  induction d as [|[k' x'] d IH]; simpl; intros H; auto.
  unfold dict_mem in H. simpl in H. destruct (py_eq k' k); [discriminate|].
  rewrite IH; auto.
Qed.

Lemma get_chain k :
  dict_get k (chain_graph n) =
  if k <? n then Some [k; S k] else if k =? n then Some [0] else None.
Proof.
  unfold chain_graph. rewrite (get_table (fun i => [i; S i])). simpl.
  rewrite py_eq_nat, (Nat.eqb_sym n k). reflexivity.
Qed.

Lemma get_ident j k :
  dict_get k (ident j) = if k <? j then Some k else None.
Proof.
  unfold ident. rewrite <- (app_nil_r (map _ _)).
  rewrite (get_table (fun i => i)). reflexivity.
Qed.

Lemma ident_succ j : ident (S j) = ident j ++ [(j, j)].
Proof. unfold ident. rewrite seq_S, map_app. reflexivity. Qed.

Lemma keys_chain : dict_keys (chain_graph n) = seq 0 n ++ [n].
Proof.
  unfold chain_graph, dict_keys. rewrite map_app, map_map. simpl.
  rewrite map_id. reflexivity.
Qed.

Lemma wf_chain : wf (chain_graph n).
Proof.
  unfold wf. rewrite keys_chain, <- seq_S.
  apply NoDup_map_NoDup_ForallPairs.
  - intros a b _ _. apply value_inj.
  - apply seq_NoDup.
Qed.

(** The greedy initialisation matches everybody but the last giver with
    themself. *)
Lemma greedy_chain : forall len a,
  a + len = n ->
  greedy (chain_graph n) (seq a len ++ [n]) (ident a) = Ret (ident n).
Proof.
  induction len as [|len IH]; intros a Ha.
  - replace a with n by lia. cbn [seq app greedy]. unfold dict_lookup.
    rewrite get_chain, Nat.ltb_irrefl, Nat.eqb_refl. cbn [bind greedy_inner].
    unfold dict_mem. rewrite get_ident.
    destruct (Nat.ltb_spec 0 n); [reflexivity | lia].
  - cbn [seq app greedy]. unfold dict_lookup. rewrite get_chain.
    destruct (Nat.ltb_spec a n); [|lia]. cbn [bind greedy_inner].
    assert (Hm : dict_mem a (ident a) = false).
    { unfold dict_mem. rewrite get_ident, Nat.ltb_irrefl. reflexivity. }
    rewrite Hm, (set_fresh (X:=obj) a a (ident a) Hm), <- ident_succ.
    apply IH. lia.
Qed.

Lemma greedy_chain_start :
  greedy (chain_graph n) (dict_iter (chain_graph n)) [] = Ret (ident n).
Proof.
  unfold dict_iter. rewrite order_id, keys_chain.
  apply (greedy_chain n 0). lia.
Qed.

Lemma matching_ok_ident : matching_ok (chain_graph n) (ident n).
Proof.
  destruct (greedy_start (chain_graph n) wf_chain) as (m0 & Hg & Hm0).
  rewrite greedy_chain_start in Hg. inversion Hg; subst m0. exact Hm0.
Qed.

Lemma ident_entry v x : dict_get v (ident n) = Some x -> v < n /\ x = v.
Proof.
  rewrite get_ident. destruct (Nat.ltb_spec v n); [|discriminate].
  intros E. inversion E; subst. auto.
Qed.

(** The edges of the chain. *)
Lemma chain_edge u v :
  edge (chain_graph n) u v ->
  (u < n /\ (v = u \/ v = S u)) \/ (u = n /\ v = 0).
Proof.
  intros (l & Hl & Hv). rewrite get_chain in Hl.
  destruct (Nat.ltb_spec u n).
  - inversion Hl; subst l. left. split; auto. unfold vin in Hv. simpl in Hv.
    destruct Hv as [E|[E|[]]]; apply value_inj in E; auto.
  - destruct (Nat.eqb_spec u n); [|discriminate]. inversion Hl; subst l.
    right. split; auto. unfold vin in Hv. simpl in Hv.
    destruct Hv as [E|[]]. apply value_inj in E. auto.
Qed.

Lemma edge_next i : i < n -> edge (chain_graph n) i (S i).
Proof.
  intros Hi. exists [i; S i]. split.
  - rewrite get_chain. destruct (Nat.ltb_spec i n); [reflexivity | lia].
  - apply in_vin. right. left. reflexivity.
Qed.

Lemma edge_last : edge (chain_graph n) n 0.
Proof.
  exists [0]. split.
  - rewrite get_chain, Nat.ltb_irrefl, Nat.eqb_refl. reflexivity.
  - apply in_vin. left. reflexivity.
Qed.

Section Layering.
Variable L : layering.
Hypothesis HL : layer_inv (chain_graph n) (ident n) L.

(** A giver [i] of the layering sits more than [i] double steps away from
    the unmatched giver. *)
Lemma chain_level : forall i k,
  i < n -> good_u (l_pred L) (l_preds L) k i -> i < k.
Proof.
  destruct HL as [Iwfp Iwfps Ikeys Ilay Ifree Ipok Ivia Iback Iclosed Ireach Iunm
                  Ipsok Igu Igv].
  induction i as [|j IH]; intros k Hi Hgood.
  - destruct k as [|k]; [|lia]. simpl in Hgood. exfalso.
    apply (proj1 (Ipok 0) Hgood 0 0); [|reflexivity].
    rewrite get_ident. destruct (Nat.ltb_spec 0 n); [reflexivity | lia].
  - destruct k as [|k].
    + simpl in Hgood. exfalso.
      apply (proj1 (Ipok (S j)) Hgood (S j) (S j)); [|reflexivity].
      rewrite get_ident. destruct (Nat.ltb_spec (S j) n); [reflexivity | lia].
    + pose proof Hgood as (w & u' & rest & H1 & H2 & H3).
      destruct (proj2 (Ipok (S j)) w H1) as (x & Hx & Ex).
      apply value_inj in Ex. subst x.
      destruct (ident_entry w (S j) Hx) as [_ Ew]. subst w.
      assert (He : edge (chain_graph n) u' (S j)).
      { apply (Ipsok (S j) (u' :: rest) u' H2). left. reflexivity. }
      destruct (chain_edge u' (S j) He) as [[Hu [E|E]]|[_ E]].
      * subst u'. pose proof (good_u_level _ _ _ _ _ Hgood H3). lia.
      * inversion E; subst u'. pose proof (IH k ltac:(lia) H3). lia.
      * discriminate.
Qed.

Lemma chain_unmatched_level v k :
  In v (l_unmatched L) -> good_v (l_pred L) (l_preds L) k v -> n <= k.
Proof.
  intros Hv (u & rest & H1 & H2).
  pose proof (chain_level) as Hlev.
  destruct HL as [Iwfp Iwfps Ikeys Ilay Ifree Ipok Ivia Iback Iclosed Ireach Iunm
                  Ipsok Igu Igv].
  destruct (Iunm v Hv) as [Hm _]. unfold dict_mem in Hm.
  rewrite get_ident in Hm. destruct (Nat.ltb_spec v n); [discriminate|].
  assert (He : edge (chain_graph n) u v).
  { apply (Ipsok v (u :: rest) u H1). left. reflexivity. }
  destruct (chain_edge u v He) as [[Hu [E|E]]|[_ E]]; try lia.
  subst v. pose proof (Hlev u k Hu H2). lia.
Qed.

End Layering.

(** Every giver is reached from the last one along an alternating path. *)
Lemma chain_alternating : forall i,
  i < n -> alternating (chain_graph n) (ident n) i.
Proof.
  assert (Hfree : alternating (chain_graph n) (ident n) n).
  { apply alt_free.
    - eapply edge_mem. apply edge_last.
    - intros v u' Hg E. apply value_inj in E. subst u'.
      destruct (ident_entry v n Hg) as [H1 H2]. lia. }
  induction i as [|j IH]; intros Hi.
  - apply (alt_step (u':=n) (v:=0) (x:=0)); auto.
    + apply edge_last.
    + rewrite get_ident. destruct (Nat.ltb_spec 0 n); [reflexivity | lia].
  - apply (alt_step (u':=j) (v:=S j) (x:=S j)); auto.
    + apply IH. lia.
    + apply edge_next. lia.
    + rewrite get_ident. destruct (Nat.ltb_spec (S j) n); [reflexivity | lia].
Qed.

(** The layering of the greedy matching reaches the unmatched recipient. *)
Lemma chain_layering :
  exists L v0 rest,
    layer_phase (chain_graph n) (ident n) = Ret L /\
    layer_inv (chain_graph n) (ident n) L /\
    l_unmatched L = v0 :: rest.
Proof.
  destruct (layer_phase_ok (chain_graph n) (ident n) wf_chain matching_ok_ident)
    as (L & HLp & HL & Hstop).
  destruct (l_unmatched L) as [|v0 rest] eqn:Hun.
  - exfalso. destruct Hstop as [Hlay|H]; [|congruence].
    assert (HF : final_layering (chain_graph n) (ident n) L)
      by (split; [exact HL | split; assumption]).
    pose proof (alternating_reached _ _ _ matching_ok_ident HF (n - 1)
                  (chain_alternating (n - 1) ltac:(lia))) as Hp.
    destruct HL as [Iwfp Iwfps Ikeys Ilay Ifree Ipok Ivia Iback Iclosed Ireach
                    Iunm Ipsok Igu Igv].
    assert (Hn : dict_mem n (l_preds L) = true).
    { apply (Iclosed (n - 1) [n - 1; S (n - 1)] n Hp).
      - rewrite Hlay. intros [].
      - rewrite get_chain. destruct (Nat.ltb_spec (n - 1) n); [reflexivity | lia].
      - right. left. lia. }
    destruct (Ireach n Hn) as [H|H].
    + unfold dict_mem in H. rewrite get_ident, Nat.ltb_irrefl in H.
      discriminate.
    + rewrite Hun in H. destruct H.
  - exists L, v0, rest. auto.
Qed.

(** With a limit that leaves fewer frames than the chain is long, the first
    augmentation fails. *)
Lemma chain_overflows limit frames :
  limit <= frames + n ->
  BipartiteMatch_frames limit frames (chain_graph n) = Raise RuntimeError.
Proof.
  intros Hlim. unfold BipartiteMatch_frames.
  rewrite greedy_chain_start. cbn [bind phases_frames].
  destruct chain_layering as (L & v0 & rest & HLp & HL & Hun).
  rewrite HLp. cbn [bind]. rewrite Hun. cbn [augment_frames preds].
  destruct (rec_inv_of_layering _ _ _ matching_ok_ident HL) as [Hinv Hnp].
  assert (Hv0 : In v0 (l_unmatched L)) by (rewrite Hun; left; reflexivity).
  destruct (Recurse_frames_agree limit (S (length (l_preds L))) frames v0
              (mkState (ident n) (l_pred L) (l_preds L))) as [E|E];
    [|rewrite E; reflexivity].
  exfalso.
  destruct (Recurse_ok (chain_graph n) (S (length (l_preds L))) v0
              (mkState (ident n) (l_pred L) (l_preds L)) Hinv)
    as (b & s' & Hr & _).
  { apply Hnp. exact Hv0. }
  { cbn [preds]. lia. }
  rewrite Hr in E.
  destruct (li_unmatched HL v0 Hv0) as [_ Hp].
  destruct (li_good_v HL v0 Hp) as (k & Hk).
  pose proof (chain_unmatched_level L HL v0 k Hv0 Hk) as Hnk.
  pose proof (Recurse_frames_depth limit _ frames k v0
                (mkState (ident n) (l_pred L) (l_preds L)) b s'
                (li_wf_pred HL) (li_wf_preds HL) Hk E) as Hd.
  lia.
Qed.

End Chain.
(** * Instances for the recursion limit and for copies of names *)

Lemma chain_name_inj a b : chain_name a = chain_name b -> a = b.
Proof.
  unfold chain_name. intros H.
  apply (f_equal DecimalString.NilEmpty.uint_of_string) in H.
  rewrite !DecimalString.NilEmpty.usu in H. inversion H as [E].
  apply (f_equal Nat.of_uint) in E.
  rewrite !DecimalNat.Unsigned.of_to in E. exact E.
Qed.

(** C5, as stated, fails on the chain of 1001 givers named 0 to 1000, where
    giver [i] may give to [i] and to [i + 1] and giver 1000 to 0 only,
    iterated from 0 to 1000: the graph is a valid dictionary, the greedy
    matching gives everybody below 1000 to themself and leaves giver 1000
    out, the only augmenting path runs through all the others, and
    [Recurse] nests 1001 calls deep along it, more than the recursion limit
    allows whatever the number of frames active before. *)
Lemma deep_chain_exceeds_the_recursion_limit :
  wf (RT:=rt_chain) (chain_graph 1000) /\
  forall frames,
    BipartiteMatch_frames (RT:=rt_chain) recursion_limit frames
      (chain_graph 1000) = Raise RuntimeError.
Proof.
  split.
  - apply (wf_chain (RT:=rt_chain) chain_name_inj).
  - intros frames.
    apply (chain_overflows (RT:=rt_chain) chain_name_inj
             (fun l => eq_refl) 1000).
    + lia.
    + unfold recursion_limit. lia.
Qed.

Lemma wf_g_stuck : wf (RT:=rt0) g_stuck.
Proof. unfold wf. simpl. nodup_strings. Qed.

Lemma g_stuck_within_P3 :
  forall u l v, In (u, l) g_stuck -> In v l -> vin (RT:=rt0) v P3.
Proof.
  intros u l v Hin Hv. unfold vin. simpl in Hin.
  destruct Hin as [E|[E|[]]]; inversion E; subst u l; simpl in Hv;
    repeat (destruct Hv as [<-|Hv]; [simpl; tauto|]); contradiction.
Qed.

Lemma g_stuck_incomplete :
  ~ (exists M, is_matching (contents (RT:=rt0) g_stuck) M /\
               forall p, In p P3 ->
                 In (value (PyRuntime:=rt0) p) (map snd M)).
Proof.
  intros (M & (_ & _ & He) & Hall).
  assert (HA : In (value (PyRuntime:=rt0) 0) (map snd M))
    by (apply Hall; left; reflexivity).
  apply in_map_iff in HA. destruct HA as ([a b] & Eb & Hin). simpl in Eb.
  subst b. destruct (He _ _ Hin) as (l & Hl & HAl). simpl in Hl.
  destruct Hl as [E|[E|[]]]; inversion E; subst a l; simpl in HAl;
    destruct HAl as [E'|[]]; discriminate.
Qed.

Lemma BipartiteMatch_terminates_within_limit_witness :
  exists m A B,
    BipartiteMatch_frames (RT:=rt0) recursion_limit 1 g_stuck = Ret (m, A, B) /\
    is_matching (contents (RT:=rt0) g_stuck) (pairs (RT:=rt0) m) /\
    (forall M, is_matching (contents (RT:=rt0) g_stuck) M ->
               length M <= length m) /\
    length m < length P3.
Proof.
  destruct (BipartiteMatch_terminates_within_limit (RT:=rt0) recursion_limit 1
              g_stuck P3 wf_g_stuck nodup_P3 g_stuck_within_P3)
    as [[E|(m & A & B & Hr & H1 & H2 & _ & H4)] Hret].
  - destruct Hret as (m & A & B & Hr); [unfold recursion_limit; simpl; lia|].
    rewrite Hr in E. discriminate.
  - exists m, A, B. split; [exact Hr|]. split; [exact H1|].
    split; [exact H2|]. apply H4. exact g_stuck_incomplete.
Defined.

(** C6, as stated, fails on the complete matching in which johan and louise
    give to each other and the givers are copies of the names: the walk
    from johan reaches a string equal to johan that is not the root, pops
    the entry of johan, and the next lookup raises [KeyError]. *)
Lemma matching_of_copies_is_rejected :
  complete (RT:=rt_shipped) [2; 4] m_copies /\
  no_self (RT:=rt_shipped) m_copies /\
  MakeSureEverybodyHasGift (RT:=rt_shipped) m_copies = Raise KeyError.
Proof.
  split; [|split].
  - unfold complete, wf, vin. simpl.
    repeat split; try nodup_strings; intuition.
  - intros k x Hin. simpl in Hin.
    destruct Hin as [E|[E|[]]]; inversion E; subst k x; simpl; discriminate.
  - vm_compute. reflexivity.
Qed.
